(** * DataReaderHistory: the reader-side sample history of a DDS subscription

    A shallow embedding of [DataReaderHistory.cpp] (Fast-DDS) and the
    verification of its specification.

    The C++ object is a record [History]; every member function is a
    computation in a small state / log / fault monad [M]: it reads and writes
    the history, emits log entries, and either returns or ends in a fault
    (an exception, a failed assertion, a null or end-iterator dereference).
    Integers keep their C++ width: [int32_t] QoS values are [Z] with the
    conversions to [size_t] written out.  Pointers to changes are the changes
    together with their address; iterators are positions in a named vector;
    the instance table is the list of its entries in key order.

    The base change store ([add_change], [remove_change], [find_change_nts],
    [ReaderHistory::remove_change_nts]) is not part of the sources at hand
    and is modelled from the specification. *)

From Stdlib Require Import ZArith NArith List Bool Lia String.
Import ListNotations.
Local Open Scope Z_scope.

(** ** Machine integers *)

Module Int.

(** [std::numeric_limits<int32_t>::max()] *)
Definition int32_max : Z := 2147483647.

(** Two's complement result of an [int32_t] operation (the C++ standard
    leaves signed overflow undefined; the wrapped value is what the
    supported targets compute). *)
Definition wrap32 (z : Z) : Z := (z + 2147483648) mod 4294967296 - 2147483648.

(** [uint32_t] arithmetic. *)
Definition wrapu32 (z : Z) : Z := z mod 4294967296.

(** [static_cast<size_t>(v)] on a 64-bit target. *)
Definition to_size_t (z : Z) : Z := z mod 18446744073709551616.

(** [size_t + size_t]. *)
Definition size_add (a b : Z) : Z := (a + b) mod 18446744073709551616.

End Int.

(** [std::vector::size()] *)
Definition vsize {A : Type} (v : list A) : Z := Z.of_nat (List.length v).

(** ** Data model *)

(** Modelled from the spec: [InstanceHandle_t] is declared outside the
    sources at hand.  The spec describes an opaque fixed-size identifier with
    a distinguished undefined value and a total order.  The 16 octets are
    read as one big-endian number, so that the numeric order is the octet-wise
    order and the all-zero handle is the undefined one. *)
Definition InstanceHandle_t := N.

Definition c_InstanceHandle_Unknown : InstanceHandle_t := 0%N.

Definition isDefined (h : InstanceHandle_t) : bool := negb (N.eqb h 0).

(** The handle whose [value[0]] is 1 and whose other octets are 0. *)
Definition fictitious_handle : InstanceHandle_t := (2 ^ 120)%N.

Definition GUID_t := N.
Definition SequenceNumber_t := Z.
Definition time_point := Z.
Definition SerializedPayload_t := list N.

Inductive ChangeKind_t :=
| ALIVE
| NOT_ALIVE_DISPOSED
| NOT_ALIVE_UNREGISTERED
| NOT_ALIVE_DISPOSED_UNREGISTERED.

(** A [CacheChange_t] object.  The history only ever holds pointers to
    changes; [addr] is the address of the object, so that two pointers are
    equal exactly when the [addr] fields are. *)
Record CacheChange_t := {
  addr : nat;
  kind : ChangeKind_t;
  writerGUID : GUID_t;
  instanceHandle : InstanceHandle_t;
  sequenceNumber : SequenceNumber_t;
  serializedPayload : SerializedPayload_t;
  sourceTimestamp : time_point;
  receptionTimestamp : time_point;
  write_params_sample_identity : GUID_t * SequenceNumber_t
}.

Definition set_instanceHandle (k : InstanceHandle_t) (c : CacheChange_t) : CacheChange_t :=
  {| addr := addr c; kind := kind c; writerGUID := writerGUID c;
     instanceHandle := k; sequenceNumber := sequenceNumber c;
     serializedPayload := serializedPayload c;
     sourceTimestamp := sourceTimestamp c;
     receptionTimestamp := receptionTimestamp c;
     write_params_sample_identity := write_params_sample_identity c |}.

(** Pointer comparison [p == q]. *)
Definition ptr_eqb (p q : CacheChange_t) : bool := Nat.eqb (addr p) (addr q).

(** The comparison written out in both [remove_change_sub] overloads. *)
Definition same_identity (p q : CacheChange_t) : bool :=
  Z.eqb (sequenceNumber p) (sequenceNumber q) && N.eqb (writerGUID p) (writerGUID q).

(** Modelled from the spec: [KeyedChanges] is declared outside the sources at
    hand.  An instance entry is an ordered list of change pointers and a
    next-deadline timestamp; a default-constructed entry is empty with the
    clock's epoch as deadline. *)
Record KeyedChanges := {
  cache_changes : list CacheChange_t;
  next_deadline_us : time_point
}.

Definition KeyedChanges_default : KeyedChanges :=
  {| cache_changes := []; next_deadline_us := 0 |}.

(** [std::map<InstanceHandle_t, KeyedChanges>]: entries in increasing key
    order, which is the order [begin() .. end()] visits them in. *)
Definition t_m_Inst_Caches := list (InstanceHandle_t * KeyedChanges).

Inductive HistoryQosPolicyKind := KEEP_LAST_HISTORY_QOS | KEEP_ALL_HISTORY_QOS.

Record HistoryQosPolicy := {
  history_kind : HistoryQosPolicyKind;
  depth : Z
}.

Record ResourceLimitsQosPolicy := {
  max_samples : Z;
  max_instances : Z;
  max_samples_per_instance : Z;
  allocated_samples : Z
}.

Inductive MemoryManagementPolicy_t :=
| PREALLOCATED_MEMORY_MODE
| PREALLOCATED_WITH_REALLOC_MEMORY_MODE
| DYNAMIC_RESERVE_MEMORY_MODE
| DYNAMIC_REUSABLE_MEMORY_MODE.

Record DataReaderQos := {
  history : HistoryQosPolicy;
  resource_limits : ResourceLimitsQosPolicy;
  history_memory_policy : MemoryManagementPolicy_t
}.

Record HistoryAttributes := {
  memoryPolicy : MemoryManagementPolicy_t;
  payloadMaxSize : Z;
  initialReservedCaches : Z;
  maximumReservedCaches : Z
}.

(** The type plugin.  [getKey payload handle] stands for
    [deserialize(payload, scratch)] followed by
    [getKey(scratch, &handle, is_key_protected)]: it answers the boolean and
    the handle as the call leaves it. *)
Record TopicDataType := {
  m_isGetKeyDefined : bool;
  m_typeSize : Z;
  getKey : SerializedPayload_t -> InstanceHandle_t -> bool * InstanceHandle_t
}.

Record TopicDescription := {
  get_name : string;
  get_type_name : string
}.

(** Modelled from the spec: the enclosing reader is an external collaborator.
    Of its interface the history uses the GUID and [next_untaken_cache], of
    which the answer is recorded here. *)
Record RTPSReader := {
  getGuid : GUID_t;
  nextUntakenCache : option CacheChange_t
}.

Inductive RecursiveTimedMutex := the_mutex.

(** Which member function the constructor binds to [receive_fn_]. *)
Inductive receive_fn :=
| keep_all_no_key
| keep_last_no_key
| keep_all_with_key
| keep_last_with_key.

Record History := {
  m_att : HistoryAttributes;
  m_changes : list CacheChange_t;
  m_isHistoryFull : bool;
  mp_reader : option RTPSReader;
  mp_mutex : option RecursiveTimedMutex;
  history_qos_ : HistoryQosPolicy;
  resource_limited_qos_ : ResourceLimitsQosPolicy;
  topic_name_ : string;
  type_name_ : string;
  has_keys_ : bool;
  type_ : option TopicDataType;
  get_key_object_ : bool;
  keyed_changes_ : t_m_Inst_Caches;
  next_deadline_us_ : time_point;
  receive_fn_ : receive_fn
}.

Definition set_m_changes (v : list CacheChange_t) (h : History) : History :=
  {| m_att := m_att h; m_changes := v; m_isHistoryFull := m_isHistoryFull h;
     mp_reader := mp_reader h; mp_mutex := mp_mutex h;
     history_qos_ := history_qos_ h; resource_limited_qos_ := resource_limited_qos_ h;
     topic_name_ := topic_name_ h; type_name_ := type_name_ h;
     has_keys_ := has_keys_ h; type_ := type_ h; get_key_object_ := get_key_object_ h;
     keyed_changes_ := keyed_changes_ h; next_deadline_us_ := next_deadline_us_ h;
     receive_fn_ := receive_fn_ h |}.

Definition set_m_isHistoryFull (b : bool) (h : History) : History :=
  {| m_att := m_att h; m_changes := m_changes h; m_isHistoryFull := b;
     mp_reader := mp_reader h; mp_mutex := mp_mutex h;
     history_qos_ := history_qos_ h; resource_limited_qos_ := resource_limited_qos_ h;
     topic_name_ := topic_name_ h; type_name_ := type_name_ h;
     has_keys_ := has_keys_ h; type_ := type_ h; get_key_object_ := get_key_object_ h;
     keyed_changes_ := keyed_changes_ h; next_deadline_us_ := next_deadline_us_ h;
     receive_fn_ := receive_fn_ h |}.

Definition set_keyed_changes_ (t : t_m_Inst_Caches) (h : History) : History :=
  {| m_att := m_att h; m_changes := m_changes h; m_isHistoryFull := m_isHistoryFull h;
     mp_reader := mp_reader h; mp_mutex := mp_mutex h;
     history_qos_ := history_qos_ h; resource_limited_qos_ := resource_limited_qos_ h;
     topic_name_ := topic_name_ h; type_name_ := type_name_ h;
     has_keys_ := has_keys_ h; type_ := type_ h; get_key_object_ := get_key_object_ h;
     keyed_changes_ := t; next_deadline_us_ := next_deadline_us_ h;
     receive_fn_ := receive_fn_ h |}.

Definition set_next_deadline_us_ (t : time_point) (h : History) : History :=
  {| m_att := m_att h; m_changes := m_changes h; m_isHistoryFull := m_isHistoryFull h;
     mp_reader := mp_reader h; mp_mutex := mp_mutex h;
     history_qos_ := history_qos_ h; resource_limited_qos_ := resource_limited_qos_ h;
     topic_name_ := topic_name_ h; type_name_ := type_name_ h;
     has_keys_ := has_keys_ h; type_ := type_ h; get_key_object_ := get_key_object_ h;
     keyed_changes_ := keyed_changes_ h; next_deadline_us_ := t;
     receive_fn_ := receive_fn_ h |}.

(** Modelled from the spec: the reader installs itself and its mutex in the
    history after construction (the reader's constructor is outside the
    sources at hand). *)
Definition attach (r : RTPSReader) (h : History) : History :=
  {| m_att := m_att h; m_changes := m_changes h; m_isHistoryFull := m_isHistoryFull h;
     mp_reader := Some r; mp_mutex := Some the_mutex;
     history_qos_ := history_qos_ h; resource_limited_qos_ := resource_limited_qos_ h;
     topic_name_ := topic_name_ h; type_name_ := type_name_ h;
     has_keys_ := has_keys_ h; type_ := type_ h; get_key_object_ := get_key_object_ h;
     keyed_changes_ := keyed_changes_ h; next_deadline_us_ := next_deadline_us_ h;
     receive_fn_ := receive_fn_ h |}.

(** [mp_reader == nullptr || mp_mutex == nullptr] *)
Definition not_created (h : History) : bool :=
  match mp_reader h, mp_mutex h with
  | Some _, Some _ => false
  | _, _ => true
  end.

(** ** Log output, faults and the monad of member functions *)

Inductive LogLevel := Error | Warning | Info.
Inductive LogCategory := SUBSCRIBER | RTPS_WRITER_HISTORY.

(** What a call streams into a log message, operand by operand: string
    literals and [std::string]s as text, values of the other types as they
    are (their [operator<<] is outside the sources at hand). *)
Inductive LogOperand :=
| Text (s : string)
| StreamedSequenceNumber (n : SequenceNumber_t)
| StreamedGUID (g : GUID_t)
| StreamedEntityId (g : GUID_t)          (* [g.entityId] *)
| StreamedInstanceHandle (k : InstanceHandle_t).

Definition LogMessage := list LogOperand.
Bind Scope string_scope with LogMessage.

(** A message that is one string literal. *)
Definition literal (s : string) : LogMessage := [Text s].
Coercion literal : string >-> LogMessage.

Record LogEntry := {
  log_level : LogLevel;
  log_category : LogCategory;
  log_text : LogMessage
}.

(** Ways in which a call does not return to its caller.  Assertions are
    kept enabled: an [assert] that does not hold ends the call. *)
Inductive fault :=
| OutOfRange          (* [std::out_of_range] thrown by [vector::at] *)
| AssertionFailed     (* an [assert] that does not hold *)
| NullDereference     (* [*p] or [p->] on a null pointer *)
| EndDereference.     (* [*it] or [it->] on an end iterator *)

Inductive result (A : Type) :=
| Ret (a : A) (h : History) (out : list LogEntry)
| Fault (f : fault).
Arguments Ret {A} a h out.
Arguments Fault {A} f.

Definition M (A : Type) : Type := History -> result A.

Definition ret {A} (a : A) : M A := fun h => Ret a h [].

Definition bind {A B} (m : M A) (k : A -> M B) : M B :=
  fun h =>
    match m h with
    | Fault f => Fault f
    | Ret a h1 o1 =>
        match k a h1 with
        | Fault f => Fault f
        | Ret b h2 o2 => Ret b h2 (o1 ++ o2)
        end
    end.

Definition gets {A} (f : History -> A) : M A := fun h => Ret (f h) h [].
Definition modify (f : History -> History) : M unit := fun h => Ret tt (f h) [].
Definition raise {A} (f : fault) : M A := fun _ => Fault f.
Definition log (l : LogLevel) (c : LogCategory) (s : LogMessage) : M unit :=
  fun h => Ret tt h [ {| log_level := l; log_category := c; log_text := s |} ].

Declare Scope hist_scope.
Delimit Scope hist_scope with hist.
Notation "x <- m ;; k" := (bind m (fun x => k))
  (at level 61, m at next level, right associativity) : hist_scope.
Notation "' p <- m ;; k" := (bind m (fun p => k))
  (at level 61, p pattern, m at next level, right associativity) : hist_scope.
Notation "m ;; k" := (bind m (fun _ => k))
  (at level 61, right associativity) : hist_scope.
Local Open Scope hist_scope.

Definition logError := log Error.
Definition logWarning := log Warning.
Definition logInfo := log Info.

(** ** Containers *)

(** [v.at(i)] *)
Definition at_ {A} (v : list A) (i : nat) : M A :=
  match nth_error v i with
  | Some x => ret x
  | None => raise OutOfRange
  end.

(** [v.erase(v.begin() + i)] *)
Fixpoint erase_at {A} (i : nat) (v : list A) : list A :=
  match v, i with
  | [], _ => []
  | _ :: r, O => r
  | x :: r, S j => x :: erase_at j r
  end.

(** Position of the first element satisfying [p], as [std::find_if] and the
    scanning loops compute it. *)
Fixpoint find_index {A} (p : A -> bool) (v : list A) : option nat :=
  match v with
  | [] => None
  | x :: r => if p x then Some O else option_map S (find_index p r)
  end.

(** [keyed_changes_.find(k)] *)
Fixpoint map_find (k : InstanceHandle_t) (t : t_m_Inst_Caches) : option KeyedChanges :=
  match t with
  | [] => None
  | (k', e) :: r => if N.eqb k k' then Some e else map_find k r
  end.

(** [keyed_changes_.insert(std::make_pair(k, e))]: an existing entry is
    kept. *)
Fixpoint map_insert (k : InstanceHandle_t) (e : KeyedChanges) (t : t_m_Inst_Caches)
  : t_m_Inst_Caches :=
  match t with
  | [] => [(k, e)]
  | (k', e') :: r =>
      if N.ltb k k' then (k, e) :: t
      else if N.eqb k k' then t
      else (k', e') :: map_insert k e r
  end.

(** Assignment through an iterator or reference to the entry at key [k]. *)
Fixpoint map_adjust (f : KeyedChanges -> KeyedChanges) (k : InstanceHandle_t)
  (t : t_m_Inst_Caches) : t_m_Inst_Caches :=
  match t with
  | [] => []
  | (k', e') :: r => if N.eqb k k' then (k', f e') :: r else (k', e') :: map_adjust f k r
  end.

Definition set_cache_changes (v : list CacheChange_t) (e : KeyedChanges) : KeyedChanges :=
  {| cache_changes := v; next_deadline_us := next_deadline_us e |}.

Definition set_entry_deadline (t : time_point) (e : KeyedChanges) : KeyedChanges :=
  {| cache_changes := cache_changes e; next_deadline_us := t |}.

(** The loop of [find_key] over [begin() .. end()]: the position of the first
    entry without changes. *)
Definition first_empty (t : t_m_Inst_Caches) : option nat :=
  find_index (fun vit => Z.eqb (vsize (cache_changes (snd vit))) 0) t.

(** The step of [std::min_element] with the comparison on
    [next_deadline_us]: the smallest entry seen so far is replaced only by a
    strictly smaller one. *)
Definition earlier_entry (smallest y : InstanceHandle_t * KeyedChanges) :=
  if Z.ltb (next_deadline_us (snd y)) (next_deadline_us (snd smallest))
  then y else smallest.

(** [std::min_element(begin(), end(), comp)] *)
Definition min_element (t : t_m_Inst_Caches) : option (InstanceHandle_t * KeyedChanges) :=
  match t with
  | [] => None
  | x :: r => Some (fold_left earlier_entry r x)
  end.

(** [std::upper_bound] with the comparison [h < it.first]. *)
Fixpoint upper_bound (k : InstanceHandle_t) (t : t_m_Inst_Caches)
  : option (InstanceHandle_t * KeyedChanges) :=
  match t with
  | [] => None
  | (k', e) :: r => if N.ltb k k' then Some (k', e) else upper_bound k r
  end.

(** Dereference of a map iterator that designates the entry at key [k]. *)
Definition deref (k : InstanceHandle_t) : M KeyedChanges :=
  fun h =>
    match map_find k (keyed_changes_ h) with
    | Some e => Ret e h []
    | None => Fault EndDereference
    end.

(** Iterators handed across the interface designate a position in one of the
    history's vectors: the change store [m_changes] or the [cache_changes] of
    the instance at some key. *)
Inductive vector_id :=
| changes_vector
| instance_vector (k : InstanceHandle_t).

Record iterator := {
  it_vector : vector_id;
  it_pos : nat
}.

Definition vector_id_eqb (a b : vector_id) : bool :=
  match a, b with
  | changes_vector, changes_vector => true
  | instance_vector k, instance_vector k' => N.eqb k k'
  | _, _ => false
  end.

Definition iterator_eqb (a b : iterator) : bool :=
  vector_id_eqb (it_vector a) (it_vector b) && Nat.eqb (it_pos a) (it_pos b).

(** ** Sample metadata *)

Inductive SampleStateKind := READ_SAMPLE_STATE | NOT_READ_SAMPLE_STATE.
Inductive ViewStateKind := NEW_VIEW_STATE | NOT_NEW_VIEW_STATE.
Inductive InstanceStateKind :=
| ALIVE_INSTANCE_STATE
| NOT_ALIVE_DISPOSED_INSTANCE_STATE
| NOT_ALIVE_NO_WRITERS_INSTANCE_STATE.

Record SampleInfo := {
  sample_state : SampleStateKind;
  view_state : ViewStateKind;
  disposed_generation_count : Z;
  no_writers_generation_count : Z;
  sample_rank : Z;
  generation_rank : Z;
  absoulte_generation_rank : Z;
  source_timestamp : time_point;
  reception_timestamp : time_point;
  instance_handle : InstanceHandle_t;
  publication_handle : InstanceHandle_t;
  sample_identity : GUID_t * SequenceNumber_t;
  related_sample_identity : GUID_t * SequenceNumber_t;
  valid_data : bool;
  instance_state : InstanceStateKind
}.

Definition get_sample_info (change : CacheChange_t) : SampleInfo :=
  {| sample_state := NOT_READ_SAMPLE_STATE;
     view_state := NOT_NEW_VIEW_STATE;
     disposed_generation_count := 0;
     no_writers_generation_count := 1;
     sample_rank := 0;
     generation_rank := 0;
     absoulte_generation_rank := 0;
     source_timestamp := sourceTimestamp change;
     reception_timestamp := receptionTimestamp change;
     instance_handle := instanceHandle change;
     publication_handle := writerGUID change;
     sample_identity := (writerGUID change, sequenceNumber change);
     related_sample_identity := write_params_sample_identity change;
     valid_data := match kind change with ALIVE => true | _ => false end;
     instance_state :=
       match kind change with
       | ALIVE => ALIVE_INSTANCE_STATE
       | NOT_ALIVE_DISPOSED => NOT_ALIVE_DISPOSED_INSTANCE_STATE
       | _ => ALIVE_INSTANCE_STATE
       end |}.

(** ** Construction *)

Definition to_history_attributes (type : TopicDataType) (qos : DataReaderQos)
  : HistoryAttributes :=
  let initial_samples := allocated_samples (resource_limits qos) in
  let max_samples := max_samples (resource_limits qos) in
  let '(initial_samples, max_samples) :=
    match history_kind (history qos) with
    | KEEP_ALL_HISTORY_QOS => (initial_samples, max_samples)
    | KEEP_LAST_HISTORY_QOS =>
        let max_samples := depth (history qos) in
        let max_samples :=
          if m_isGetKeyDefined type
          then Int.wrap32 (max_samples * max_instances (resource_limits qos))
          else max_samples in
        (Z.min initial_samples max_samples, max_samples)
    end in
  {| memoryPolicy := history_memory_policy qos;
     payloadMaxSize := Int.wrapu32 (m_typeSize type + 3);
     initialReservedCaches := initial_samples;
     maximumReservedCaches := max_samples |}.

(** The three rewrites in the constructor body. *)
Definition unlimited_if_zero (v : Z) : Z := if Z.eqb v 0 then Int.int32_max else v.

Definition DataReaderHistory (type : TopicDataType) (topic : TopicDescription)
  (qos : DataReaderQos) : History :=
  {| m_att := to_history_attributes type qos;
     m_changes := [];
     m_isHistoryFull := false;
     mp_reader := None;
     mp_mutex := None;
     history_qos_ := history qos;
     resource_limited_qos_ :=
       {| max_samples := unlimited_if_zero (max_samples (resource_limits qos));
          max_instances := unlimited_if_zero (max_instances (resource_limits qos));
          max_samples_per_instance :=
            unlimited_if_zero (max_samples_per_instance (resource_limits qos));
          allocated_samples := allocated_samples (resource_limits qos) |};
     topic_name_ := get_name topic;
     type_name_ := get_type_name topic;
     has_keys_ := m_isGetKeyDefined type;
     type_ := Some type;
     get_key_object_ := m_isGetKeyDefined type;
     keyed_changes_ := [];
     next_deadline_us_ := 0;
     receive_fn_ :=
       if negb (m_isGetKeyDefined type)
       then match history_kind (history qos) with
            | KEEP_ALL_HISTORY_QOS => keep_all_no_key
            | KEEP_LAST_HISTORY_QOS => keep_last_no_key
            end
       else match history_kind (history qos) with
            | KEEP_ALL_HISTORY_QOS => keep_all_with_key
            | KEEP_LAST_HISTORY_QOS => keep_last_with_key
            end |}.

(** ** The base change store *)

(** Modelled from the spec: [add_change] of the base store is outside the
    sources at hand.  The store is append-only: an accepted sample is appended
    to [change_store]. *)
Definition add_change (a_change : CacheChange_t) : M bool :=
  modify (fun h => set_m_changes (m_changes h ++ [a_change]) h) ;;
  ret true.

(** [changesEnd()] *)
Definition changesEnd : M nat := gets (fun h => List.length (m_changes h)).

(** Modelled from the spec: [find_change_nts] of the base store is outside
    the sources at hand.  Removal is by pointer: the position of the first
    element that is this pointer, [changesEnd()] when there is none. *)
Definition find_change_nts (ch : CacheChange_t) : M nat :=
  gets (fun h =>
          match find_index (ptr_eqb ch) (m_changes h) with
          | Some i => i
          | None => List.length (m_changes h)
          end).

(** Modelled from the spec: [ReaderHistory::remove_change_nts] of the base
    store is outside the sources at hand.  It is the store's
    [remove_at(iter) -> next_iter]: the element is erased and the position
    that follows it is returned; the store's [is_full] is the cached
    [len == max_total_samples], so a removal leaves it cleared.  At
    [changesEnd()] nothing is removed. *)
Definition ReaderHistory_remove_change_nts (removal : nat) (release : bool) : M nat :=
  changes <- gets m_changes ;;
  match nth_error changes removal with
  | None => changesEnd
  | Some _ =>
      modify (fun h => set_m_isHistoryFull false
                         (set_m_changes (erase_at removal (m_changes h)) h)) ;;
      ret removal
  end.

(** Modelled from the spec: [remove_change] of the base store is outside the
    sources at hand.  It is the store's [remove(change) -> bool]; a change
    that is not held is a benign absence, logged at info level. *)
Definition remove_change (ch : CacheChange_t) : M bool :=
  it <- find_change_nts ch ;;
  e <- changesEnd ;;
  if Nat.eqb it e
  then logInfo RTPS_WRITER_HISTORY "Trying to remove a change not in history" ;;
       ret false
  else ReaderHistory_remove_change_nts it true ;;
       ret true.

(** ** Member functions of [DataReaderHistory] *)

Definition not_created_text : string :=
  "You need to create a Reader with this History before using it".

(** [find_key]: [Some k] stands for [true] with [*vit_out] at the entry of
    key [k], [None] for [false]. *)
Definition find_key (a_change : CacheChange_t) : M (option InstanceHandle_t) :=
  keyed <- gets keyed_changes_ ;;
  limit <- gets (fun h => max_instances (resource_limited_qos_ h)) ;;
  match map_find (instanceHandle a_change) keyed with
  | Some _ => ret (Some (instanceHandle a_change))
  | None =>
      if vsize keyed <? Int.to_size_t limit
      then
        modify (set_keyed_changes_
                  (map_insert (instanceHandle a_change) KeyedChanges_default keyed)) ;;
        ret (Some (instanceHandle a_change))
      else
        match first_empty keyed with
        | Some vit =>
            modify (set_keyed_changes_
                      (map_insert (instanceHandle a_change) KeyedChanges_default
                         (erase_at vit keyed))) ;;
            ret (Some (instanceHandle a_change))
        | None =>
            logWarning SUBSCRIBER "History has reached the maximum number of instances" ;;
            ret None
        end
  end.

(** [find_key_for_change]: the change is returned as the call leaves it,
    since the key extraction writes its [instanceHandle]. *)
Definition find_key_for_change (a_change : CacheChange_t)
  : M (option InstanceHandle_t * CacheChange_t) :=
  type <- gets type_ ;;
  match isDefined (instanceHandle a_change), type with
  | false, Some t =>
      logInfo SUBSCRIBER "Getting Key of change with no Key transmitted" ;;
      let '(ok, k) := getKey t (serializedPayload a_change) (instanceHandle a_change) in
      let a_change := set_instanceHandle k a_change in
      if negb ok
      then ret (None, a_change)
      else vit <- find_key a_change ;; ret (vit, a_change)
  | false, None =>
      topic_name <- gets topic_name_ ;;
      logWarning SUBSCRIBER
        [Text "NO KEY in topic: "; Text topic_name; Text " and no method to obtain it"] ;;
      ret (None, a_change)
  | true, _ =>
      vit <- find_key a_change ;; ret (vit, a_change)
  end.

(** The override [DataReaderHistory::remove_change_nts].  An iterator into
    [m_changes] is its position; [changesEnd()] is the size. *)
Definition remove_change_nts (removal : nat) (release : bool) : M nat :=
  changes <- gets m_changes ;;
  keys <- gets has_keys_ ;;
  match nth_error changes removal with
  | Some p_sample =>
      if isDefined (instanceHandle p_sample) && keys
      then
        keyed <- gets keyed_changes_ ;;
        match map_find (instanceHandle p_sample) keyed with
        | None => raise AssertionFailed
        | Some _ =>
            modify (fun h =>
                      set_keyed_changes_
                        (map_adjust
                           (fun e => set_cache_changes
                                       (filter (fun q => negb (ptr_eqb q p_sample))
                                          (cache_changes e)) e)
                           (instanceHandle p_sample) (keyed_changes_ h)) h)
        end
      else ret tt
  | None => ret tt
  end ;;
  ReaderHistory_remove_change_nts removal release.

(** The scan over [vit->second.cache_changes] shared by both overloads of
    [remove_change_sub]: the position of the first change with the sequence
    number and writer of [change]. *)
Definition scan_instance (change : CacheChange_t) (e : KeyedChanges) : option nat :=
  find_index (fun chit => same_identity chit change) (cache_changes e).

Definition erase_in_instance (k : InstanceHandle_t) (i : nat) : M unit :=
  modify (fun h =>
            set_keyed_changes_
              (map_adjust (fun e => set_cache_changes (erase_at i (cache_changes e)) e)
                 k (keyed_changes_ h)) h).

(** [remove_change_sub(change)] *)
Definition remove_change_sub (change : CacheChange_t) : M bool :=
  nc <- gets not_created ;;
  if nc
  then logError SUBSCRIBER not_created_text ;; ret false
  else
    keys <- gets has_keys_ ;;
    (if keys
     then
       vit <- find_key change ;;
       found <- match vit with
                | Some k =>
                    e <- deref k ;;
                    match scan_instance change e with
                    | Some i => erase_in_instance k i ;; ret true
                    | None => ret false
                    end
                | None => ret false
                end ;;
       if negb found
       then logError SUBSCRIBER "Change not found on this key, something is wrong"
       else ret tt
     else ret tt) ;;
    removed <- remove_change change ;;
    if removed
    then modify (set_m_isHistoryFull false) ;; ret true
    else ret false.

(** [remove_change_sub(change, it)]: the iterator is returned as the call
    leaves it. *)
Definition remove_change_sub_it (change : CacheChange_t) (it : iterator)
  : M (bool * iterator) :=
  nc <- gets not_created ;;
  if nc
  then logError SUBSCRIBER not_created_text ;; ret (false, it)
  else
    keys <- gets has_keys_ ;;
    it <- (if keys
           then
             vit <- find_key change ;;
             '(found, it) <-
               match vit with
               | Some k =>
                   e <- deref k ;;
                   match scan_instance change e with
                   | Some i =>
                       let chit := {| it_vector := instance_vector k; it_pos := i |} in
                       if iterator_eqb it chit
                       then erase_in_instance k i ;; ret (true, chit)
                       else raise AssertionFailed
                   | None => ret (false, it)
                   end
               | None => ret (false, it)
               end ;;
             (if negb found
              then logError SUBSCRIBER "Change not found on this key, something is wrong"
              else ret tt) ;;
             ret it
           else ret it) ;;
    chit <- find_change_nts change ;;
    e <- changesEnd ;;
    if Nat.eqb chit e
    then logInfo RTPS_WRITER_HISTORY "Trying to remove a change not in history" ;;
         ret (false, it)
    else
      modify (set_m_isHistoryFull false) ;;
      ret_it <- remove_change_nts chit true ;;
      if negb keys
      then ret (true, {| it_vector := changes_vector; it_pos := ret_it |})
      else ret (true, it).

(** The test [m_changes.size() == maximumReservedCaches] after an addition. *)
Definition mark_full_if_at_capacity : M unit :=
  changes <- gets m_changes ;;
  att <- gets m_att ;;
  if vsize changes =? Int.to_size_t (maximumReservedCaches att)
  then modify (set_m_isHistoryFull true)
  else ret tt.

(** The warning of both [add_received_change] functions. *)
Definition full_warning_text (type_name : string) : LogMessage :=
  [Text "Attempting to add Data to Full ReaderHistory: "; Text type_name].

Definition add_received_change (a_change : CacheChange_t) : M bool :=
  full <- gets m_isHistoryFull ;;
  if full
  then type_name <- gets type_name_ ;;
       logWarning SUBSCRIBER (full_warning_text type_name) ;;
       ret false
  else
    added <- add_change a_change ;;
    if added
    then mark_full_if_at_capacity ;;
         type_name <- gets type_name_ ;;
         logInfo SUBSCRIBER
           [Text type_name; Text ": Change ";
            StreamedSequenceNumber (sequenceNumber a_change); Text " added from: ";
            StreamedGUID (writerGUID a_change)] ;;
         ret true
    else ret false.

(** [instance_changes] is the reference [vit->second.cache_changes]; it is
    passed as the key [vit] of the entry, which no call in between erases. *)
Definition add_received_change_with_key (a_change : CacheChange_t)
  (instance_changes : InstanceHandle_t) : M bool :=
  full <- gets m_isHistoryFull ;;
  if full
  then type_name <- gets type_name_ ;;
       logWarning SUBSCRIBER (full_warning_text type_name) ;;
       ret false
  else
    added <- add_change a_change ;;
    if added
    then mark_full_if_at_capacity ;;
         modify (fun h =>
                   set_keyed_changes_
                     (map_adjust
                        (fun e => set_cache_changes (cache_changes e ++ [a_change]) e)
                        instance_changes (keyed_changes_ h)) h) ;;
         reader <- gets mp_reader ;;
         match reader with
         | None => raise NullDereference
         | Some r =>
             logInfo SUBSCRIBER
               [StreamedEntityId (getGuid r); Text ": Change ";
                StreamedSequenceNumber (sequenceNumber a_change); Text " added from: ";
                StreamedGUID (writerGUID a_change); Text " with KEY: ";
                StreamedInstanceHandle (instanceHandle a_change)]
         end ;;
         ret true
    else ret false.

Definition received_change_keep_all_no_key (a_change : CacheChange_t)
  (unknown_missing_changes_up_to : Z) : M (bool * CacheChange_t) :=
  changes <- gets m_changes ;;
  limit <- gets (fun h => max_samples (resource_limited_qos_ h)) ;;
  if Int.size_add (vsize changes) unknown_missing_changes_up_to <? Int.to_size_t limit
  then added <- add_received_change a_change ;; ret (added, a_change)
  else ret (false, a_change).

Definition received_change_keep_last_no_key (a_change : CacheChange_t)
  (unknown_missing_changes_up_to : Z) : M (bool * CacheChange_t) :=
  changes <- gets m_changes ;;
  d <- gets (fun h => depth (history_qos_ h)) ;;
  add <- (if vsize changes <? Int.to_size_t d
          then ret true
          else oldest <- at_ changes 0 ;; remove_change_sub oldest) ;;
  if add
  then added <- add_received_change a_change ;; ret (added, a_change)
  else ret (false, a_change).

Definition received_change_keep_all_with_key (a_change : CacheChange_t)
  (unknown_missing_changes_up_to : Z) : M (bool * CacheChange_t) :=
  '(vit, a_change) <- find_key_for_change a_change ;;
  match vit with
  | Some k =>
      e <- deref k ;;
      limit <- gets (fun h => max_samples_per_instance (resource_limited_qos_ h)) ;;
      if vsize (cache_changes e) <? Int.to_size_t limit
      then added <- add_received_change_with_key a_change k ;; ret (added, a_change)
      else
        logWarning SUBSCRIBER
          "Change not added due to maximum number of samples per instance" ;;
        ret (false, a_change)
  | None => ret (false, a_change)
  end.

Definition received_change_keep_last_with_key (a_change : CacheChange_t)
  (unknown_missing_changes_up_to : Z) : M (bool * CacheChange_t) :=
  '(vit, a_change) <- find_key_for_change a_change ;;
  match vit with
  | Some k =>
      e <- deref k ;;
      d <- gets (fun h => depth (history_qos_ h)) ;;
      add <- (if vsize (cache_changes e) <? Int.to_size_t d
              then ret true
              else oldest <- at_ (cache_changes e) 0 ;; remove_change_sub oldest) ;;
      if add
      then added <- add_received_change_with_key a_change k ;; ret (added, a_change)
      else ret (false, a_change)
  | None => ret (false, a_change)
  end.

(** The call through [receive_fn_]. *)
Definition call_receive_fn (f : receive_fn) :=
  match f with
  | keep_all_no_key => received_change_keep_all_no_key
  | keep_last_no_key => received_change_keep_last_no_key
  | keep_all_with_key => received_change_keep_all_with_key
  | keep_last_with_key => received_change_keep_last_with_key
  end.

(** [received_change]: the boolean, and the change as the call leaves it. *)
Definition received_change (a_change : CacheChange_t)
  (unknown_missing_changes_up_to : Z) : M (bool * CacheChange_t) :=
  nc <- gets not_created ;;
  if nc
  then logError SUBSCRIBER not_created_text ;; ret (false, a_change)
  else
    f <- gets receive_fn_ ;;
    call_receive_fn f a_change unknown_missing_changes_up_to.

(** [get_first_untaken_info]: locks [*mp_mutex] and calls through
    [mp_reader] without testing either. *)
Definition get_first_untaken_info (info : SampleInfo) : M (bool * SampleInfo) :=
  mutex <- gets mp_mutex ;;
  reader <- gets mp_reader ;;
  match mutex, reader with
  | Some _, Some r =>
      match nextUntakenCache r with
      | Some change => ret (true, get_sample_info change)
      | None => ret (false, info)
      end
  | _, _ => raise NullDereference
  end.

Definition set_next_deadline (handle : InstanceHandle_t) (next_deadline : time_point)
  : M bool :=
  nc <- gets not_created ;;
  if nc
  then logError SUBSCRIBER not_created_text ;; ret false
  else
    keys <- gets has_keys_ ;;
    if negb keys
    then modify (set_next_deadline_us_ next_deadline) ;; ret true
    else
      keyed <- gets keyed_changes_ ;;
      match map_find handle keyed with
      | None => ret false
      | Some _ =>
          modify (set_keyed_changes_
                    (map_adjust (set_entry_deadline next_deadline) handle keyed)) ;;
          ret true
      end.

(** [get_next_deadline]: [handle] and [next_deadline] are the values of the
    two reference parameters on entry; the result carries them on return. *)
Definition get_next_deadline (handle : InstanceHandle_t) (next_deadline : time_point)
  : M (bool * InstanceHandle_t * time_point) :=
  nc <- gets not_created ;;
  if nc
  then logError SUBSCRIBER not_created_text ;; ret (false, handle, next_deadline)
  else
    keys <- gets has_keys_ ;;
    if negb keys
    then global <- gets next_deadline_us_ ;; ret (true, handle, global)
    else
      keyed <- gets keyed_changes_ ;;
      match min_element keyed with
      | None => raise EndDereference
      | Some min => ret (true, fst min, next_deadline_us (snd min))
      end.

(** [lookup_instance]: the pointer to a vector of changes is the vector's
    identity, [None] for [nullptr]. *)
Definition lookup_instance (handle : InstanceHandle_t) (exact : bool)
  : M (bool * (InstanceHandle_t * option vector_id)) :=
  keys <- gets has_keys_ ;;
  if negb keys
  then
    if isDefined handle
    then ret (false, (c_InstanceHandle_Unknown, None))
    else if exact
    then ret (false, (c_InstanceHandle_Unknown, None))
    else ret (true, (fictitious_handle, Some changes_vector))
  else
    keyed <- gets keyed_changes_ ;;
    let it := if exact
              then option_map (fun e => (handle, e)) (map_find handle keyed)
              else upper_bound handle keyed in
    match it with
    | Some (k, _) => ret (true, (k, Some (instance_vector k)))
    | None => ret (false, (c_InstanceHandle_Unknown, None))
    end.

(** * Specification *)

(** ** Invariants and relations between states *)

(** The fields no member function writes. *)
Definition settings (h : History) :=
  (m_att h, history_qos_ h, resource_limited_qos_ h, has_keys_ h, type_ h,
   receive_fn_ h, (topic_name_ h, type_name_ h, get_key_object_ h)).

(** [frame h h']: [h'] differs from [h] at most in the change store, the
    full flag, the instance table and the global deadline. *)
Definition frame (h h' : History) : Prop :=
  settings h' = settings h /\ mp_reader h' = mp_reader h /\ mp_mutex h' = mp_mutex h.

(** The capacity the full flag is tested against:
    [static_cast<size_t>(m_att.maximumReservedCaches)]. *)
Definition max_total_samples (h : History) : Z :=
  Int.to_size_t (maximumReservedCaches (m_att h)).

(** I4 of the data model. *)
Definition I4 (h : History) : Prop :=
  vsize (m_changes h) <= max_total_samples h /\
  (m_isHistoryFull h = true <-> vsize (m_changes h) = max_total_samples h).

(** What holds of the full flag whatever the capacity is: the flag is only
    ever set by an addition that reaches the capacity, and a non-zero
    capacity is never exceeded. *)
Definition full_inv (h : History) : Prop :=
  (m_isHistoryFull h = true ->
   vsize (m_changes h) = max_total_samples h /\ m_changes h <> []) /\
  (max_total_samples h <> 0 ->
   vsize (m_changes h) <= max_total_samples h /\
   (vsize (m_changes h) = max_total_samples h -> m_isHistoryFull h = true)).

(** P5 / I2 as the code tests it. *)
Definition table_bound (h : History) : Prop :=
  vsize (keyed_changes_ h) <= Int.to_size_t (max_instances (resource_limited_qos_ h)).

(** The three ways a call leaves the change store. *)
Definition store_same (h h' : History) : Prop :=
  m_changes h' = m_changes h /\ m_isHistoryFull h' = m_isHistoryFull h.

Definition store_removed (h h' : History) : Prop :=
  exists i, (i < List.length (m_changes h))%nat /\
            m_changes h' = erase_at i (m_changes h) /\
            m_isHistoryFull h' = false.

Definition store_added (c : CacheChange_t) (h h' : History) : Prop :=
  m_isHistoryFull h = false /\
  m_changes h' = m_changes h ++ [c] /\
  m_isHistoryFull h' = (vsize (m_changes h') =? max_total_samples h).

(** [step h h']: [h'] is a later state of the same history object, in which
    the invariants of [h] still hold. *)
Record step (h h' : History) : Prop := {
  step_frame : frame h h';
  step_full : full_inv h -> full_inv h';
  step_bound : table_bound h -> table_bound h'
}.

(** The state an accepted addition leaves. *)
Definition appended (c : CacheChange_t) (h : History) : History :=
  let h1 := set_m_changes (m_changes h ++ [c]) h in
  if vsize (m_changes h1) =? max_total_samples h
  then set_m_isHistoryFull true h1
  else h1.

Definition appended_with_key (c : CacheChange_t) (k : InstanceHandle_t) (h : History)
  : History :=
  let h1 := appended c h in
  set_keyed_changes_
    (map_adjust (fun e => set_cache_changes (cache_changes e ++ [c]) e) k
       (keyed_changes_ h1)) h1.

Definition full_warning (h : History) : LogEntry :=
  {| log_level := Warning; log_category := SUBSCRIBER;
     log_text := full_warning_text (type_name_ h) |}.

(** The log entries of an accepted addition. *)
Definition added_info (h : History) (c : CacheChange_t) : LogEntry :=
  {| log_level := Info; log_category := SUBSCRIBER;
     log_text := [Text (type_name_ h); Text ": Change ";
                  StreamedSequenceNumber (sequenceNumber c); Text " added from: ";
                  StreamedGUID (writerGUID c)] |}.

Definition added_with_key_info (r : RTPSReader) (c : CacheChange_t) : LogEntry :=
  {| log_level := Info; log_category := SUBSCRIBER;
     log_text := [StreamedEntityId (getGuid r); Text ": Change ";
                  StreamedSequenceNumber (sequenceNumber c); Text " added from: ";
                  StreamedGUID (writerGUID c); Text " with KEY: ";
                  StreamedInstanceHandle (instanceHandle c)] |}.

(** ** Public calls *)

(** Every public entry point as one type of calls, for statements about
    all of them. *)
Inductive operation :=
| call_received_change (a_change : CacheChange_t) (unknown_missing_changes_up_to : Z)
| call_remove_change_sub (change : CacheChange_t)
| call_remove_change_sub_it (change : CacheChange_t) (it : iterator)
| call_remove_change_nts (removal : nat) (release : bool)
| call_set_next_deadline (handle : InstanceHandle_t) (next_deadline : time_point)
| call_get_next_deadline (handle : InstanceHandle_t) (next_deadline : time_point)
| call_lookup_instance (handle : InstanceHandle_t) (exact : bool)
| call_get_first_untaken_info (info : SampleInfo).

(** The state a computation leaves, when it returns. *)
Definition final_state {A} (r : result A) : option History :=
  match r with
  | Ret _ h _ => Some h
  | Fault _ => None
  end.

Definition returned {A} (r : result A) : option A :=
  match r with
  | Ret a _ _ => Some a
  | Fault _ => None
  end.

Definition after (op : operation) (h : History) : option History :=
  match op with
  | call_received_change c u => final_state (received_change c u h)
  | call_remove_change_sub c => final_state (remove_change_sub c h)
  | call_remove_change_sub_it c it => final_state (remove_change_sub_it c it h)
  | call_remove_change_nts i r => final_state (remove_change_nts i r h)
  | call_set_next_deadline k t => final_state (set_next_deadline k t h)
  | call_get_next_deadline k t => final_state (get_next_deadline k t h)
  | call_lookup_instance k e => final_state (lookup_instance k e h)
  | call_get_first_untaken_info i => final_state (get_first_untaken_info i h)
  end.

(** ** Notions used by single claims *)

(** [configured type topic qos h]: [h] is a later state of the history the
    constructor builds from [type], [topic] and [qos]. *)
Definition configured (type : TopicDataType) (topic : TopicDescription)
  (qos : DataReaderQos) (h : History) : Prop :=
  settings h = settings (DataReaderHistory type topic qos).

Definition not_created_error : LogEntry :=
  {| log_level := Error; log_category := SUBSCRIBER; log_text := not_created_text |}.

(** The QoS the claim compares with: each of the three limits that is 0
    spelled out as the integer maximum. *)
Definition with_limits_spelled_out (qos : DataReaderQos) : DataReaderQos :=
  {| history := history qos;
     resource_limits :=
       {| max_samples := unlimited_if_zero (max_samples (resource_limits qos));
          max_instances := unlimited_if_zero (max_instances (resource_limits qos));
          max_samples_per_instance :=
            unlimited_if_zero (max_samples_per_instance (resource_limits qos));
          allocated_samples := allocated_samples (resource_limits qos) |};
     history_memory_policy := history_memory_policy qos |}.

(** A sequence of public calls, each on the state the one before left. *)
Fixpoint after_all (ops : list operation) (h : History) : option History :=
  match ops with
  | [] => Some h
  | op :: rest =>
      match after op h with
      | Some h1 => after_all rest h1
      | None => None
      end
  end.



(** ** Scenarios *)

Module Scenario.

Definition writer : GUID_t := 1%N.

(** The [n]-th sample of [writer], of the instance with handle [k]. *)
Definition sample (n : nat) (k : InstanceHandle_t) : CacheChange_t :=
  {| addr := n; kind := ALIVE; writerGUID := writer; instanceHandle := k;
     sequenceNumber := Z.of_nat n; serializedPayload := [];
     sourceTimestamp := Z.of_nat n; receptionTimestamp := Z.of_nat n;
     write_params_sample_identity := (0%N, 0) |}.

(** A sample that arrives without a handle and carries its key as first
    octet group of the payload. *)
Definition sample_with_payload_key (n : nat) (k : InstanceHandle_t) : CacheChange_t :=
  {| addr := n; kind := ALIVE; writerGUID := writer;
     instanceHandle := c_InstanceHandle_Unknown;
     sequenceNumber := Z.of_nat n; serializedPayload := [k];
     sourceTimestamp := Z.of_nat n; receptionTimestamp := Z.of_nat n;
     write_params_sample_identity := (0%N, 0) |}.

Definition plain_type : TopicDataType :=
  {| m_isGetKeyDefined := false; m_typeSize := 8;
     getKey := fun _ k => (false, k) |}.

Definition keyed_type : TopicDataType :=
  {| m_isGetKeyDefined := true; m_typeSize := 8;
     getKey := fun payload k =>
                 match payload with
                 | key :: _ => (true, key)
                 | [] => (false, k)
                 end |}.

Definition topic : TopicDescription :=
  {| get_name := "topic"; get_type_name := "type" |}.

Definition qos (k : HistoryQosPolicyKind) (d samples instances per_instance : Z)
  : DataReaderQos :=
  {| history := {| history_kind := k; depth := d |};
     resource_limits :=
       {| max_samples := samples; max_instances := instances;
          max_samples_per_instance := per_instance; allocated_samples := 100 |};
     history_memory_policy := PREALLOCATED_MEMORY_MODE |}.

Definition reader : RTPSReader := {| getGuid := 7%N; nextUntakenCache := None |}.

(** A history as the reader sets it up. *)
Definition create (type : TopicDataType) (q : DataReaderQos) : History :=
  attach reader (DataReaderHistory type topic q).

(** The samples are handed to [received_change] one after the other. *)
Fixpoint deliver (samples : list CacheChange_t) : M (list bool) :=
  match samples with
  | [] => ret []
  | c :: rest =>
      r <- received_change c 0 ;;
      answers <- deliver rest ;;
      ret (fst r :: answers)
  end.

Definition A : InstanceHandle_t := 10%N.
Definition B : InstanceHandle_t := 20%N.
Definition C : InstanceHandle_t := 30%N.

Definition s1 := sample 1 c_InstanceHandle_Unknown.
Definition s2 := sample 2 c_InstanceHandle_Unknown.
Definition s3 := sample 3 c_InstanceHandle_Unknown.
Definition s4 := sample 4 c_InstanceHandle_Unknown.
Definition s5 := sample 5 c_InstanceHandle_Unknown.

(** Scenario 1: KEEP_LAST with depth 3, unkeyed. *)
Definition keep_last_3 : History :=
  create plain_type (qos KEEP_LAST_HISTORY_QOS 3 5000 10 400).

(** Scenario 2: KEEP_ALL with [max_samples = 2], unkeyed. *)
Definition keep_all_2 : History :=
  create plain_type (qos KEEP_ALL_HISTORY_QOS 1 2 10 400).

End Scenario.

Module KeepAll.
Import Scenario.

(** The history of scenario 2 holding [s1]. *)
Definition one_held : History := set_m_changes [s1] keep_all_2.
End KeepAll.

Module Capacity.
Import Scenario.

(** KEEP_ALL, unkeyed, with [max_samples = 0] in the QoS. *)
Definition no_sample_limit : History :=
  create plain_type (qos KEEP_ALL_HISTORY_QOS 1 0 10 400).

(** A KEEP_LAST history of depth 3 holding three samples. *)
Definition three_held : History :=
  set_m_isHistoryFull true (set_m_changes [s1; s2; s3] keep_last_3).
End Capacity.

Module Reclaim.
Import Scenario.

(** Scenario 4: keyed, [max_instances = 2]; one sample each for [A] and
    [B], then the sample of [A] is taken. *)
Definition two_instances : History :=
  create keyed_type (qos KEEP_ALL_HISTORY_QOS 1 5000 2 400).

Definition a1 := sample 1 A.
Definition b1 := sample 2 B.
Definition c1 := sample 3 C.

Definition A_taken : History :=
  set_keyed_changes_
    [ (A, {| cache_changes := []; next_deadline_us := 0 |});
      (B, {| cache_changes := [b1]; next_deadline_us := 0 |}) ]
    (set_m_changes [b1] two_instances).
End Reclaim.

Module Deadlines.
Import Scenario.

Definition three_instances : History :=
  create keyed_type (qos KEEP_LAST_HISTORY_QOS 2 5000 10 400).

Definition a1 := sample 1 A.
Definition b1 := sample 2 B.
Definition c1 := sample 3 C.

(** Scenario 6: one sample each for [A], [B] and [C]; then the deadlines. *)
Definition deadlines : M (bool * InstanceHandle_t * time_point) :=
  deliver [a1; b1; c1] ;;
  set_next_deadline A 100 ;;
  set_next_deadline B 50 ;;
  set_next_deadline C 75 ;;
  get_next_deadline c_InstanceHandle_Unknown 0.
End Deadlines.

Module KeyedRemoval.
Import Scenario.

Definition two_instances : History :=
  create keyed_type (qos KEEP_LAST_HISTORY_QOS 2 5000 10 400).

Definition a1 := sample 1 A.
Definition b1 := sample 2 B.
Definition a2 := sample 3 A.

(** The history after [a1; b1; a2] were delivered. *)
Definition held : History :=
  set_keyed_changes_
    [ (A, {| cache_changes := [a1; a2]; next_deadline_us := 0 |});
      (B, {| cache_changes := [b1]; next_deadline_us := 0 |}) ]
    (set_m_changes [a1; b1; a2] two_instances).
End KeyedRemoval.

Module KeyedFull.
Import Scenario.

(** Keyed, KEEP_ALL, with room for one sample and two instances. *)
Definition one_sample : History :=
  create keyed_type (qos KEEP_ALL_HISTORY_QOS 1 1 2 400).

Definition a1 := sample 1 A.
Definition b1 := sample 2 B.
Definition c1 := sample_with_payload_key 3 C.

(** The history after [a1] was accepted: the store is full. *)
Definition full : History :=
  set_m_isHistoryFull true
    (set_keyed_changes_ [ (A, {| cache_changes := [a1]; next_deadline_us := 0 |}) ]
       (set_m_changes [a1] one_sample)).

(** The same with an entry of [B] that holds nothing. *)
Definition full_two_instances : History :=
  set_keyed_changes_
    [ (A, {| cache_changes := [a1]; next_deadline_us := 0 |});
      (B, KeyedChanges_default) ] full.
End KeyedFull.

(** ** Rewrites of the instance table *)

(** The three ways the member functions rewrite the changes of an entry. *)
Definition push_back_change (c : CacheChange_t) (e : KeyedChanges) : KeyedChanges :=
  set_cache_changes (cache_changes e ++ [c]) e.

Definition erase_change (i : nat) (e : KeyedChanges) : KeyedChanges :=
  set_cache_changes (erase_at i (cache_changes e)) e.

Definition scrub_change (p : CacheChange_t) (e : KeyedChanges) : KeyedChanges :=
  set_cache_changes (filter (fun q => negb (ptr_eqb q p)) (cache_changes e)) e.

(** One rewrite of the instance table by a call that adds no sample: a new
    empty entry, the reclaim of an empty entry, a change erased or scrubbed
    from an entry, a deadline set. *)
Inductive table_move : t_m_Inst_Caches -> t_m_Inst_Caches -> Prop :=
| move_insert k t : table_move t (map_insert k KeyedChanges_default t)
| move_reclaim i t : first_empty t = Some i -> table_move t (erase_at i t)
| move_erase k i t : table_move t (map_adjust (erase_change i) k t)
| move_scrub k p t : table_move t (map_adjust (scrub_change p) k t)
| move_deadline k d t : table_move t (map_adjust (set_entry_deadline d) k t).

Inductive table_shrinks : t_m_Inst_Caches -> t_m_Inst_Caches -> Prop :=
| shrinks_refl t : table_shrinks t t
| shrinks_step t1 t2 t3 : table_move t1 t2 -> table_shrinks t2 t3 -> table_shrinks t1 t3.

(** A property of every entry of the table. *)
Definition table_all (Q : InstanceHandle_t -> KeyedChanges -> Prop) (t : t_m_Inst_Caches)
  : Prop :=
  Forall (fun entry => Q (fst entry) (snd entry)) t.

(** Every change listed under a handle carries that handle. *)
Definition keys_consistent (t : t_m_Inst_Caches) : Prop :=
  table_all (fun k e => Forall (fun c => instanceHandle c = k) (cache_changes e)) t.

(** No entry lists more than [n] changes. *)
Definition sizes_within (n : Z) (t : t_m_Inst_Caches) : Prop :=
  table_all (fun _ e => vsize (cache_changes e) <= n) t.

(** The order of a [std::map]: handles strictly increase along the table. *)
Fixpoint sorted_keys (t : t_m_Inst_Caches) : Prop :=
  match t with
  | [] => True
  | entry :: r => Forall (fun later => (fst entry < fst later)%N) r /\ sorted_keys r
  end.

(** How a reader walks over the instances: [lookup_instance(previous, false)]
    again and again, from the handle [k] on, at most [fuel] times. *)
Fixpoint walk_instances (fuel : nat) (k : InstanceHandle_t) (h : History)
  : list InstanceHandle_t :=
  match fuel with
  | O => []
  | S n =>
      match returned (lookup_instance k false h) with
      | Some (true, (next, _)) => next :: walk_instances n next h
      | _ => []
      end
  end.

(** ** The order of the changes of an instance *)

(** [subsequence v w]: [v] is [w] with some elements left out, the others
    in the order they have in [w]. *)
Inductive subsequence {A : Type} : list A -> list A -> Prop :=
| subsequence_nil : subsequence [] []
| subsequence_skip x v w : subsequence v w -> subsequence v (x :: w)
| subsequence_keep x v w : subsequence v w -> subsequence (x :: v) (x :: w).

(** The changes the table lists under handle [k], in their order; none when
    it has no entry for [k]. *)
Definition instance_changes (k : InstanceHandle_t) (t : t_m_Inst_Caches)
  : list CacheChange_t :=
  match map_find k t with
  | Some e => cache_changes e
  | None => []
  end.

(** ** Further scenarios *)

Module KeyedKeepAll.
Import Scenario.

(** Keyed, KEEP_ALL, with at most two samples for each instance. *)
Definition two_per_instance : History :=
  create keyed_type (qos KEEP_ALL_HISTORY_QOS 1 10 10 2).

Definition a1 := sample 1 A.
Definition a2 := sample 2 A.
Definition a3 := sample 3 A.

(** The history after [a1; a2; a3] were delivered: [a3] was refused. *)
Definition held : History :=
  set_keyed_changes_
    [ (A, {| cache_changes := [a1; a2]; next_deadline_us := 0 |}) ]
    (set_m_changes [a1; a2] two_per_instance).
End KeyedKeepAll.

Module Replica.
Import Scenario.

(** Another change object with the sequence number and writer of
    [KeyedRemoval.a1]: the same sample at a different address. *)
Definition a1_again : CacheChange_t :=
  {| addr := 9; kind := ALIVE; writerGUID := writer; instanceHandle := A;
     sequenceNumber := 1; serializedPayload := [];
     sourceTimestamp := 1; receptionTimestamp := 1;
     write_params_sample_identity := (0%N, 0) |}.
End Replica.

Module KeyedEviction.
Import Scenario.

(** A third sample of [A] for the history [KeyedRemoval.held], whose depth
    is 2: the oldest sample of [A] makes room for it. *)
Definition a3 := sample 4 A.

Definition after_a3 : History :=
  set_keyed_changes_
    [ (A, {| cache_changes := [KeyedRemoval.a2; a3]; next_deadline_us := 0 |});
      (B, {| cache_changes := [KeyedRemoval.b1]; next_deadline_us := 0 |}) ]
    (set_m_changes [KeyedRemoval.b1; KeyedRemoval.a2; a3] KeyedRemoval.held).
End KeyedEviction.

(** The log a computation leaves, when it returns. *)
Definition logged {A} (r : result A) : list LogEntry :=
  match r with
  | Ret _ _ o => o
  | Fault _ => []
  end.

(** * The reader locator of a writer *)

(** [ReaderLocator.cpp]: what a writer keeps about one matched reader.  The
    classes it is built from ([LocatorSelectorEntry], the locator vectors,
    [DataSharingNotifier], the domain registry and the participant's
    [sendSync]) are declared outside the sources at hand; the model takes
    them as parameters and says nothing about what they do. *)
Module Locator.

Record GUID_t := { guidPrefix : N; entityId : N }.

Definition c_GuidPrefix_Unknown : N := 0%N.
Definition c_Guid_Unknown : GUID_t :=
  {| guidPrefix := c_GuidPrefix_Unknown; entityId := 0%N |}.

(** [a == b] on GUIDs *)
Definition guid_eqb (a b : GUID_t) : bool :=
  N.eqb (guidPrefix a) (guidPrefix b) && N.eqb (entityId a) (entityId b).

(** The members of [LocatorSelectorEntry] that this file reads and writes,
    over the type [L] of locator vectors; [selection] stands for the rest of
    the object, which only [reset()] and [enable()] touch. *)
Record LocatorSelectorEntry (L S : Type) := {
  remote_guid : GUID_t;
  unicast : L;
  multicast : L;
  selection : S
}.
Arguments remote_guid {L S} _.
Arguments unicast {L S} _.
Arguments multicast {L S} _.
Arguments selection {L S} _.

(** What this file asks of the writer that owns the locator. *)
Record RTPSWriter := {
  getGuid : GUID_t;
  is_datasharing_compatible : bool
}.

(** The collaborators. *)
Class Collaborators := {
  (** [ResourceLimitedVector<Locator_t>] with [operator==], assignment
      (the value the left-hand side has afterwards), [clear()] and [size()] *)
  Locators : Type;
  locators_eqb : Locators -> Locators -> bool;
  locators_assign : Locators -> Locators -> Locators;
  locators_clear : Locators -> Locators;
  locators_size : Locators -> Z;
  (** [LocatorSelectorEntry::reset()] and [enable(bool)] *)
  Selection : Type;
  entry_reset : LocatorSelectorEntry Locators Selection ->
                LocatorSelectorEntry Locators Selection;
  entry_enable : bool -> LocatorSelectorEntry Locators Selection ->
                 LocatorSelectorEntry Locators Selection;
  (** [DataSharingNotifier]: [enable(guid)], [disable()], [is_enabled()],
      [notify()] *)
  Notifier : Type;
  notifier_enable : GUID_t -> Notifier -> Notifier;
  notifier_disable : Notifier -> Notifier;
  notifier_is_enabled : Notifier -> bool;
  notifier_notify : Notifier -> Notifier;
  (** [RTPSReader*], and the two queries of [RTPSDomainImpl] *)
  Reader : Type;
  should_intraprocess_between : GUID_t -> GUID_t -> bool;
  find_local_reader : GUID_t -> option Reader;
  (** [CDRMessage_t*], and the answer of the participant's [sendSync] *)
  Message : Type;
  sendSync : Message -> GUID_t -> Locators -> Z -> bool
}.

Section Members.
Context {C : Collaborators}.

(** What a call does to the world outside the locator, in order. *)
Inductive Event :=
| Sent (message : Message) (sender : GUID_t) (destinations : Locators)
       (max_blocking_time_point : Z)
| ListenerNotified (reader : Reader)
| NotifierNotified.

(** The members of a [ReaderLocator].  [participant_owner_] is reached
    through [sendSync]; the two vectors of GUIDs are lists, of which only
    position 0 is ever written. *)
Record ReaderLocator := {
  owner_ : RTPSWriter;
  locator_info_ : LocatorSelectorEntry Locators Selection;
  expects_inline_qos_ : bool;
  is_local_reader_ : bool;
  local_reader_ : option Reader;
  guid_prefix_as_vector_ : list N;
  guid_as_vector_ : list GUID_t;
  datasharing_notifier_ : option Notifier
}.

Definition set_locator_info_ (i : LocatorSelectorEntry Locators Selection)
  (l : ReaderLocator) : ReaderLocator :=
  {| owner_ := owner_ l; locator_info_ := i;
     expects_inline_qos_ := expects_inline_qos_ l;
     is_local_reader_ := is_local_reader_ l; local_reader_ := local_reader_ l;
     guid_prefix_as_vector_ := guid_prefix_as_vector_ l;
     guid_as_vector_ := guid_as_vector_ l;
     datasharing_notifier_ := datasharing_notifier_ l |}.

Definition set_expects_inline_qos_ (b : bool) (l : ReaderLocator) : ReaderLocator :=
  {| owner_ := owner_ l; locator_info_ := locator_info_ l;
     expects_inline_qos_ := b;
     is_local_reader_ := is_local_reader_ l; local_reader_ := local_reader_ l;
     guid_prefix_as_vector_ := guid_prefix_as_vector_ l;
     guid_as_vector_ := guid_as_vector_ l;
     datasharing_notifier_ := datasharing_notifier_ l |}.

Definition set_is_local_reader_ (b : bool) (l : ReaderLocator) : ReaderLocator :=
  {| owner_ := owner_ l; locator_info_ := locator_info_ l;
     expects_inline_qos_ := expects_inline_qos_ l;
     is_local_reader_ := b; local_reader_ := local_reader_ l;
     guid_prefix_as_vector_ := guid_prefix_as_vector_ l;
     guid_as_vector_ := guid_as_vector_ l;
     datasharing_notifier_ := datasharing_notifier_ l |}.

Definition set_local_reader_ (r : option Reader) (l : ReaderLocator) : ReaderLocator :=
  {| owner_ := owner_ l; locator_info_ := locator_info_ l;
     expects_inline_qos_ := expects_inline_qos_ l;
     is_local_reader_ := is_local_reader_ l; local_reader_ := r;
     guid_prefix_as_vector_ := guid_prefix_as_vector_ l;
     guid_as_vector_ := guid_as_vector_ l;
     datasharing_notifier_ := datasharing_notifier_ l |}.

Definition set_guid_prefix_as_vector_ (v : list N) (l : ReaderLocator) : ReaderLocator :=
  {| owner_ := owner_ l; locator_info_ := locator_info_ l;
     expects_inline_qos_ := expects_inline_qos_ l;
     is_local_reader_ := is_local_reader_ l; local_reader_ := local_reader_ l;
     guid_prefix_as_vector_ := v;
     guid_as_vector_ := guid_as_vector_ l;
     datasharing_notifier_ := datasharing_notifier_ l |}.

Definition set_guid_as_vector_ (v : list GUID_t) (l : ReaderLocator) : ReaderLocator :=
  {| owner_ := owner_ l; locator_info_ := locator_info_ l;
     expects_inline_qos_ := expects_inline_qos_ l;
     is_local_reader_ := is_local_reader_ l; local_reader_ := local_reader_ l;
     guid_prefix_as_vector_ := guid_prefix_as_vector_ l;
     guid_as_vector_ := v;
     datasharing_notifier_ := datasharing_notifier_ l |}.

Definition set_datasharing_notifier_ (n : option Notifier) (l : ReaderLocator)
  : ReaderLocator :=
  {| owner_ := owner_ l; locator_info_ := locator_info_ l;
     expects_inline_qos_ := expects_inline_qos_ l;
     is_local_reader_ := is_local_reader_ l; local_reader_ := local_reader_ l;
     guid_prefix_as_vector_ := guid_prefix_as_vector_ l;
     guid_as_vector_ := guid_as_vector_ l;
     datasharing_notifier_ := n |}.

Definition set_remote_guid (g : GUID_t) (i : LocatorSelectorEntry Locators Selection)
  : LocatorSelectorEntry Locators Selection :=
  {| remote_guid := g; unicast := unicast i; multicast := multicast i;
     selection := selection i |}.

Definition set_unicast (u : Locators) (i : LocatorSelectorEntry Locators Selection)
  : LocatorSelectorEntry Locators Selection :=
  {| remote_guid := remote_guid i; unicast := u; multicast := multicast i;
     selection := selection i |}.

Definition set_multicast (m : Locators) (i : LocatorSelectorEntry Locators Selection)
  : LocatorSelectorEntry Locators Selection :=
  {| remote_guid := remote_guid i; unicast := unicast i; multicast := m;
     selection := selection i |}.

(** ** The monad of the member functions *)

Inductive outcome (A : Type) :=
| Done (a : A) (l : ReaderLocator) (events : list Event)
| Crash (f : fault).
Arguments Done {A} a l events.
Arguments Crash {A} f.

Definition Run (A : Type) : Type := ReaderLocator -> outcome A.

Definition ret {A} (a : A) : Run A := fun l => Done a l [].

Definition bind {A B} (m : Run A) (k : A -> Run B) : Run B :=
  fun l =>
    match m l with
    | Crash f => Crash f
    | Done a l1 e1 =>
        match k a l1 with
        | Crash f => Crash f
        | Done b l2 e2 => Done b l2 (e1 ++ e2)
        end
    end.

Definition gets {A} (f : ReaderLocator -> A) : Run A := fun l => Done (f l) l [].
Definition modify (f : ReaderLocator -> ReaderLocator) : Run unit :=
  fun l => Done tt (f l) [].
Definition raise {A} (f : fault) : Run A := fun _ => Crash f.
Definition emit (e : Event) : Run unit := fun l => Done tt l [e].

Declare Scope loc_scope.
Delimit Scope loc_scope with loc.
Notation "x <- m ;; k" := (bind m (fun x => k))
  (at level 61, m at next level, right associativity) : loc_scope.
Notation "m ;; k" := (bind m (fun _ => k))
  (at level 61, right associativity) : loc_scope.
Local Open Scope loc_scope.

(** [locator_info_.f(...)] for a member function or an assignment [f] *)
Definition on_locator_info_
  (f : LocatorSelectorEntry Locators Selection -> LocatorSelectorEntry Locators Selection)
  : Run unit :=
  modify (fun l => set_locator_info_ (f (locator_info_ l)) l).

(** [v.at(0) = x] *)
Definition assign_at_0 {A} (x : A) (v : list A) : Run (list A) :=
  match v with
  | [] => raise OutOfRange
  | _ :: rest => ret (x :: rest)
  end.

(** [datasharing_notifier_->f()] *)
Definition on_datasharing_notifier_ (f : Notifier -> Notifier) : Run unit :=
  notifier <- gets datasharing_notifier_ ;;
  match notifier with
  | None => raise NullDereference
  | Some n => modify (set_datasharing_notifier_ (Some (f n)))
  end.

(** ** Member functions of [ReaderLocator] *)

(** [is_datasharing_reader() const] *)
Definition is_datasharing_reader (l : ReaderLocator) : bool :=
  match datasharing_notifier_ l with
  | Some n => notifier_is_enabled n
  | None => false
  end.

Definition start (remote : GUID_t) (unicast_locators multicast_locators : Locators)
  (expects_inline_qos is_datasharing : bool) : Run bool :=
  info <- gets locator_info_ ;;
  if guid_eqb (remote_guid info) c_Guid_Unknown
  then
    modify (set_expects_inline_qos_ expects_inline_qos) ;;
    guids <- gets guid_as_vector_ ;;
    guids <- assign_at_0 remote guids ;;
    modify (set_guid_as_vector_ guids) ;;
    prefixes <- gets guid_prefix_as_vector_ ;;
    prefixes <- assign_at_0 (guidPrefix remote) prefixes ;;
    modify (set_guid_prefix_as_vector_ prefixes) ;;
    on_locator_info_ (set_remote_guid remote) ;;
    owner <- gets owner_ ;;
    modify (set_is_local_reader_ (should_intraprocess_between (getGuid owner) remote)) ;;
    modify (set_local_reader_ None) ;;
    local <- gets is_local_reader_ ;;
    (if negb local && negb is_datasharing
     then
       on_locator_info_ (fun i => set_unicast (locators_assign (unicast i) unicast_locators) i) ;;
       on_locator_info_
         (fun i => set_multicast (locators_assign (multicast i) multicast_locators) i)
     else ret tt) ;;
    on_locator_info_ entry_reset ;;
    on_locator_info_ (entry_enable true) ;;
    (if is_datasharing
     then on_datasharing_notifier_ (notifier_enable remote)
     else ret tt) ;;
    ret true
  else ret false.

Definition update (unicast_locators multicast_locators : Locators)
  (expects_inline_qos : bool) : Run bool :=
  current <- gets expects_inline_qos_ ;;
  ret_val <- (if negb (Bool.eqb current expects_inline_qos)
              then modify (set_expects_inline_qos_ expects_inline_qos) ;; ret true
              else ret false) ;;
  info <- gets locator_info_ ;;
  if negb (locators_eqb (unicast info) unicast_locators)
     || negb (locators_eqb (multicast info) multicast_locators)
  then
    local <- gets is_local_reader_ ;;
    datasharing <- gets is_datasharing_reader ;;
    (if negb local && negb datasharing
     then
       on_locator_info_ (fun i => set_unicast (locators_assign (unicast i) unicast_locators) i) ;;
       on_locator_info_
         (fun i => set_multicast (locators_assign (multicast i) multicast_locators) i)
     else ret tt) ;;
    on_locator_info_ entry_reset ;;
    on_locator_info_ (entry_enable true) ;;
    ret true
  else ret ret_val.

(** [stop()] *)
Definition stop : Run unit :=
  notifier <- gets datasharing_notifier_ ;;
  (match notifier with
   | Some _ => on_datasharing_notifier_ notifier_disable
   | None => ret tt
   end) ;;
  on_locator_info_ (entry_enable false) ;;
  on_locator_info_ entry_reset ;;
  on_locator_info_ (fun i => set_multicast (locators_clear (multicast i)) i) ;;
  on_locator_info_ (fun i => set_unicast (locators_clear (unicast i)) i) ;;
  on_locator_info_ (set_remote_guid c_Guid_Unknown) ;;
  guids <- gets guid_as_vector_ ;;
  guids <- assign_at_0 c_Guid_Unknown guids ;;
  modify (set_guid_as_vector_ guids) ;;
  prefixes <- gets guid_prefix_as_vector_ ;;
  prefixes <- assign_at_0 c_GuidPrefix_Unknown prefixes ;;
  modify (set_guid_prefix_as_vector_ prefixes) ;;
  modify (set_expects_inline_qos_ false) ;;
  modify (set_is_local_reader_ false) ;;
  modify (set_local_reader_ None).

(** [stop(remote_guid)] *)
Definition stop_guid (remote : GUID_t) : Run bool :=
  info <- gets locator_info_ ;;
  if guid_eqb (remote_guid info) remote
  then stop ;; ret true
  else ret false.

(** [send(message, max_blocking_time_point) const] *)
Definition send (message : Message) (max_blocking_time_point : Z) : Run bool :=
  info <- gets locator_info_ ;;
  local <- gets is_local_reader_ ;;
  owner <- gets owner_ ;;
  if negb (guid_eqb (remote_guid info) c_Guid_Unknown) && negb local
  then
    if 0 <? locators_size (unicast info)
    then
      emit (Sent message (getGuid owner) (unicast info) max_blocking_time_point) ;;
      ret (sendSync message (getGuid owner) (unicast info) max_blocking_time_point)
    else
      emit (Sent message (getGuid owner) (multicast info) max_blocking_time_point) ;;
      ret (sendSync message (getGuid owner) (multicast info) max_blocking_time_point)
  else ret true.

(** [local_reader()] *)
Definition local_reader : Run (option Reader) :=
  cached <- gets local_reader_ ;;
  (match cached with
   | None =>
       info <- gets locator_info_ ;;
       modify (set_local_reader_ (find_local_reader (remote_guid info)))
   | Some _ => ret tt
   end) ;;
  gets local_reader_.

(** [datasharing_notify()]; the accessors [is_local_reader()] and
    [datasharing_notifier()] read the members of the same names. *)
Definition datasharing_notify : Run unit :=
  local <- gets is_local_reader_ ;;
  reader <- (if local then local_reader else ret None) ;;
  match reader with
  | Some r => emit (ListenerNotified r)
  | None => on_datasharing_notifier_ notifier_notify ;; emit NotifierNotified
  end.

(** ** Auxiliary definitions for the statements *)

(** The entry that [start] and [update] leave: with the locators given to
    them when they take them ([take = true]), with the ones it had
    otherwise; then [reset()] and [enable(true)]. *)
Definition refreshed (take : bool) (unicast_locators multicast_locators : Locators)
  (i : LocatorSelectorEntry Locators Selection) : LocatorSelectorEntry Locators Selection :=
  entry_enable true
    (entry_reset
       (if take
        then set_multicast (locators_assign (multicast i) multicast_locators)
               (set_unicast (locators_assign (unicast i) unicast_locators) i)
        else i)).

End Members.

Arguments Done {C A} a l events.
Arguments Crash {C A} f.
Arguments Sent {C} message sender destinations max_blocking_time_point.
Arguments ListenerNotified {C} reader.
Arguments NotifierNotified {C}.

End Locator.

(** An environment to run the member functions of the reader locator in:
    locators are numbers, a vector is a list, assignment copies, the selector
    entry keeps an enabled flag, the notifier remembers the reader it is
    enabled for, no reader is local, and sending succeeds when there is a
    destination.  It serves to evaluate the model on examples. *)
Module LocatorScenario.
Import Locator.

Definition list_eqb (a b : list N) : bool :=
  if list_eq_dec N.eq_dec a b then true else false.

#[local] Instance environment : Collaborators :=
  {| Locators := list N;
     locators_eqb := list_eqb;
     locators_assign := fun _ rhs => rhs;
     locators_clear := fun _ => [];
     locators_size := fun v => Z.of_nat (List.length v);
     Selection := bool;
     entry_reset := fun i => i;
     entry_enable := fun b i =>
       {| remote_guid := remote_guid i; unicast := unicast i;
          multicast := multicast i; selection := b |};
     Notifier := option GUID_t;
     notifier_enable := fun g _ => Some g;
     notifier_disable := fun _ => None;
     notifier_is_enabled := fun n => match n with Some _ => true | None => false end;
     notifier_notify := fun n => n;
     Reader := N;
     should_intraprocess_between := fun a b => N.eqb (guidPrefix a) (guidPrefix b);
     find_local_reader := fun _ => None;
     Message := N;
     sendSync := fun _ _ destinations _ =>
       match destinations with [] => false | _ :: _ => true end |}.

Definition writer : RTPSWriter :=
  {| getGuid := {| guidPrefix := 1; entityId := 3 |}; is_datasharing_compatible := false |}.

Definition remote_reader : GUID_t := {| guidPrefix := 2; entityId := 4 |}.

(** A locator that is not in use. *)
Definition idle : ReaderLocator :=
  {| owner_ := writer;
     locator_info_ := {| remote_guid := c_Guid_Unknown; unicast := []; multicast := [];
                         selection := false |};
     expects_inline_qos_ := false;
     is_local_reader_ := false;
     local_reader_ := None;
     guid_prefix_as_vector_ := [c_GuidPrefix_Unknown];
     guid_as_vector_ := [c_Guid_Unknown];
     datasharing_notifier_ := None |}.

(** The locator after [start(remote_reader, [7], [9], true, false)]. *)
Definition started : ReaderLocator :=
  {| owner_ := writer;
     locator_info_ := {| remote_guid := remote_reader; unicast := [7%N]; multicast := [9%N];
                         selection := true |};
     expects_inline_qos_ := true;
     is_local_reader_ := false;
     local_reader_ := None;
     guid_prefix_as_vector_ := [2%N];
     guid_as_vector_ := [remote_reader];
     datasharing_notifier_ := None |}.
End LocatorScenario.

(** * Verification *)

(** ** Reasoning about runs *)

Lemma bind_Ret {A B} (m : M A) (k : A -> M B) h b h2 o :
  bind m k h = Ret b h2 o ->
  exists a h1 o1 o2, m h = Ret a h1 o1 /\ k a h1 = Ret b h2 o2 /\ o = o1 ++ o2.
Proof.
  unfold bind. destruct (m h) as [a h1 o1 | f]; [ | discriminate ].
  destruct (k a h1) as [b' h2' o2 | f] eqn:E; [ | discriminate ].
  intros H. inversion H; subst. exists a, h1, o1, o2. auto.
Qed.

Lemma ret_Ret {A} (a b : A) h h' o : ret a h = Ret b h' o -> b = a /\ h' = h /\ o = [].
Proof. unfold ret. intros H. inversion H. auto. Qed.

Lemma gets_Ret {A} (f : History -> A) b h h' o :
  gets f h = Ret b h' o -> b = f h /\ h' = h /\ o = [].
Proof. unfold gets. intros H. inversion H. auto. Qed.

Lemma modify_Ret (f : History -> History) b h h' o :
  modify f h = Ret b h' o -> h' = f h /\ o = [].
Proof. unfold modify. intros H. inversion H. auto. Qed.

Lemma log_Ret l c s b h h' o :
  log l c s h = Ret b h' o ->
  h' = h /\ o = [ {| log_level := l; log_category := c; log_text := s |} ].
Proof. unfold log. intros H. inversion H. auto. Qed.

Lemma raise_Ret {A} f (b : A) h h' o : raise f h = Ret b h' o -> False.
Proof. unfold raise. discriminate. Qed.

(** Decompose every hypothesis that says a computation returned. *)
Ltac inv_run :=
  repeat match goal with
    | H : bind _ _ _ = Ret _ _ _ |- _ =>
        apply bind_Ret in H;
        let a := fresh "a" in let h1 := fresh "h" in
        let o1 := fresh "o" in let o2 := fresh "o" in
        destruct H as (a & h1 & o1 & o2 & ? & ? & ?)
    | H : ret _ _ = Ret _ _ _ |- _ =>
        apply ret_Ret in H; destruct H as (? & ? & ?)
    | H : gets _ _ = Ret _ _ _ |- _ =>
        apply gets_Ret in H; destruct H as (? & ? & ?)
    | H : modify _ _ = Ret _ _ _ |- _ =>
        apply modify_Ret in H; destruct H as (? & ?)
    | H : log _ _ _ _ = Ret _ _ _ |- _ =>
        apply log_Ret in H; destruct H as (? & ?)
    | H : logError _ _ _ = Ret _ _ _ |- _ => unfold logError in H
    | H : logWarning _ _ _ = Ret _ _ _ |- _ => unfold logWarning in H
    | H : logInfo _ _ _ = Ret _ _ _ |- _ => unfold logInfo in H
    | H : raise _ _ = Ret _ _ _ |- _ => apply raise_Ret in H; contradiction
    | H : (if ?b then _ else _) _ = Ret _ _ _ |- _ => destruct b eqn:?
    | H : (match ?x with Some _ => _ | None => _ end) _ = Ret _ _ _ |- _ =>
        destruct x eqn:?
    | H : (let '(_, _) := ?x in _) _ = Ret _ _ _ |- _ => destruct x eqn:?
    | H : (_, _) = (_, _) |- _ => inversion H; clear H
    | _ => progress subst
    end.

Lemma frame_refl h : frame h h.
Proof. unfold frame; auto. Qed.

Lemma frame_trans h1 h2 h3 : frame h1 h2 -> frame h2 h3 -> frame h1 h3.
Proof. unfold frame. intuition congruence. Qed.

Lemma frame_fields h h' :
  frame h h' ->
  m_att h' = m_att h /\ history_qos_ h' = history_qos_ h /\
  resource_limited_qos_ h' = resource_limited_qos_ h /\
  has_keys_ h' = has_keys_ h /\ type_ h' = type_ h /\
  receive_fn_ h' = receive_fn_ h /\ not_created h' = not_created h.
Proof.
  unfold frame, settings, not_created. intros (E & Er & Em).
  inversion E. rewrite Er, Em. repeat split; congruence.
Qed.

Lemma frame_set_m_changes v h : frame h (set_m_changes v h).
Proof. unfold frame; auto. Qed.
Lemma frame_set_m_isHistoryFull b h : frame h (set_m_isHistoryFull b h).
Proof. unfold frame; auto. Qed.
Lemma frame_set_keyed_changes_ t h : frame h (set_keyed_changes_ t h).
Proof. unfold frame; auto. Qed.
Lemma frame_set_next_deadline_us_ t h : frame h (set_next_deadline_us_ t h).
Proof. unfold frame; auto. Qed.

Create HintDb hist.

#[local] Hint Resolve frame_refl frame_set_m_changes frame_set_m_isHistoryFull
  frame_set_keyed_changes_ frame_set_next_deadline_us_ : hist.

(** ** Container facts *)

Lemma vsize_nonneg {A} (v : list A) : 0 <= vsize v.
Proof. unfold vsize. lia. Qed.

Lemma vsize_app1 {A} (v : list A) x : vsize (v ++ [x]) = vsize v + 1.
Proof. unfold vsize. rewrite length_app. simpl. lia. Qed.

Lemma find_index_Some {A} (p : A -> bool) v i :
  find_index p v = Some i ->
  exists x, nth_error v i = Some x /\ p x = true.
Proof.
  revert i. induction v as [ | y r IH]; simpl; intros i E; [ discriminate | ].
  destruct (p y) eqn:Ep.
  - inversion E; subst. exists y. auto.
  - destruct (find_index p r) as [j | ]; simpl in E; [ | discriminate ].
    inversion E; subst. simpl. apply IH. reflexivity.
Qed.

Lemma find_index_None {A} (p : A -> bool) v :
  find_index p v = None -> forall x, In x v -> p x = false.
Proof.
  induction v as [ | y r IH]; simpl; intros E x Hx; [ contradiction | ].
  destruct (p y) eqn:Ep; [ discriminate | ].
  destruct (find_index p r); [ discriminate | ].
  destruct Hx as [-> | Hx]; auto.
Qed.

Lemma find_index_lt {A} (p : A -> bool) v i :
  find_index p v = Some i -> (i < List.length v)%nat.
Proof.
  intros E. destruct (find_index_Some _ _ _ E) as (x & Hx & _).
  apply nth_error_Some. congruence.
Qed.

Lemma length_erase_at {A} i (v : list A) :
  (i < List.length v)%nat -> S (List.length (erase_at i v)) = List.length v.
Proof.
  revert i. induction v as [ | x r IH]; simpl; intros i Hi; [ lia | ].
  destruct i; simpl; [ reflexivity | ]. rewrite IH; lia.
Qed.

Lemma nth_error_erase_at {A} i (v : list A) :
  nth_error (erase_at i v) i = nth_error v (S i).
Proof.
  revert i. induction v as [ | x r IH]; intros i.
  - destruct i; reflexivity.
  - destruct i; simpl; [ reflexivity | apply IH ].
Qed.

Lemma nth_error_erase_at_before {A} i j (v : list A) :
  (j < i)%nat -> nth_error (erase_at i v) j = nth_error v j.
Proof.
  revert i j. induction v as [ | x r IH]; intros i j Hj.
  - destruct i; reflexivity.
  - destruct i; [ lia | ]. destruct j; simpl; [ reflexivity | apply IH; lia ].
Qed.

Lemma length_map_adjust f k t : List.length (map_adjust f k t) = List.length t.
Proof.
  induction t as [ | [k' e] r IH]; simpl; [ reflexivity | ].
  destruct (N.eqb k k'); simpl; congruence.
Qed.

Lemma length_map_insert k e t :
  (List.length (map_insert k e t) <= S (List.length t))%nat.
Proof.
  induction t as [ | [k' e'] r IH]; simpl; [ lia | ].
  destruct (N.ltb k k'); simpl; [ lia | ].
  destruct (N.eqb k k'); simpl; lia.
Qed.

(** ** Invariants *)

Lemma I4_full_inv h : max_total_samples h <> 0 -> (I4 h <-> full_inv h).
Proof.
  intros Hz. unfold I4, full_inv. split.
  - intros (Hle & Hiff). split.
    + intros Hf. apply Hiff in Hf. split; [ exact Hf | ].
      intros E. rewrite E in Hf. unfold vsize in Hf. simpl in Hf. congruence.
    + intros _. split; [ exact Hle | apply Hiff ].
  - intros (H1 & H2). destruct (H2 Hz) as (Hle & Hfull).
    split; [ exact Hle | ]. split; [ intros Hf; apply H1; exact Hf | exact Hfull ].
Qed.

Lemma max_total_samples_frame h h' : frame h h' -> max_total_samples h' = max_total_samples h.
Proof.
  intros F. apply frame_fields in F. unfold max_total_samples.
  destruct F as (-> & _). reflexivity.
Qed.

Lemma full_inv_same h h' : frame h h' -> store_same h h' -> full_inv h -> full_inv h'.
Proof.
  intros F (Ec & Ef). unfold full_inv.
  rewrite (max_total_samples_frame _ _ F), Ec, Ef. auto.
Qed.

Lemma full_inv_removed h h' : frame h h' -> store_removed h h' -> full_inv h -> full_inv h'.
Proof.
  intros F (i & Hi & Ec & Ef) (H1 & H2). unfold full_inv.
  rewrite (max_total_samples_frame _ _ F), Ec, Ef.
  pose proof (length_erase_at i _ Hi) as Hl.
  split; [ discriminate | ].
  intros Hz. destruct (H2 Hz) as (Hle & _). unfold vsize in *. split; lia.
Qed.

Lemma full_inv_added c h h' : frame h h' -> store_added c h h' -> full_inv h -> full_inv h'.
Proof.
  intros F (Ef0 & Ec & Ef) (H1 & H2). unfold full_inv.
  rewrite (max_total_samples_frame _ _ F), Ef, Ec, vsize_app1.
  split.
  - intros E. apply Z.eqb_eq in E. split; [ exact E | ].
    destruct (m_changes h); discriminate.
  - intros Hz. destruct (H2 Hz) as (Hle & Hfull).
    assert (vsize (m_changes h) <> max_total_samples h)
      by (intros E; apply Hfull in E; congruence).
    split; [ lia | ]. intros E. apply Z.eqb_eq. exact E.
Qed.

(** ** Summaries of the member functions *)

Lemma map_find_insert k e t : map_find k (map_insert k e t) <> None.
Proof.
  induction t as [ | [k' e'] r IH]; simpl.
  - rewrite N.eqb_refl. discriminate.
  - destruct (N.ltb k k') eqn:El; simpl.
    + rewrite N.eqb_refl. discriminate.
    + destruct (N.eqb k k') eqn:Ee; simpl; rewrite Ee; [ discriminate | exact IH ].
Qed.

Lemma find_key_summary c h r h' o :
  find_key c h = Ret r h' o ->
  frame h h' /\ store_same h h' /\ next_deadline_us_ h' = next_deadline_us_ h /\
  (table_bound h -> table_bound h') /\
  (r = None -> h' = h) /\
  (forall k, r = Some k -> k = instanceHandle c /\ map_find k (keyed_changes_ h') <> None).
Proof.
  unfold find_key. intros H. inv_run.
  - (* the handle is in the table *)
    repeat split; auto with hist; try discriminate; inversion H; subst; congruence.
  - (* room for one more entry *)
    repeat split; auto with hist; try discriminate.
    + unfold table_bound. simpl. intros _.
      match goal with E : (_ <? _) = true |- _ => apply Z.ltb_lt in E end.
      pose proof (length_map_insert (instanceHandle c) KeyedChanges_default (keyed_changes_ h)).
      unfold vsize in *. lia.
    + inversion H; reflexivity.
    + inversion H; subst. simpl. apply map_find_insert.
  - (* an empty entry is reclaimed *)
    repeat split; auto with hist; try discriminate.
    + unfold table_bound. simpl. intros Hb.
      match goal with E : first_empty _ = Some _ |- _ =>
        apply find_index_lt in E; apply length_erase_at in E end.
      pose proof (length_map_insert (instanceHandle c) KeyedChanges_default
                    (erase_at n (keyed_changes_ h))).
      unfold vsize in *. lia.
    + inversion H; reflexivity.
    + inversion H; subst. simpl. apply map_find_insert.
  - (* no entry can be reclaimed *)
    repeat split; auto with hist; discriminate.
Qed.

Ltac run_monad :=
  unfold logError, logWarning, logInfo, bind, gets, modify, ret, log, raise.

Lemma remove_change_found c h i :
  find_index (ptr_eqb c) (m_changes h) = Some i ->
  remove_change c h =
  Ret true (set_m_isHistoryFull false (set_m_changes (erase_at i (m_changes h)) h)) [].
Proof.
  intros E. pose proof (find_index_lt _ _ _ E) as Hlt.
  destruct (find_index_Some _ _ _ E) as (x & Hx & _).
  unfold remove_change, find_change_nts, changesEnd, ReaderHistory_remove_change_nts.
  run_monad. rewrite E.
  destruct (Nat.eqb i (List.length (m_changes h))) eqn:En.
  - apply Nat.eqb_eq in En. lia.
  - rewrite Hx. reflexivity.
Qed.

Lemma remove_change_not_found c h :
  find_index (ptr_eqb c) (m_changes h) = None ->
  remove_change c h =
  Ret false h
    [ {| log_level := Info; log_category := RTPS_WRITER_HISTORY;
         log_text := "Trying to remove a change not in history" |} ].
Proof.
  intros E. unfold remove_change, find_change_nts, changesEnd. run_monad.
  rewrite E, Nat.eqb_refl. reflexivity.
Qed.

Lemma remove_change_summary c h b h' o :
  remove_change c h = Ret b h' o ->
  frame h h' /\ keyed_changes_ h' = keyed_changes_ h /\
  next_deadline_us_ h' = next_deadline_us_ h /\
  (b = false -> h' = h) /\
  (b = true -> store_removed h h').
Proof.
  destruct (find_index (ptr_eqb c) (m_changes h)) as [i | ] eqn:E.
  - rewrite (remove_change_found _ _ _ E). intros H. inversion H; subst.
    repeat split; auto with hist; try discriminate.
    intros _. exists i. split; [ eapply find_index_lt; eauto | auto ].
  - rewrite (remove_change_not_found _ _ E). intros H. inversion H; subst.
    repeat split; auto with hist; discriminate.
Qed.

Lemma ReaderHistory_remove_change_nts_summary i rel h j h' o :
  ReaderHistory_remove_change_nts i rel h = Ret j h' o ->
  frame h h' /\ keyed_changes_ h' = keyed_changes_ h /\
  next_deadline_us_ h' = next_deadline_us_ h /\
  (store_same h h' \/ store_removed h h') /\
  (forall x, nth_error (m_changes h) i = Some x ->
     j = i /\ m_changes h' = erase_at i (m_changes h) /\ m_isHistoryFull h' = false).
Proof.
  unfold ReaderHistory_remove_change_nts, changesEnd. run_monad.
  destruct (nth_error (m_changes h) i) as [x | ] eqn:E; intros H.
  - injection H as <- <- <-.
    repeat split; auto with hist. right. exists i. split; auto.
    apply nth_error_Some. congruence.
  - injection H as <- <- <-.
    repeat split; auto with hist; try discriminate. left. split; reflexivity.
Qed.

Lemma deref_Ret k h e h' o :
  deref k h = Ret e h' o -> h' = h /\ map_find k (keyed_changes_ h) = Some e.
Proof.
  unfold deref. destruct (map_find k (keyed_changes_ h)); intros H; inversion H; auto.
Qed.

Lemma at_Ret {A} (v : list A) i x h h' o :
  at_ v i h = Ret x h' o -> h' = h /\ nth_error v i = Some x.
Proof.
  unfold at_. destruct (nth_error v i); run_monad; intros H; inversion H; auto.
Qed.

Lemma store_same_refl h : store_same h h.
Proof. split; reflexivity. Qed.

Lemma store_same_trans h1 h2 h3 : store_same h1 h2 -> store_same h2 h3 -> store_same h1 h3.
Proof. unfold store_same. intuition congruence. Qed.

#[local] Hint Resolve store_same_refl : hist.

Lemma step_refl h : step h h.
Proof. split; auto with hist. Qed.

Lemma step_trans h1 h2 h3 : step h1 h2 -> step h2 h3 -> step h1 h3.
Proof.
  intros [F1 U1 B1] [F2 U2 B2]. split; auto. eapply frame_trans; eauto.
Qed.

Lemma table_bound_frame h h' :
  frame h h' -> List.length (keyed_changes_ h') = List.length (keyed_changes_ h) ->
  table_bound h -> table_bound h'.
Proof.
  intros F E. unfold table_bound, vsize. apply frame_fields in F.
  destruct F as (_ & _ & -> & _). rewrite E. auto.
Qed.

Lemma step_set_keyed_adjust f k h :
  step h (set_keyed_changes_ (map_adjust f k (keyed_changes_ h)) h).
Proof.
  split; auto with hist.
  apply table_bound_frame; auto with hist. simpl. apply length_map_adjust.
Qed.

Lemma step_set_next_deadline_us_ t h : step h (set_next_deadline_us_ t h).
Proof.
  split; auto with hist.
Qed.

Lemma step_removal h h' :
  frame h h' -> keyed_changes_ h' = keyed_changes_ h ->
  store_same h h' \/ store_removed h h' -> step h h'.
Proof.
  intros F Ek Hs. split; auto.
  - destruct Hs; [ apply full_inv_same | apply full_inv_removed ]; auto.
  - apply table_bound_frame; auto. congruence.
Qed.

Lemma store_same_removed h h1 h' :
  store_same h h1 -> store_removed h1 h' -> store_removed h h'.
Proof.
  intros (Ec & Ef) (i & Hi & E1 & E2). exists i. rewrite <- Ec. auto.
Qed.

Lemma find_key_step c h r h' o : find_key c h = Ret r h' o -> step h h'.
Proof.
  intros H. apply find_key_summary in H. destruct H as (F & S & _ & B & _).
  split; auto. apply full_inv_same; auto.
Qed.

Lemma remove_change_step c h b h' o : remove_change c h = Ret b h' o -> step h h'.
Proof.
  intros H. apply remove_change_summary in H. destruct H as (F & Ek & _ & Hf & Ht).
  apply step_removal; auto. destruct b.
  - right. auto.
  - left. rewrite (Hf eq_refl). apply store_same_refl.
Qed.

Lemma remove_change_nts_summary i rel h j h' o :
  remove_change_nts i rel h = Ret j h' o ->
  step h h' /\ (store_same h h' \/ store_removed h h') /\
  (forall x, nth_error (m_changes h) i = Some x ->
     j = i /\ m_changes h' = erase_at i (m_changes h) /\ m_isHistoryFull h' = false).
Proof.
  unfold remove_change_nts. intros H. inv_run.
  all: match goal with
       | E : ReaderHistory_remove_change_nts _ _ _ = Ret _ _ _ |- _ =>
           apply ReaderHistory_remove_change_nts_summary in E;
           destruct E as (F & Ek & Ed & Hs & Hx)
       end.
  - (* the sample is scrubbed from its instance first *)
    split; [ | split ].
    + eapply step_trans; [ apply step_set_keyed_adjust | ].
      apply step_removal; eauto.
    + destruct Hs as [Hs | Hs]; [ left | right ].
      * destruct Hs. split; simpl in *; congruence.
      * eapply store_same_removed; [ | exact Hs ]. split; reflexivity.
    + exact Hx.
  - split; [ apply step_removal; auto | split; [ exact Hs | exact Hx ] ].
  - split; [ apply step_removal; auto | split; [ exact Hs | exact Hx ] ].
Qed.

Lemma erase_in_instance_Ret k i a h h' o :
  erase_in_instance k i h = Ret a h' o ->
  step h h' /\ store_same h h' /\ next_deadline_us_ h' = next_deadline_us_ h.
Proof.
  unfold erase_in_instance. intros H. inv_run.
  split; [ apply step_set_keyed_adjust | split; [ split | ]; reflexivity ].
Qed.

(** The keyed prologue shared by both overloads of [remove_change_sub] leaves
    the change store alone. *)
Ltac use_summaries :=
  repeat match goal with
    | H : find_key _ _ = Ret _ _ _ |- _ =>
        let S := fresh "Sk" in
        pose proof (find_key_step _ _ _ _ _ H) as S;
        apply find_key_summary in H;
        destruct H as (_ & ? & ? & _ & ? & ?)
    | H : deref _ _ = Ret _ _ _ |- _ =>
        apply deref_Ret in H; destruct H as (? & ?)
    | H : at_ _ _ _ = Ret _ _ _ |- _ =>
        apply at_Ret in H; destruct H as (? & ?)
    | H : erase_in_instance _ _ _ = Ret _ _ _ |- _ =>
        apply erase_in_instance_Ret in H; destruct H as (? & ? & ?)
    | H : remove_change _ _ = Ret _ _ _ |- _ =>
        let S := fresh "Sr" in
        pose proof (remove_change_step _ _ _ _ _ H) as S;
        apply remove_change_summary in H;
        destruct H as (_ & ? & ? & ? & ?)
    | _ => progress subst
    end.

Lemma store_removed_clear h h' :
  store_removed h h' -> store_removed h (set_m_isHistoryFull false h').
Proof. intros (i & ? & ? & ?). exists i. auto. Qed.

Lemma step_clear_after_removal h h' :
  store_removed h h' -> step h' (set_m_isHistoryFull false h').
Proof.
  intros (i & _ & _ & Ef). split; auto with hist.
  apply full_inv_same; auto with hist. split; simpl; congruence.
Qed.

Lemma remove_change_sub_summary c h b h' o :
  remove_change_sub c h = Ret b h' o ->
  step h h' /\
  (b = false -> store_same h h') /\
  (b = true -> store_removed h h') /\
  (has_keys_ h = false -> b = false -> h' = h).
Proof.
  unfold remove_change_sub. intros H. inv_run; use_summaries.
  all: repeat match goal with
         | H : true = true -> _ |- _ => specialize (H eq_refl)
         | H : false = false -> _ |- _ => specialize (H eq_refl)
         | H : true = false -> _ |- _ => clear H
         | H : false = true -> _ |- _ => clear H
         | _ => progress subst
         end.
  all: split; [ | split; [ | split ] ]; try discriminate; try congruence.
  all: try solve [ repeat (eapply step_trans; [ eassumption | ]);
                   first [ apply step_refl | eapply step_clear_after_removal; eauto ] ].
  all: try (intros _).
  all: try solve [ eauto using store_same_refl, store_same_trans, store_same_removed,
                     store_removed_clear ].
Qed.

Lemma add_received_change_eq c h :
  add_received_change c h =
  if m_isHistoryFull h
  then Ret false h [full_warning h]
  else Ret true (appended c h) [added_info h c].
Proof.
  unfold add_received_change, add_change, mark_full_if_at_capacity, appended,
    max_total_samples. run_monad.
  destruct (m_isHistoryFull h); [ reflexivity | ]. simpl.
  destruct (vsize (m_changes h ++ [c]) =? _); reflexivity.
Qed.

Lemma add_received_change_with_key_eq c k h :
  add_received_change_with_key c k h =
  if m_isHistoryFull h
  then Ret false h [full_warning h]
  else match mp_reader h with
       | Some r => Ret true (appended_with_key c k h) [added_with_key_info r c]
       | None => Fault NullDereference
       end.
Proof.
  unfold add_received_change_with_key, add_change, mark_full_if_at_capacity,
    appended_with_key, appended, max_total_samples. run_monad.
  destruct (m_isHistoryFull h); [ reflexivity | ]. simpl.
  destruct (vsize (m_changes h ++ [c]) =? _); simpl;
    destruct (mp_reader h); reflexivity.
Qed.

Lemma appended_added c h : m_isHistoryFull h = false -> store_added c h (appended c h).
Proof.
  intros Ef. unfold store_added, appended. simpl.
  destruct (vsize (m_changes h ++ [c]) =? max_total_samples h) eqn:E; simpl; auto.
  rewrite E. auto.
Qed.

Lemma frame_appended c h : frame h (appended c h).
Proof.
  unfold appended. simpl.
  destruct (vsize (m_changes h ++ [c]) =? max_total_samples h); auto with hist.
  unfold frame; auto.
Qed.

Lemma keyed_changes_appended c h : keyed_changes_ (appended c h) = keyed_changes_ h.
Proof.
  unfold appended. simpl.
  destruct (vsize (m_changes h ++ [c]) =? max_total_samples h); reflexivity.
Qed.

Lemma step_appended c h : m_isHistoryFull h = false -> step h (appended c h).
Proof.
  intros Ef. split.
  - apply frame_appended.
  - eapply full_inv_added; [ apply frame_appended | apply appended_added; exact Ef ].
  - apply table_bound_frame; [ apply frame_appended | ].
    rewrite keyed_changes_appended. reflexivity.
Qed.

Lemma step_appended_with_key c k h :
  m_isHistoryFull h = false -> step h (appended_with_key c k h).
Proof.
  intros Ef. eapply step_trans; [ apply step_appended; exact Ef | ].
  apply step_set_keyed_adjust.
Qed.

Lemma add_received_change_summary c h b h' o :
  add_received_change c h = Ret b h' o ->
  step h h' /\ (b = false -> h' = h /\ m_isHistoryFull h = true) /\
  (b = true -> m_isHistoryFull h = false /\ h' = appended c h).
Proof.
  rewrite add_received_change_eq. destruct (m_isHistoryFull h) eqn:Ef; intros H.
  - injection H as <- <- <-.
    split; [ apply step_refl | split; [ auto | discriminate ] ].
  - injection H as <- <- <-.
    split; [ apply step_appended; exact Ef | ]. split; [ discriminate | auto ].
Qed.

Lemma add_received_change_with_key_summary c k h b h' o :
  add_received_change_with_key c k h = Ret b h' o ->
  step h h' /\ (b = false -> h' = h /\ m_isHistoryFull h = true) /\
  (b = true -> m_isHistoryFull h = false /\ h' = appended_with_key c k h).
Proof.
  rewrite add_received_change_with_key_eq. destruct (m_isHistoryFull h) eqn:Ef; intros H.
  - injection H as <- <- <-.
    split; [ apply step_refl | split; [ auto | discriminate ] ].
  - destruct (mp_reader h); [ | discriminate ]. injection H as <- <- <-.
    split; [ apply step_appended_with_key; exact Ef | ]. split; [ discriminate | auto ].
Qed.

Lemma find_key_for_change_summary c h r c' h' o :
  find_key_for_change c h = Ret (r, c') h' o ->
  step h h' /\ store_same h h' /\
  (r = None -> h' = h) /\
  (forall k, r = Some k -> map_find k (keyed_changes_ h') <> None) /\
  (isDefined (instanceHandle c) = true -> c' = c).
Proof.
  unfold find_key_for_change. intros H. inv_run; use_summaries.
  all: split; [ | split; [ | split; [ | split ] ] ];
    auto using step_refl, store_same_refl; try congruence; try discriminate.
  all: try (intros k Hk; match goal with
                          | H : forall k, _ = Some k -> _ |- _ => apply (H k Hk)
                          end).
Qed.

Ltac use_add_summaries :=
  repeat match goal with
    | H : add_received_change _ _ = Ret _ _ _ |- _ =>
        apply add_received_change_summary in H; destruct H as (? & ? & ?)
    | H : add_received_change_with_key _ _ _ = Ret _ _ _ |- _ =>
        apply add_received_change_with_key_summary in H; destruct H as (? & ? & ?)
    | H : remove_change_sub _ _ = Ret _ _ _ |- _ =>
        apply remove_change_sub_summary in H; destruct H as (? & ? & ? & ?)
    | H : find_key_for_change _ _ = Ret _ _ _ |- _ =>
        apply find_key_for_change_summary in H; destruct H as (? & ? & ? & ? & ?)
    end.

Ltac decide_booleans :=
  repeat match goal with
    | H : true = true -> _ |- _ => specialize (H eq_refl)
    | H : false = false -> _ |- _ => specialize (H eq_refl)
    | H : true = false -> _ |- _ => clear H
    | H : false = true -> _ |- _ => clear H
    | H : _ /\ _ |- _ => destruct H
    | _ => progress subst
    end.

Lemma store_removed_not_full h h' : store_removed h h' -> m_isHistoryFull h' = false.
Proof. intros (i & _ & _ & E). exact E. Qed.

Lemma received_change_keep_all_no_key_summary c u h b c' h' o :
  received_change_keep_all_no_key c u h = Ret (b, c') h' o ->
  step h h' /\ c' = c /\ (b = false -> h' = h).
Proof.
  unfold received_change_keep_all_no_key. intros H.
  destruct b; inv_run; use_add_summaries; decide_booleans.
  all: split; [ | split ]; auto using step_refl; try discriminate.
Qed.

Lemma received_change_keep_last_no_key_summary c u h b c' h' o :
  received_change_keep_last_no_key c u h = Ret (b, c') h' o ->
  step h h' /\ c' = c /\ (b = false -> store_same h h') /\
  (has_keys_ h = false -> b = false -> h' = h).
Proof.
  unfold received_change_keep_last_no_key. intros H.
  destruct b; inv_run; use_summaries; use_add_summaries; decide_booleans.
  all: try match goal with
         | H : store_removed _ ?x, E : m_isHistoryFull ?x = true |- _ =>
             apply store_removed_not_full in H; congruence
         end.
  all: split; [ | split; [ | split ] ];
    auto using step_refl, store_same_refl; try discriminate.
  all: try solve [ eapply step_trans; eauto ].
Qed.

Lemma received_change_keep_all_with_key_summary c u h b c' h' o :
  received_change_keep_all_with_key c u h = Ret (b, c') h' o ->
  step h h' /\ (b = false -> store_same h h').
Proof.
  unfold received_change_keep_all_with_key. intros H.
  destruct b; inv_run; use_summaries; use_add_summaries; decide_booleans.
  all: split; auto using step_refl, store_same_refl; try discriminate.
  all: try solve [ eapply step_trans; eauto ].
Qed.

Lemma received_change_keep_last_with_key_summary c u h b c' h' o :
  received_change_keep_last_with_key c u h = Ret (b, c') h' o ->
  step h h' /\ (b = false -> store_same h h').
Proof.
  unfold received_change_keep_last_with_key. intros H.
  destruct b; inv_run; use_summaries; use_add_summaries; decide_booleans.
  all: try match goal with
         | H : store_removed _ ?x, E : m_isHistoryFull ?x = true |- _ =>
             apply store_removed_not_full in H; congruence
         end.
  all: split; auto using step_refl, store_same_refl; try discriminate.
  all: try solve [ repeat (eapply step_trans; [ eassumption | ]); eauto using step_refl ].
  all: try solve [ intros _; eauto using store_same_trans ].
Qed.

Lemma received_change_summary c u h b c' h' o :
  received_change c u h = Ret (b, c') h' o ->
  step h h' /\ (b = false -> store_same h h') /\
  (has_keys_ h = false ->
   receive_fn_ h = keep_all_no_key \/ receive_fn_ h = keep_last_no_key ->
   b = false -> h' = h /\ c' = c).
Proof.
  unfold received_change. intros H. inv_run.
  - split; [ apply step_refl | ]. split; auto using store_same_refl.
  - match goal with
    | H : call_receive_fn _ _ _ _ = Ret _ _ _ |- _ =>
        unfold call_receive_fn in H; rename H into Hcall
    end.
    destruct (receive_fn_ h) eqn:Efn.
    + apply received_change_keep_all_no_key_summary in Hcall.
      destruct Hcall as (S & -> & E). split; [ exact S | ].
      split; [ intros Hb; rewrite (E Hb); apply store_same_refl | auto ].
    + apply received_change_keep_last_no_key_summary in Hcall.
      destruct Hcall as (S & -> & E1 & E2). auto.
    + apply received_change_keep_all_with_key_summary in Hcall.
      destruct Hcall as (S & E). split; [ exact S | ]. split; [ exact E | ].
      intros _ [ ? | ? ]; discriminate.
    + apply received_change_keep_last_with_key_summary in Hcall.
      destruct Hcall as (S & E). split; [ exact S | ]. split; [ exact E | ].
      intros _ [ ? | ? ]; discriminate.
Qed.

Lemma vector_id_eqb_eq a b : vector_id_eqb a b = true -> a = b.
Proof.
  destruct a, b; simpl; try discriminate; auto.
  intros E. apply N.eqb_eq in E. congruence.
Qed.

Lemma iterator_eqb_eq a b : iterator_eqb a b = true -> a = b.
Proof.
  destruct a as [va pa], b as [vb pb]. unfold iterator_eqb. simpl.
  intros E. apply andb_prop in E. destruct E as (Ev & Ep).
  apply vector_id_eqb_eq in Ev. apply Nat.eqb_eq in Ep. congruence.
Qed.

Lemma find_change_nts_Ret c h i h' o :
  find_change_nts c h = Ret i h' o ->
  h' = h /\
  (i = List.length (m_changes h) \/ find_index (ptr_eqb c) (m_changes h) = Some i).
Proof.
  unfold find_change_nts. run_monad. intros H. injection H as <- <- <-.
  split; [ reflexivity | ].
  destruct (find_index (ptr_eqb c) (m_changes h)); auto.
Qed.

Lemma step_removed h h' :
  frame h h' -> store_removed h h' -> (table_bound h -> table_bound h') -> step h h'.
Proof. intros F R B. split; auto. apply full_inv_removed; auto. Qed.

Lemma removal_tail h i x j h' o :
  nth_error (m_changes h) i = Some x ->
  remove_change_nts i true (set_m_isHistoryFull false h) = Ret j h' o ->
  step h h' /\ store_removed h h' /\ j = i /\ m_changes h' = erase_at i (m_changes h).
Proof.
  intros Hx H. apply remove_change_nts_summary in H. destruct H as (S & _ & Hn).
  destruct (Hn x Hx) as (-> & Ec & Ef). simpl in Ec.
  assert (R : store_removed h h').
  { exists i. split; [ apply nth_error_Some; congruence | auto ]. }
  destruct S as [F _ B]. split; [ | auto ].
  apply step_removed; auto.
Qed.

Lemma remove_change_sub_it_summary c it h b it' h' o :
  remove_change_sub_it c it h = Ret (b, it') h' o ->
  step h h' /\
  (b = false -> store_same h h' /\ it' = it) /\
  (b = true -> store_removed h h') /\
  (has_keys_ h = true -> it' = it).
Proof.
  unfold remove_change_sub_it, changesEnd. intros H.
  destruct b; inv_run; use_summaries; simpl in *; try discriminate.
  all: repeat match goal with
         | H : find_change_nts _ _ = Ret _ _ _ |- _ =>
             apply find_change_nts_Ret in H; destruct H as (? & ?)
         | H : iterator_eqb _ _ = true |- _ => apply iterator_eqb_eq in H
         | H : Nat.eqb _ _ = false |- _ => apply Nat.eqb_neq in H
         | H : _ \/ _ |- _ => destruct H; [ congruence | ]
         | H : find_index (ptr_eqb _) _ = Some _ |- _ =>
             apply find_index_Some in H; destruct H as (? & ? & _)
         | Hx : nth_error (m_changes ?h1) ?i = Some _,
           H : remove_change_nts ?i true (set_m_isHistoryFull false ?h1) = Ret _ _ _ |- _ =>
             apply (removal_tail _ _ _ _ _ _ Hx) in H; destruct H as (? & ? & ? & ?)
         | _ => progress subst
         end.
  all: decide_booleans.
  all: split; [ | split; [ | split ] ]; try discriminate; try congruence;
    auto using step_refl, store_same_refl.
  all: try solve [ repeat (eapply step_trans; [ eassumption | ]); eauto using step_refl ].
  all: try (intros _).
  all: try solve [ eauto using store_same_refl, store_same_trans, store_same_removed ].
Qed.

Lemma final_state_Some {A} (r : result A) h' :
  final_state r = Some h' -> exists a o, r = Ret a h' o.
Proof. destruct r; simpl; intros E; inversion E; subst; eauto. Qed.

Lemma set_next_deadline_step k t h b h' o :
  set_next_deadline k t h = Ret b h' o -> step h h' /\ store_same h h'.
Proof.
  unfold set_next_deadline. intros H. inv_run.
  all: split; auto using step_refl, step_set_next_deadline_us_, step_set_keyed_adjust.
  all: split; reflexivity.
Qed.

Lemma get_next_deadline_unchanged k t h r h' o :
  get_next_deadline k t h = Ret r h' o -> h' = h.
Proof. unfold get_next_deadline. intros H. inv_run; reflexivity. Qed.

Lemma lookup_instance_unchanged k e h r h' o :
  lookup_instance k e h = Ret r h' o -> h' = h.
Proof.
  unfold lookup_instance. intros H. inv_run; try reflexivity.
  all: destruct e; simpl in *;
    repeat match goal with
      | H : (match ?x with Some _ => _ | None => _ end) _ = Ret _ _ _ |- _ =>
          destruct x as [ [? ?] | ] eqn:?
      end; inv_run; reflexivity.
Qed.

Lemma get_first_untaken_info_unchanged i h r h' o :
  get_first_untaken_info i h = Ret r h' o -> h' = h.
Proof.
  unfold get_first_untaken_info. intros H. inv_run; reflexivity.
Qed.

(** Every public call that returns is a [step]. *)
Lemma public_step op h h' : after op h = Some h' -> step h h'.
Proof.
  destruct op; simpl; intros E; apply final_state_Some in E; destruct E as (a & o & E).
  - destruct a as [b c']. apply received_change_summary in E. apply E.
  - apply remove_change_sub_summary in E. apply E.
  - destruct a as [b it']. apply remove_change_sub_it_summary in E. apply E.
  - apply remove_change_nts_summary in E. apply E.
  - apply set_next_deadline_step in E. apply E.
  - apply get_next_deadline_unchanged in E. subst. apply step_refl.
  - apply lookup_instance_unchanged in E. subst. apply step_refl.
  - apply get_first_untaken_info_unchanged in E. subst. apply step_refl.
Qed.

(** ** Closed forms on unkeyed histories *)

Lemma to_size_t_small z : 0 <= z < 18446744073709551616 -> Int.to_size_t z = z.
Proof. intros Hz. unfold Int.to_size_t. apply Z.mod_small. exact Hz. Qed.

Lemma ptr_eqb_refl c : ptr_eqb c c = true.
Proof. unfold ptr_eqb. apply Nat.eqb_refl. Qed.

Lemma m_changes_appended c h : m_changes (appended c h) = m_changes h ++ [c].
Proof.
  unfold appended. simpl.
  destruct (vsize (m_changes h ++ [c]) =? max_total_samples h); reflexivity.
Qed.

Lemma m_isHistoryFull_appended c h :
  m_isHistoryFull h = false ->
  m_isHistoryFull (appended c h) = (vsize (m_changes h ++ [c]) =? max_total_samples h).
Proof.
  intros Ef. unfold appended. simpl.
  destruct (vsize (m_changes h ++ [c]) =? max_total_samples h); simpl; auto.
Qed.

Lemma remove_change_sub_no_key c h :
  not_created h = false -> has_keys_ h = false ->
  remove_change_sub c h =
  match find_index (ptr_eqb c) (m_changes h) with
  | Some i =>
      Ret true (set_m_isHistoryFull false (set_m_changes (erase_at i (m_changes h)) h)) []
  | None =>
      Ret false h
        [ {| log_level := Info; log_category := RTPS_WRITER_HISTORY;
             log_text := "Trying to remove a change not in history" |} ]
  end.
Proof.
  intros Hnc Hk. unfold remove_change_sub. run_monad. rewrite Hnc, Hk. simpl.
  destruct (find_index (ptr_eqb c) (m_changes h)) as [i | ] eqn:E.
  - rewrite (remove_change_found _ _ _ E). reflexivity.
  - rewrite (remove_change_not_found _ _ E). reflexivity.
Qed.

Lemma I4_not_full_below h :
  I4 h -> vsize (m_changes h) < max_total_samples h -> m_isHistoryFull h = false.
Proof.
  intros (_ & Hiff) Hlt. destruct (m_isHistoryFull h); [ | reflexivity ].
  assert (vsize (m_changes h) = max_total_samples h) by (apply Hiff; reflexivity). lia.
Qed.

(** ** Histories built by the constructor *)

Lemma configured_fields type topic qos h :
  configured type topic qos h ->
  m_att h = to_history_attributes type qos /\
  history_qos_ h = history qos /\
  max_samples (resource_limited_qos_ h) = unlimited_if_zero (max_samples (resource_limits qos)) /\
  max_instances (resource_limited_qos_ h) =
    unlimited_if_zero (max_instances (resource_limits qos)) /\
  max_samples_per_instance (resource_limited_qos_ h) =
    unlimited_if_zero (max_samples_per_instance (resource_limits qos)) /\
  has_keys_ h = m_isGetKeyDefined type /\
  type_ h = Some type /\
  receive_fn_ h = receive_fn_ (DataReaderHistory type topic qos).
Proof.
  unfold configured, settings. intros E. injection E. intros.
  repeat split; try assumption;
    match goal with
    | H : resource_limited_qos_ h = _ |- _ => rewrite H; reflexivity
    end.
Qed.

Lemma unlimited_if_zero_range v :
  0 <= v <= Int.int32_max -> 0 < unlimited_if_zero v <= Int.int32_max.
Proof.
  unfold unlimited_if_zero, Int.int32_max. intros Hv.
  destruct (v =? 0) eqn:E; [ lia | ]. apply Z.eqb_neq in E. lia.
Qed.

(** ** The scenario states are reached *)

(** The histories the scenarios start from are states that deliveries and
    removals lead to. *)
Lemma scenario_states_reached :
  final_state (Scenario.deliver [Scenario.s1] Scenario.keep_all_2)
  = Some KeepAll.one_held /\
  final_state (Scenario.deliver [Scenario.s1; Scenario.s2; Scenario.s3] Scenario.keep_last_3)
  = Some Capacity.three_held /\
  final_state ((Scenario.deliver [Reclaim.a1; Reclaim.b1] ;;
                remove_change_sub Reclaim.a1) Reclaim.two_instances)
  = Some Reclaim.A_taken /\
  final_state (Scenario.deliver [KeyedRemoval.a1; KeyedRemoval.b1; KeyedRemoval.a2]
                 KeyedRemoval.two_instances)
  = Some KeyedRemoval.held /\
  final_state (Scenario.deliver [KeyedFull.a1] KeyedFull.one_sample)
  = Some KeyedFull.full /\
  final_state (Scenario.deliver [KeyedFull.a1; KeyedFull.b1] KeyedFull.one_sample)
  = Some KeyedFull.full_two_instances.
Proof. repeat split; reflexivity. Qed.

(** Scenario 4 as a whole: after the sample of [A] is taken, a sample of [C]
    is accepted, [A] is reclaimed and the table holds [B] and [C]. *)
Lemma reclaim_scenario :
  let r := (Scenario.deliver [Reclaim.a1; Reclaim.b1] ;;
            remove_change_sub Reclaim.a1 ;;
            received_change Reclaim.c1 0) Reclaim.two_instances in
  returned r = Some (true, Reclaim.c1) /\
  option_map (fun h => map fst (keyed_changes_ h)) (final_state r)
  = Some [Scenario.B; Scenario.C].
Proof. split; reflexivity. Qed.

(** ** C1: KEEP_LAST on an unkeyed history *)

(** The claim's scenario ends with [is_full] false; the code leaves the flag
    set, since the store holds [depth] samples and the capacity is the
    depth. *)
Lemma keep_last_no_key_scenario_not_full_refuted :
  ~ (option_map m_changes
       (final_state (Scenario.deliver
                       [Scenario.s1; Scenario.s2; Scenario.s3; Scenario.s4; Scenario.s5]
                       Scenario.keep_last_3))
     = Some [Scenario.s3; Scenario.s4; Scenario.s5] /\
     option_map m_isHistoryFull
       (final_state (Scenario.deliver
                       [Scenario.s1; Scenario.s2; Scenario.s3; Scenario.s4; Scenario.s5]
                       Scenario.keep_last_3))
     = Some false).
Proof. intros (_ & H). vm_compute in H. discriminate H. Qed.

(** C1 (amended).  On an unkeyed KEEP_LAST history whose capacity is the
    depth [d]: below [d] samples, [received_change] accepts the sample and
    appends it; otherwise the oldest sample (the front of the store) is
    removed and then the sample is accepted and appended.  Either way the
    full flag ends up telling whether the store holds [d] samples.  Samples
    [s1 .. s5] delivered in order with [d = 3] are all accepted and leave the
    store [s3; s4; s5] with the full flag set. *)
Theorem keep_last_no_key_received_change :
  (forall h c u,
      not_created h = false ->
      receive_fn_ h = keep_last_no_key ->
      has_keys_ h = false ->
      maximumReservedCaches (m_att h) = depth (history_qos_ h) ->
      0 < depth (history_qos_ h) <= Int.int32_max ->
      I4 h ->
      exists kept h' out,
        received_change c u h = Ret (true, c) h' out /\
        (if vsize (m_changes h) <? depth (history_qos_ h)
         then kept = m_changes h
         else exists oldest, m_changes h = oldest :: kept) /\
        m_changes h' = kept ++ [c] /\
        m_isHistoryFull h' = (vsize (kept ++ [c]) =? depth (history_qos_ h)) /\
        keyed_changes_ h' = keyed_changes_ h /\
        frame h h') /\
  (let r := Scenario.deliver
              [Scenario.s1; Scenario.s2; Scenario.s3; Scenario.s4; Scenario.s5]
              Scenario.keep_last_3 in
   returned r = Some [true; true; true; true; true] /\
   option_map m_changes (final_state r) = Some [Scenario.s3; Scenario.s4; Scenario.s5] /\
   option_map m_isHistoryFull (final_state r) = Some true).
Proof.
  split; [ | vm_compute; repeat split; reflexivity ].
  intros h c u Hnc Hfn Hk Hcap Hd HI4.
  assert (Hsz : Int.to_size_t (depth (history_qos_ h)) = depth (history_qos_ h))
    by (apply to_size_t_small; unfold Int.int32_max in Hd; lia).
  assert (Hmax : max_total_samples h = depth (history_qos_ h))
    by (unfold max_total_samples; rewrite Hcap; exact Hsz).
  unfold received_change, call_receive_fn, received_change_keep_last_no_key.
  run_monad. rewrite Hnc, Hfn, Hsz. simpl.
  destruct (vsize (m_changes h) <? depth (history_qos_ h)) eqn:Elt.
  - (* below the depth *)
    apply Z.ltb_lt in Elt.
    assert (Ef : m_isHistoryFull h = false) by (apply I4_not_full_below; auto; lia).
    rewrite add_received_change_eq, Ef.
    exists (m_changes h). eexists. eexists. split; [ reflexivity | ].
    split; [ reflexivity | ].
    rewrite m_changes_appended, m_isHistoryFull_appended, keyed_changes_appended, Hmax by exact Ef.
    auto using frame_appended.
  - (* at the depth: the front goes first *)
    apply Z.ltb_ge in Elt.
    destruct (m_changes h) as [ | oldest rest] eqn:Ec.
    { unfold vsize in Elt. simpl in Elt. lia. }
    unfold at_. simpl. run_monad.
    rewrite (remove_change_sub_no_key _ _ Hnc Hk), Ec. simpl.
    rewrite ptr_eqb_refl. simpl.
    rewrite add_received_change_eq. simpl.
    exists rest. eexists. eexists. split; [ reflexivity | ].
    split; [ exists oldest; reflexivity | ].
    rewrite m_changes_appended, m_isHistoryFull_appended, keyed_changes_appended by reflexivity.
    simpl. unfold max_total_samples in *. simpl. rewrite Hmax.
    split; [ | split; [ | split ] ]; auto.
    eapply frame_trans; [ | apply frame_appended ]. unfold frame; auto.
Qed.

Lemma keep_last_no_key_received_change_witness :
  exists kept h' out,
    received_change Scenario.s4 0 Capacity.three_held = Ret (true, Scenario.s4) h' out /\
    (if vsize (m_changes Capacity.three_held) <? depth (history_qos_ Capacity.three_held)
     then kept = m_changes Capacity.three_held
     else exists oldest, m_changes Capacity.three_held = oldest :: kept) /\
    m_changes h' = kept ++ [Scenario.s4] /\
    m_isHistoryFull h' =
      (vsize (kept ++ [Scenario.s4]) =? depth (history_qos_ Capacity.three_held)) /\
    keyed_changes_ h' = keyed_changes_ Capacity.three_held /\
    frame Capacity.three_held h'.
Proof.
  apply (proj1 keep_last_no_key_received_change Capacity.three_held Scenario.s4 0).
  - reflexivity.
  - reflexivity.
  - reflexivity.
  - reflexivity.
  - split; [ reflexivity | discriminate ].
  - split; [ discriminate | split; reflexivity ].
Defined.

(** ** C6: KEEP_ALL on an unkeyed history *)

(** The claim as worded, with the capacity [max_total_samples] as bound and
    the sum taken in the integers, fails in two ways.  With [max_samples = 0]
    in the QoS the capacity is 0 while the limit the test reads is the
    integer maximum: the first sample is accepted although [0 + 0 < 0] does
    not hold.  And the sum is a [size_t] sum: with one sample held, capacity 2
    and [unknown_missing_changes_up_to = 2^64 - 1] it wraps around to 0 and
    the sample is accepted although [1 + (2^64 - 1) < 2] does not hold. *)
Lemma keep_all_no_key_capacity_bound_refuted :
  (let r := received_change Scenario.s1 0 Capacity.no_sample_limit in
   returned r = Some (true, Scenario.s1) /\
   max_total_samples Capacity.no_sample_limit = 0 /\
   ~ (vsize (m_changes Capacity.no_sample_limit) + 0
      < max_total_samples Capacity.no_sample_limit)) /\
  (let u := 18446744073709551615 in
   let r := received_change Scenario.s2 u KeepAll.one_held in
   returned r = Some (true, Scenario.s2) /\
   max_total_samples KeepAll.one_held = 2 /\
   ~ (vsize (m_changes KeepAll.one_held) + u < max_total_samples KeepAll.one_held)).
Proof.
  split; simpl; (split; [ reflexivity | ]); (split; [ reflexivity | ]);
    vm_compute; intros H; discriminate H.
Qed.

(** C6 (amended).  On an unkeyed KEEP_ALL history, [received_change] accepts
    the sample exactly when the [size_t] sum of the number of held samples
    and [unknown_missing_changes_up_to] is below the [max_samples] limit the
    history holds (the QoS value, or the integer maximum when the QoS value
    is 0) and the full flag is not set; when the sum does not wrap around,
    the first condition alone decides.  That limit is the capacity
    [max_total_samples] whenever the QoS value is not 0.  An accepted sample
    is appended to the store and nothing is removed, a rejected one leaves
    the history as it was.  With [max_samples = 2], of [s1; s2; s3] the first
    two are accepted and the third is rejected, and the store is [s1; s2]
    with the full flag set. *)
Theorem keep_all_no_key_received_change :
  (forall type topic qos h c u,
      configured type topic qos h ->
      m_isGetKeyDefined type = false ->
      history_kind (history qos) = KEEP_ALL_HISTORY_QOS ->
      0 <= max_samples (resource_limits qos) <= Int.int32_max ->
      not_created h = false ->
      full_inv h ->
      0 <= u ->
      exists accepted h' out,
        received_change c u h = Ret (accepted, c) h' out /\
        (accepted = true <->
         (vsize (m_changes h) + u) mod 18446744073709551616
         < max_samples (resource_limited_qos_ h) /\
         m_isHistoryFull h = false) /\
        (vsize (m_changes h) + u < 18446744073709551616 ->
         (accepted = true <->
          vsize (m_changes h) + u < max_samples (resource_limited_qos_ h))) /\
        max_samples (resource_limited_qos_ h)
        = unlimited_if_zero (max_samples (resource_limits qos)) /\
        (max_samples (resource_limits qos) <> 0 ->
         max_samples (resource_limited_qos_ h) = max_total_samples h) /\
        (accepted = true -> m_changes h' = m_changes h ++ [c]) /\
        (accepted = false -> h' = h)) /\
  (let r := Scenario.deliver [Scenario.s1; Scenario.s2; Scenario.s3] Scenario.keep_all_2 in
   returned r = Some [true; true; false] /\
   option_map m_changes (final_state r) = Some [Scenario.s1; Scenario.s2] /\
   option_map m_isHistoryFull (final_state r) = Some true).
Proof.
  split; [ | vm_compute; repeat split; reflexivity ].
  intros type topic qos h c u Hc Hkey Hkind Hraw Hnc Hinv Hu.
  destruct (configured_fields _ _ _ _ Hc) as (Ea & _ & Elim & _ & _ & _ & _ & Efn).
  pose proof (unlimited_if_zero_range _ Hraw) as Hlim. rewrite <- Elim in Hlim.
  assert (Ecap : maximumReservedCaches (m_att h) = max_samples (resource_limits qos)).
  { rewrite Ea. unfold to_history_attributes. rewrite Hkind. reflexivity. }
  assert (Etot : max_total_samples h = max_samples (resource_limits qos)).
  { unfold max_total_samples. rewrite Ecap.
    apply to_size_t_small. unfold Int.int32_max in Hraw. lia. }
  assert (Esame : max_samples (resource_limits qos) <> 0 ->
                  max_samples (resource_limited_qos_ h) = max_total_samples h).
  { intros Hnz. rewrite Etot, Elim. unfold unlimited_if_zero.
    destruct (max_samples (resource_limits qos) =? 0) eqn:Ez; [ | reflexivity ].
    apply Z.eqb_eq in Ez. contradiction. }
  (* without wrap-around, a full store is at the limit *)
  assert (Hfull : m_isHistoryFull h = true ->
                  max_samples (resource_limited_qos_ h) <= vsize (m_changes h)).
  { intros Ef. destruct Hinv as (Hf & _). destruct (Hf Ef) as (Esz & Hne).
    assert (vsize (m_changes h) <> 0).
    { unfold vsize. destruct (m_changes h); [ congruence | simpl; lia ]. }
    rewrite Etot in Esz. rewrite Esame; [ lia | lia ]. }
  simpl in Efn. rewrite Hkey, Hkind in Efn. simpl in Efn.
  pose proof (vsize_nonneg (m_changes h)) as Hsize.
  unfold received_change, call_receive_fn, received_change_keep_all_no_key.
  run_monad. rewrite Hnc, Efn. simpl.
  unfold Int.size_add.
  rewrite to_size_t_small by (unfold Int.int32_max in Hlim; lia).
  destruct ((vsize (m_changes h) + u) mod 18446744073709551616
            <? max_samples (resource_limited_qos_ h)) eqn:Elt.
  - apply Z.ltb_lt in Elt. rewrite add_received_change_eq.
    destruct (m_isHistoryFull h) eqn:Ef.
    + exists false. eexists. eexists. split; [ reflexivity | ].
      split; [ split; [ discriminate | intros (_ & E); discriminate E ] | ].
      split; [ intros Hsum; rewrite Z.mod_small in Elt by lia;
               specialize (Hfull eq_refl); split; [ discriminate | lia ] | ].
      split; [ exact Elim | ]. split; [ exact Esame | ].
      split; [ discriminate | reflexivity ].
    + exists true. eexists. eexists. split; [ reflexivity | ].
      split; [ tauto | ].
      split; [ intros Hsum; rewrite Z.mod_small in Elt by lia; tauto | ].
      split; [ exact Elim | ]. split; [ exact Esame | ].
      split; [ intros _; apply m_changes_appended | discriminate ].
  - apply Z.ltb_ge in Elt.
    exists false. eexists. eexists. split; [ reflexivity | ].
    split; [ split; [ discriminate | intros (Hlt & _); lia ] | ].
    split; [ intros Hsum; rewrite Z.mod_small in Elt by lia;
             split; [ discriminate | lia ] | ].
    split; [ exact Elim | ]. split; [ exact Esame | ].
    split; [ discriminate | reflexivity ].
Qed.

Lemma keep_all_no_key_received_change_witness :
  exists accepted h' out,
    received_change Scenario.s2 0 KeepAll.one_held = Ret (accepted, Scenario.s2) h' out /\
    (accepted = true <->
     (vsize (m_changes KeepAll.one_held) + 0) mod 18446744073709551616
     < max_samples (resource_limited_qos_ KeepAll.one_held) /\
     m_isHistoryFull KeepAll.one_held = false) /\
    (vsize (m_changes KeepAll.one_held) + 0 < 18446744073709551616 ->
     (accepted = true <->
      vsize (m_changes KeepAll.one_held) + 0
      < max_samples (resource_limited_qos_ KeepAll.one_held))) /\
    max_samples (resource_limited_qos_ KeepAll.one_held)
    = unlimited_if_zero
        (max_samples (resource_limits (Scenario.qos KEEP_ALL_HISTORY_QOS 1 2 10 400))) /\
    (max_samples (resource_limits (Scenario.qos KEEP_ALL_HISTORY_QOS 1 2 10 400)) <> 0 ->
     max_samples (resource_limited_qos_ KeepAll.one_held)
     = max_total_samples KeepAll.one_held) /\
    (accepted = true -> m_changes h' = m_changes KeepAll.one_held ++ [Scenario.s2]) /\
    (accepted = false -> h' = KeepAll.one_held).
Proof.
  apply (proj1 keep_all_no_key_received_change
           Scenario.plain_type Scenario.topic
           (Scenario.qos KEEP_ALL_HISTORY_QOS 1 2 10 400)).
  - reflexivity.
  - reflexivity.
  - reflexivity.
  - split; discriminate.
  - reflexivity.
  - split.
    + discriminate.
    + intros _. split; discriminate.
  - discriminate.
Defined.

(** ** C3: the full flag and the capacity *)

(** With [max_samples = 0] the capacity derived at construction is 0; the
    first sample is accepted and the store then holds more than the
    capacity. *)
Lemma I4_refuted_at_capacity_zero :
  let r := received_change Scenario.s1 0 Capacity.no_sample_limit in
  returned r = Some (true, Scenario.s1) /\
  option_map max_total_samples (final_state r) = Some 0 /\
  option_map (fun h => vsize (m_changes h)) (final_state r) = Some 1 /\
  ~ (forall h', final_state r = Some h' -> I4 h').
Proof.
  repeat split; try reflexivity.
  intros H.
  destruct (received_change Scenario.s1 0 Capacity.no_sample_limit) as [a h' o | f] eqn:E;
    [ | vm_compute in E; discriminate E ].
  specialize (H h' eq_refl). vm_compute in E. injection E as _ <- _.
  destruct H as (Hle & _). vm_compute in Hle. apply Hle. reflexivity.
Qed.

(** C3 (amended).  When the capacity derived at construction is not 0: the
    history as constructed satisfies I4, and I4 holds again after every
    public call that returns (in particular [received_change], both forms of
    [remove_change_sub] and [remove_change_nts]): [change_store.size()] is at
    most the capacity, and the full flag is set exactly when the two are
    equal. *)
Theorem I4_after_every_call :
  (forall type topic qos,
      Int.to_size_t (maximumReservedCaches (to_history_attributes type qos)) <> 0 ->
      I4 (DataReaderHistory type topic qos)) /\
  (forall op h h',
      max_total_samples h <> 0 ->
      I4 h ->
      after op h = Some h' ->
      I4 h').
Proof.
  split.
  - intros type topic qos Hz. unfold I4, max_total_samples. simpl.
    pose proof (Z.mod_pos_bound (maximumReservedCaches (to_history_attributes type qos))
                  18446744073709551616 eq_refl) as Hb.
    unfold Int.to_size_t in *. unfold vsize. simpl.
    split; [ lia | ]. split; [ discriminate | intros E; congruence ].
  - intros op h h' Hz HI Hop.
    pose proof (public_step _ _ _ Hop) as [F U _].
    pose proof (max_total_samples_frame _ _ F) as Em.
    apply I4_full_inv; [ congruence | ]. apply U. apply I4_full_inv; assumption.
Qed.

Lemma I4_after_every_call_witness :
  I4 Capacity.three_held /\
  after (call_remove_change_sub Scenario.s1) Capacity.three_held
  = Some (set_m_isHistoryFull false
            (set_m_changes [Scenario.s2; Scenario.s3] Capacity.three_held)) /\
  I4 (set_m_isHistoryFull false
        (set_m_changes [Scenario.s2; Scenario.s3] Capacity.three_held)).
Proof.
  assert (H0 : max_total_samples Capacity.three_held <> 0) by discriminate.
  assert (H1 : I4 Capacity.three_held).
  { split; [ discriminate | split; reflexivity ]. }
  assert (H2 : after (call_remove_change_sub Scenario.s1) Capacity.three_held
               = Some (set_m_isHistoryFull false
                         (set_m_changes [Scenario.s2; Scenario.s3] Capacity.three_held)))
    by reflexivity.
  split; [ exact H1 | ]. split; [ exact H2 | ].
  exact (proj2 I4_after_every_call _ _ _ H0 H1 H2).
Defined.

(** ** C4: resolving a handle that is not in the instance table *)

Lemma length_map_insert_new k e t :
  map_find k t = None -> List.length (map_insert k e t) = S (List.length t).
Proof.
  induction t as [ | [k' e'] r IH]; simpl; intros E; [ reflexivity | ].
  destruct (N.eqb k k') eqn:Ee; [ discriminate | ].
  destruct (N.ltb k k'); simpl; [ reflexivity | ]. rewrite IH; auto.
Qed.

Lemma map_find_insert_new k e t :
  map_find k t = None -> map_find k (map_insert k e t) = Some e.
Proof.
  induction t as [ | [k' e'] r IH]; simpl; intros E.
  - rewrite N.eqb_refl. reflexivity.
  - destruct (N.eqb k k') eqn:Ee; [ discriminate | ].
    destruct (N.ltb k k'); simpl.
    + rewrite N.eqb_refl. reflexivity.
    + rewrite Ee. auto.
Qed.

Lemma map_find_erase_at_None k i t :
  map_find k t = None -> map_find k (erase_at i t) = None.
Proof.
  revert i. induction t as [ | [k' e'] r IH]; simpl; intros i E;
    [ destruct i; reflexivity | ].
  destruct (N.eqb k k') eqn:Ee; [ discriminate | ].
  destruct i; simpl; [ exact E | ]. rewrite Ee. auto.
Qed.

Lemma first_empty_Some t i :
  first_empty t = Some i ->
  exists entry, nth_error t i = Some entry /\ cache_changes (snd entry) = [].
Proof.
  unfold first_empty. intros E. apply find_index_Some in E.
  destruct E as (entry & Hn & Hz). exists entry. split; [ exact Hn | ].
  apply Z.eqb_eq in Hz. unfold vsize in Hz.
  destruct (cache_changes (snd entry)); [ reflexivity | simpl in Hz; lia ].
Qed.

Lemma first_empty_None t :
  first_empty t = None -> forall entry, In entry t -> cache_changes (snd entry) <> [].
Proof.
  unfold first_empty. intros E entry Hin Hc.
  pose proof (find_index_None _ _ E entry Hin) as Hz. simpl in Hz.
  rewrite Hc in Hz. discriminate Hz.
Qed.

(** C4.  For a handle that is not in the instance table, with a positive
    [max_instances] limit: below the limit [find_key] succeeds and inserts an
    empty entry for the handle; at the limit it succeeds exactly when some
    entry holds no changes, erasing the first such entry and inserting the
    empty entry for the handle, so that the table keeps its size; with no
    such entry it fails and leaves the history as it was.  The table never
    grows beyond the limit, in [find_key] or in any public call. *)
Theorem find_key_new_handle :
  forall h c,
    let k := instanceHandle c in
    let t := keyed_changes_ h in
    let limit := max_instances (resource_limited_qos_ h) in
    map_find k t = None ->
    0 < limit <= Int.int32_max ->
    (vsize t < limit ->
     find_key c h = Ret (Some k) (set_keyed_changes_ (map_insert k KeyedChanges_default t) h) [] /\
     map_find k (map_insert k KeyedChanges_default t) = Some KeyedChanges_default /\
     vsize (map_insert k KeyedChanges_default t) = vsize t + 1) /\
    (limit <= vsize t ->
     (forall i, first_empty t = Some i ->
        (exists entry, nth_error t i = Some entry /\ cache_changes (snd entry) = []) /\
        find_key c h =
          Ret (Some k)
            (set_keyed_changes_ (map_insert k KeyedChanges_default (erase_at i t)) h) [] /\
        map_find k (map_insert k KeyedChanges_default (erase_at i t))
          = Some KeyedChanges_default /\
        vsize (map_insert k KeyedChanges_default (erase_at i t)) = vsize t) /\
     (first_empty t = None ->
        (forall entry, In entry t -> cache_changes (snd entry) <> []) /\
        exists out, find_key c h = Ret None h out)) /\
    (vsize t <= limit ->
     (forall r h' out, find_key c h = Ret r h' out -> vsize (keyed_changes_ h') <= limit) /\
     (forall op h', after op h = Some h' -> vsize (keyed_changes_ h') <= limit)).
Proof.
  intros h c k t limit Hnew Hlim.
  assert (Hsz : Int.to_size_t limit = limit)
    by (apply to_size_t_small; unfold Int.int32_max in Hlim; lia).
  split; [ | split ].
  - intros Hlt. split; [ | split ].
    + unfold find_key. run_monad. fold k t limit. rewrite Hnew, Hsz.
      apply Z.ltb_lt in Hlt. rewrite Hlt. reflexivity.
    + apply map_find_insert_new. exact Hnew.
    + unfold vsize. rewrite length_map_insert_new by exact Hnew. lia.
  - intros Hge. split.
    + intros i Hi. split; [ apply first_empty_Some; exact Hi | ]. split; [ | split ].
      * unfold find_key. run_monad. fold k t limit. rewrite Hnew, Hsz.
        apply Z.ltb_ge in Hge. rewrite Hge, Hi. reflexivity.
      * apply map_find_insert_new. apply map_find_erase_at_None. exact Hnew.
      * unfold vsize.
        rewrite length_map_insert_new by (apply map_find_erase_at_None; exact Hnew).
        apply find_index_lt in Hi. apply length_erase_at in Hi. lia.
    + intros Hnone. split; [ apply first_empty_None; exact Hnone | ].
      unfold find_key. run_monad. fold k t limit. rewrite Hnew, Hsz.
      apply Z.ltb_ge in Hge. rewrite Hge, Hnone. eexists. reflexivity.
  - intros Hle.
    assert (Hb : table_bound h) by (unfold table_bound; fold t limit; rewrite Hsz; exact Hle).
    split.
    + intros r h' out E. apply find_key_step in E. destruct E as [F _ B].
      specialize (B Hb). unfold table_bound in B.
      apply frame_fields in F. destruct F as (_ & _ & Er & _).
      rewrite Er in B. fold limit in B. rewrite Hsz in B. exact B.
    + intros op h' E. apply public_step in E. destruct E as [F _ B].
      specialize (B Hb). unfold table_bound in B.
      apply frame_fields in F. destruct F as (_ & _ & Er & _).
      rewrite Er in B. fold limit in B. rewrite Hsz in B. exact B.
Qed.

Lemma find_key_new_handle_witness :
  find_key Reclaim.c1 Reclaim.A_taken
  = Ret (Some Scenario.C)
      (set_keyed_changes_
         [ (Scenario.B, {| cache_changes := [Reclaim.b1]; next_deadline_us := 0 |});
           (Scenario.C, KeyedChanges_default) ]
         Reclaim.A_taken)
      [].
Proof.
  assert (Hnew : map_find (instanceHandle Reclaim.c1) (keyed_changes_ Reclaim.A_taken)
                 = None) by reflexivity.
  assert (Hlim : 0 < max_instances (resource_limited_qos_ Reclaim.A_taken)
                 <= Int.int32_max) by (split; [ reflexivity | discriminate ]).
  assert (Hge : max_instances (resource_limited_qos_ Reclaim.A_taken)
                <= vsize (keyed_changes_ Reclaim.A_taken)) by discriminate.
  assert (Hfirst : first_empty (keyed_changes_ Reclaim.A_taken) = Some 0%nat)
    by reflexivity.
  pose proof (find_key_new_handle Reclaim.A_taken Reclaim.c1 Hnew Hlim) as H.
  destruct H as (_ & Hfull & _).
  destruct (Hfull Hge) as (Hreclaim & _).
  destruct (Hreclaim 0%nat Hfirst) as (_ & E & _).
  exact E.
Defined.

(** ** C5: calls before the reader is attached *)

(** [lookup_instance] has no test of [mp_reader] or [mp_mutex]: on a history
    no reader is attached to, looking up the first instance of an unkeyed
    topic succeeds, and nothing is logged. *)
Lemma lookup_instance_before_attachment_succeeds :
  let h := DataReaderHistory Scenario.plain_type Scenario.topic
             (Scenario.qos KEEP_LAST_HISTORY_QOS 3 5000 10 400) in
  not_created h = true /\
  lookup_instance c_InstanceHandle_Unknown false h
  = Ret (true, (fictitious_handle, Some changes_vector)) h [].
Proof. split; reflexivity. Qed.

(** What [get_first_untaken_info] does before attachment: it dereferences
    the null pointers. *)
Lemma get_first_untaken_info_before_attachment info h :
  not_created h = true -> get_first_untaken_info info h = Fault NullDereference.
Proof.
  unfold not_created, get_first_untaken_info. run_monad.
  destruct (mp_reader h), (mp_mutex h); try discriminate; reflexivity.
Qed.

(** C5 (amended).  Before the reader and its mutex are attached,
    [received_change], both forms of [remove_change_sub], [set_next_deadline]
    and [get_next_deadline] return false, log the error and leave the
    history, the sample, the iterator and the reference parameters as they
    were.  [lookup_instance] makes no such test: it answers as it does on an
    attached history, logs nothing and changes nothing. *)
Theorem calls_before_attachment :
  forall h,
    not_created h = true ->
    (forall c u, received_change c u h = Ret (false, c) h [not_created_error]) /\
    (forall c, remove_change_sub c h = Ret false h [not_created_error]) /\
    (forall c it, remove_change_sub_it c it h = Ret (false, it) h [not_created_error]) /\
    (forall k t, set_next_deadline k t h = Ret false h [not_created_error]) /\
    (forall k t, get_next_deadline k t h = Ret (false, k, t) h [not_created_error]) /\
    (forall k exact r,
        exists answer,
          lookup_instance k exact h = Ret answer h [] /\
          lookup_instance k exact (attach r h) = Ret answer (attach r h) []).
Proof.
  intros h Hnc. repeat split; intros.
  - unfold received_change. run_monad. rewrite Hnc. reflexivity.
  - unfold remove_change_sub. run_monad. rewrite Hnc. reflexivity.
  - unfold remove_change_sub_it. run_monad. rewrite Hnc. reflexivity.
  - unfold set_next_deadline. run_monad. rewrite Hnc. reflexivity.
  - unfold get_next_deadline. run_monad. rewrite Hnc. reflexivity.
  - unfold lookup_instance. run_monad. simpl.
    destruct (has_keys_ h); simpl.
    + destruct (if exact
                then option_map (fun e => (k, e)) (map_find k (keyed_changes_ h))
                else upper_bound k (keyed_changes_ h)) as [ [k' e'] | ];
        eexists; split; reflexivity.
    + destruct (isDefined k); [ eexists; split; reflexivity | ].
      destruct exact; eexists; split; reflexivity.
Qed.

Lemma calls_before_attachment_witness :
  let h := DataReaderHistory Scenario.plain_type Scenario.topic
             (Scenario.qos KEEP_LAST_HISTORY_QOS 3 5000 10 400) in
  received_change Scenario.s1 0 h = Ret (false, Scenario.s1) h [not_created_error].
Proof.
  exact (proj1 (calls_before_attachment
                  (DataReaderHistory Scenario.plain_type Scenario.topic
                     (Scenario.qos KEEP_LAST_HISTORY_QOS 3 5000 10 400))
                  eq_refl) Scenario.s1 0).
Defined.

(** ** C7: QoS limits of 0 *)

Lemma after_all_step ops h h' : after_all ops h = Some h' -> step h h'.
Proof.
  revert h. induction ops as [ | op rest IH]; simpl; intros h E.
  - injection E as <-. apply step_refl.
  - destruct (after op h) as [h1 | ] eqn:E1; [ | discriminate ].
    eapply step_trans; [ eapply public_step; eauto | auto ].
Qed.

(** Every state that public calls lead to from a freshly constructed and
    attached history is a state of that history, still attached, in which the
    full flag and the size of the instance table are as the invariants say. *)
Lemma reached_states type topic qos r ops h :
  after_all ops (attach r (DataReaderHistory type topic qos)) = Some h ->
  configured type topic qos h /\ not_created h = false /\ full_inv h /\ table_bound h.
Proof.
  intros E. apply after_all_step in E. destruct E as [F U B].
  split; [ | split; [ | split ] ].
  - unfold configured. destruct F as (-> & _). reflexivity.
  - apply frame_fields in F. destruct F as (_ & _ & _ & _ & _ & _ & ->). reflexivity.
  - apply U. split; [ discriminate | ]. unfold vsize, max_total_samples. simpl.
    pose proof (Z.mod_pos_bound (maximumReservedCaches (to_history_attributes type qos))
                  18446744073709551616 eq_refl) as Hb.
    unfold Int.to_size_t. intros Hnz. split; [ lia | ].
    intros E. exfalso. apply Hnz. symmetry. exact E.
  - apply B. unfold table_bound, vsize. simpl.
    pose proof (Z.mod_pos_bound
                  (unlimited_if_zero (max_instances (resource_limits qos)))
                  18446744073709551616 eq_refl) as Hb.
    unfold Int.to_size_t. lia.
Qed.

Lemma unlimited_if_zero_idem v : unlimited_if_zero (unlimited_if_zero v) = unlimited_if_zero v.
Proof.
  unfold unlimited_if_zero. destruct (v =? 0) eqn:E; [ reflexivity | ]. rewrite E. reflexivity.
Qed.

Lemma full_inv_capacity_zero h :
  max_total_samples h = 0 -> full_inv h -> m_isHistoryFull h = false.
Proof.
  intros Hz (Hfull & _). destruct (m_isHistoryFull h); [ | reflexivity ].
  destruct (Hfull eq_refl) as (Esz & Hne). rewrite Hz in Esz.
  unfold vsize in Esz. destruct (m_changes h); [ congruence | simpl in Esz; lia ].
Qed.

(** For a keyed KEEP_LAST history with [max_instances = 0] the capacity
    derived at construction is [depth * 0 = 0], not what the integer maximum
    in place of the 0 gives. *)
Lemma capacity_with_zero_max_instances_refuted :
  let q := Scenario.qos KEEP_LAST_HISTORY_QOS 1 5000 0 400 in
  maximumReservedCaches (m_att (DataReaderHistory Scenario.keyed_type Scenario.topic q)) = 0 /\
  maximumReservedCaches
    (m_att (DataReaderHistory Scenario.keyed_type Scenario.topic (with_limits_spelled_out q)))
  = Int.int32_max /\
  DataReaderHistory Scenario.keyed_type Scenario.topic q
  <> DataReaderHistory Scenario.keyed_type Scenario.topic (with_limits_spelled_out q).
Proof.
  split; [ reflexivity | ]. split; [ reflexivity | ].
  intros E. apply (f_equal (fun h => maximumReservedCaches (m_att h))) in E.
  vm_compute in E. discriminate E.
Qed.

(** C7 (amended).  The three limits the history holds are the QoS values
    with every 0 replaced by the integer maximum, and apart from the store
    attributes the history is the one constructed from the QoS with the
    limits spelled out; the admission tests read these limits.  The capacity
    of the change store is derived from the QoS as given: [max_samples] for
    KEEP_ALL, [depth] for unkeyed KEEP_LAST, [depth * max_instances] for
    keyed KEEP_LAST; a 0 there gives the capacity 0, and with the capacity 0
    no sequence of public calls ever sets the full flag. *)
Theorem zero_limits :
  forall type topic qos,
    let h := DataReaderHistory type topic qos in
    let h_spelled := DataReaderHistory type topic (with_limits_spelled_out qos) in
    (max_samples (resource_limits qos) = 0 ->
     max_samples (resource_limited_qos_ h) = Int.int32_max) /\
    (max_instances (resource_limits qos) = 0 ->
     max_instances (resource_limited_qos_ h) = Int.int32_max) /\
    (max_samples_per_instance (resource_limits qos) = 0 ->
     max_samples_per_instance (resource_limited_qos_ h) = Int.int32_max) /\
    (resource_limited_qos_ h = resource_limited_qos_ h_spelled /\
     history_qos_ h = history_qos_ h_spelled /\
     has_keys_ h = has_keys_ h_spelled /\
     type_ h = type_ h_spelled /\
     receive_fn_ h = receive_fn_ h_spelled) /\
    maximumReservedCaches (m_att h) =
      match history_kind (history qos) with
      | KEEP_ALL_HISTORY_QOS => max_samples (resource_limits qos)
      | KEEP_LAST_HISTORY_QOS =>
          if m_isGetKeyDefined type
          then Int.wrap32 (depth (history qos) * max_instances (resource_limits qos))
          else depth (history qos)
      end /\
    (history_kind (history qos) = KEEP_ALL_HISTORY_QOS ->
     max_samples (resource_limits qos) = 0 -> max_total_samples h = 0) /\
    (history_kind (history qos) = KEEP_LAST_HISTORY_QOS ->
     m_isGetKeyDefined type = true ->
     max_instances (resource_limits qos) = 0 -> max_total_samples h = 0) /\
    (max_total_samples h = 0 ->
     forall r ops h',
       after_all ops (attach r h) = Some h' -> m_isHistoryFull h' = false).
Proof.
  intros type topic qos h h_spelled.
  split; [ | split; [ | split; [ | split; [ | split; [ | split; [ | split ] ] ] ] ] ].
  - intros E. simpl. rewrite E. reflexivity.
  - intros E. simpl. rewrite E. reflexivity.
  - intros E. simpl. rewrite E. reflexivity.
  - simpl. rewrite !unlimited_if_zero_idem. repeat split; reflexivity.
  - simpl. unfold to_history_attributes.
    destruct (history_kind (history qos)); [ | reflexivity ].
    destruct (m_isGetKeyDefined type); reflexivity.
  - intros Ek Ez. unfold max_total_samples. simpl. unfold to_history_attributes.
    rewrite Ek. simpl. rewrite Ez. reflexivity.
  - intros Ek Ekey Ez. unfold max_total_samples. simpl. unfold to_history_attributes.
    rewrite Ek, Ekey. simpl. rewrite Ez, Z.mul_0_r. reflexivity.
  - intros Hz r ops h' E. apply after_all_step in E. destruct E as [F U _].
    apply full_inv_capacity_zero.
    + rewrite (max_total_samples_frame _ _ F). exact Hz.
    + apply U. split; [ discriminate | ]. intros Hnz. exfalso. apply Hnz. exact Hz.
Qed.

Lemma zero_limits_witness :
  let h := DataReaderHistory Scenario.keyed_type Scenario.topic
             (Scenario.qos KEEP_LAST_HISTORY_QOS 1 5000 0 400) in
  max_instances (resource_limited_qos_ h) = Int.int32_max /\
  max_total_samples h = 0 /\
  option_map m_isHistoryFull
    (after_all [call_received_change Reclaim.a1 0; call_received_change Reclaim.b1 0]
       (attach Scenario.reader h))
  = Some false.
Proof.
  pose proof (zero_limits Scenario.keyed_type Scenario.topic
                (Scenario.qos KEEP_LAST_HISTORY_QOS 1 5000 0 400)) as H.
  destruct H as (_ & Hi & _ & _ & _ & _ & Hcap & Hnever).
  split; [ exact (Hi eq_refl) | ].
  split; [ exact (Hcap eq_refl eq_refl eq_refl) | ].
  destruct (after_all
              [call_received_change Reclaim.a1 0; call_received_change Reclaim.b1 0]
              (attach Scenario.reader
                 (DataReaderHistory Scenario.keyed_type Scenario.topic
                    (Scenario.qos KEEP_LAST_HISTORY_QOS 1 5000 0 400)))) as [h' | ] eqn:E.
  - simpl. f_equal.
    exact (Hnever (Hcap eq_refl eq_refl eq_refl) Scenario.reader _ h' E).
  - vm_compute in E. discriminate E.
Defined.

(** ** C8 and C10: the next deadline of a keyed history *)

Lemma fold_earlier_entry r x :
  let m := fold_left earlier_entry r x in
  (m = x \/ In m r) /\
  next_deadline_us (snd m) <= next_deadline_us (snd x) /\
  (forall y, In y r -> next_deadline_us (snd m) <= next_deadline_us (snd y)).
Proof.
  revert x. induction r as [ | y r IH]; intros x; simpl.
  - split; [ auto | ]. split; [ lia | contradiction ].
  - destruct (IH (earlier_entry x y)) as (Hin & Hle & Hall).
    assert (Hxy : next_deadline_us (snd (earlier_entry x y)) <= next_deadline_us (snd x) /\
                  next_deadline_us (snd (earlier_entry x y)) <= next_deadline_us (snd y)).
    { unfold earlier_entry.
      destruct (next_deadline_us (snd y) <? next_deadline_us (snd x)) eqn:E;
        [ apply Z.ltb_lt in E | apply Z.ltb_ge in E ]; lia. }
    split; [ | split ].
    + destruct Hin as [Hin | Hin]; [ | auto ].
      rewrite Hin. unfold earlier_entry.
      destruct (next_deadline_us (snd y) <? next_deadline_us (snd x)); auto.
    + lia.
    + intros z [<- | Hz]; [ lia | auto ].
Qed.

Lemma min_element_spec t :
  t <> [] ->
  exists m,
    min_element t = Some m /\ In m t /\
    (forall y, In y t -> next_deadline_us (snd m) <= next_deadline_us (snd y)).
Proof.
  destruct t as [ | x r]; [ congruence | ]. intros _.
  pose proof (fold_earlier_entry r x) as (Hin & Hle & Hall).
  exists (fold_left earlier_entry r x). split; [ reflexivity | ].
  split; [ simpl; destruct Hin; auto | ].
  intros y [<- | Hy]; auto.
Qed.

Lemma get_next_deadline_keyed_Ret h handle next_deadline :
  not_created h = false ->
  has_keys_ h = true ->
  keyed_changes_ h <> [] ->
  exists k e,
    get_next_deadline handle next_deadline h = Ret (true, k, next_deadline_us e) h [] /\
    In (k, e) (keyed_changes_ h) /\
    (forall k' e', In (k', e') (keyed_changes_ h) ->
                   next_deadline_us e <= next_deadline_us e').
Proof.
  intros Hnc Hk Hne.
  destruct (min_element_spec _ Hne) as ([k e] & Emin & Hin & Hall).
  exists k, e. split; [ | split ].
  - unfold get_next_deadline. run_monad. rewrite Hnc, Hk. simpl. rewrite Emin. reflexivity.
  - exact Hin.
  - intros k' e' Hin'. apply (Hall (k', e') Hin').
Qed.

(** C8.  On a keyed history with at least one instance, [get_next_deadline]
    returns true and yields the handle and the deadline of an entry of the
    instance table whose [next_deadline_us] no entry is below; the history is
    not changed.  After the deadlines of [A], [B] and [C] are set to 100, 50
    and 75 it yields [(B, 50)]. *)
Theorem get_next_deadline_keyed_minimum :
  (forall h handle next_deadline,
      not_created h = false ->
      has_keys_ h = true ->
      keyed_changes_ h <> [] ->
      exists k e,
        get_next_deadline handle next_deadline h = Ret (true, k, next_deadline_us e) h [] /\
        In (k, e) (keyed_changes_ h) /\
        (forall k' e', In (k', e') (keyed_changes_ h) ->
                       next_deadline_us e <= next_deadline_us e')) /\
  returned (Deadlines.deadlines Deadlines.three_instances) = Some (true, Scenario.B, 50).
Proof.
  split; [ | reflexivity ].
  intros h handle next_deadline. apply get_next_deadline_keyed_Ret.
Qed.

Lemma get_next_deadline_keyed_minimum_witness :
  exists k e,
    get_next_deadline c_InstanceHandle_Unknown 0 Reclaim.A_taken
    = Ret (true, k, next_deadline_us e) Reclaim.A_taken [] /\
    In (k, e) (keyed_changes_ Reclaim.A_taken) /\
    (forall k' e', In (k', e') (keyed_changes_ Reclaim.A_taken) ->
                   next_deadline_us e <= next_deadline_us e').
Proof.
  apply (proj1 get_next_deadline_keyed_minimum Reclaim.A_taken c_InstanceHandle_Unknown 0).
  - reflexivity.
  - reflexivity.
  - discriminate.
Defined.

(** C10.  On a keyed history, [get_next_deadline] dereferences the result of
    [min_element] whatever it is: with an empty instance table that is the
    end iterator and the call does not return; with at least one entry the
    call returns true.  So the caller has to see to it that an instance
    exists. *)
Theorem get_next_deadline_keyed_needs_an_instance :
  forall h handle next_deadline,
    not_created h = false ->
    has_keys_ h = true ->
    (keyed_changes_ h = [] ->
     get_next_deadline handle next_deadline h = Fault EndDereference) /\
    (keyed_changes_ h <> [] ->
     exists k t, get_next_deadline handle next_deadline h = Ret (true, k, t) h []).
Proof.
  intros h handle next_deadline Hnc Hk. split.
  - intros E. unfold get_next_deadline. run_monad. rewrite Hnc, Hk. simpl.
    rewrite E. reflexivity.
  - intros Hne.
    destruct (get_next_deadline_keyed_Ret h handle next_deadline Hnc Hk Hne)
      as (k & e & E & _).
    exists k, (next_deadline_us e). exact E.
Qed.

Lemma get_next_deadline_keyed_needs_an_instance_witness :
  get_next_deadline c_InstanceHandle_Unknown 0 Deadlines.three_instances
  = Fault EndDereference.
Proof.
  apply (proj1 (get_next_deadline_keyed_needs_an_instance
                  Deadlines.three_instances c_InstanceHandle_Unknown 0 eq_refl eq_refl)).
  reflexivity.
Defined.

(** ** C9: the iterator of [remove_change_sub(change, it)] *)

Lemma remove_change_sub_it_no_key c it h :
  not_created h = false -> has_keys_ h = false ->
  remove_change_sub_it c it h =
  match find_index (ptr_eqb c) (m_changes h) with
  | Some i =>
      Ret (true, {| it_vector := changes_vector; it_pos := i |})
        (set_m_isHistoryFull false (set_m_changes (erase_at i (m_changes h)) h)) []
  | None =>
      Ret (false, it) h
        [ {| log_level := Info; log_category := RTPS_WRITER_HISTORY;
             log_text := "Trying to remove a change not in history" |} ]
  end.
Proof.
  intros Hnc Hk.
  unfold remove_change_sub_it, find_change_nts, changesEnd, remove_change_nts,
    ReaderHistory_remove_change_nts.
  run_monad. rewrite Hnc, Hk. simpl.
  destruct (find_index (ptr_eqb c) (m_changes h)) as [i | ] eqn:E.
  - pose proof (find_index_lt _ _ _ E) as Hlt.
    destruct (find_index_Some _ _ _ E) as (x & Hx & _).
    destruct (Nat.eqb i (List.length (m_changes h))) eqn:En;
      [ apply Nat.eqb_eq in En; lia | ].
    simpl. rewrite Hx, Hk, andb_false_r. simpl. rewrite Hx. reflexivity.
  - rewrite Nat.eqb_refl. reflexivity.
Qed.

Lemma find_key_present c h e :
  map_find (instanceHandle c) (keyed_changes_ h) = Some e ->
  find_key c h = Ret (Some (instanceHandle c)) h [].
Proof. intros E. unfold find_key. run_monad. rewrite E. reflexivity. Qed.

Lemma remove_change_sub_it_keyed_position c it h b it' h' out e j :
  has_keys_ h = true ->
  remove_change_sub_it c it h = Ret (b, it') h' out ->
  not_created h = false ->
  map_find (instanceHandle c) (keyed_changes_ h) = Some e ->
  scan_instance c e = Some j ->
  it = {| it_vector := instance_vector (instanceHandle c); it_pos := j |}.
Proof.
  intros Hk H Hnc He Hj. unfold remove_change_sub_it in H.
  apply bind_Ret in H. destruct H as (nc & h1 & o1 & o2 & H1 & H & _).
  apply gets_Ret in H1. destruct H1 as (-> & -> & _). rewrite Hnc in H.
  apply bind_Ret in H. destruct H as (keys & h1 & o3 & o4 & H1 & H & _).
  apply gets_Ret in H1. destruct H1 as (-> & -> & _). rewrite Hk in H.
  apply bind_Ret in H. destruct H as (it1 & h1 & o5 & o6 & H1 & _ & _).
  apply bind_Ret in H1. destruct H1 as (vit & h2 & o7 & o8 & H1 & H2 & _).
  rewrite (find_key_present _ _ _ He) in H1. injection H1 as <- <- <-.
  apply bind_Ret in H2. destruct H2 as ([found it2] & h3 & o9 & o10 & H2 & _ & _).
  apply bind_Ret in H2. destruct H2 as (e' & h4 & o11 & o12 & H2 & H3 & _).
  apply deref_Ret in H2. destruct H2 as (-> & He'). rewrite He in He'.
  injection He' as <-. rewrite Hj in H3.
  destruct (iterator_eqb it
              {| it_vector := instance_vector (instanceHandle c); it_pos := j |}) eqn:Eit.
  - apply iterator_eqb_eq. exact Eit.
  - apply raise_Ret in H3. contradiction.
Qed.

Lemma map_find_adjust f k t : map_find k (map_adjust f k t) = option_map f (map_find k t).
Proof.
  induction t as [ | [k' e'] r IH]; simpl; [ reflexivity | ].
  destruct (N.eqb k k') eqn:Ek; simpl; rewrite Ek; [ reflexivity | exact IH ].
Qed.

Lemma map_find_adjust_other f k k' t :
  k' <> k -> map_find k' (map_adjust f k t) = map_find k' t.
Proof.
  intros Hne. induction t as [ | [k1 e1] r IH]; simpl; [ reflexivity | ].
  destruct (N.eqb k k1) eqn:Ek; simpl.
  - apply N.eqb_eq in Ek. subst k1.
    destruct (N.eqb k' k) eqn:E'; [ apply N.eqb_eq in E'; congruence | reflexivity ].
  - destruct (N.eqb k' k1); [ reflexivity | exact IH ].
Qed.

(** What a successful keyed [remove_change_sub(change, it)] removes: from
    the store the element at the position of the pointer, from the instance
    of the change the first element with its sequence number and writer, and
    then, through [remove_change_nts], every pointer to the stored element
    from the instance entry of that element's handle. *)
Lemma remove_change_sub_it_keyed_run c it h it' h' out e j :
  has_keys_ h = true ->
  not_created h = false ->
  map_find (instanceHandle c) (keyed_changes_ h) = Some e ->
  scan_instance c e = Some j ->
  remove_change_sub_it c it h = Ret (true, it') h' out ->
  exists i p,
    find_index (ptr_eqb c) (m_changes h) = Some i /\
    nth_error (m_changes h) i = Some p /\
    ptr_eqb c p = true /\
    m_changes h' = erase_at i (m_changes h) /\
    m_isHistoryFull h' = false /\
    keyed_changes_ h' =
    (if isDefined (instanceHandle p)
     then map_adjust (scrub_change p) (instanceHandle p)
     else fun t => t)
      (map_adjust (erase_change j) (instanceHandle c) (keyed_changes_ h)).
Proof.
  intros Hk Hnc He Hj.
  unfold remove_change_sub_it, bind, gets.
  rewrite Hnc, Hk, (find_key_present c h e He).
  unfold deref. rewrite He, Hj.
  destruct (iterator_eqb it _); [ | simpl; discriminate ].
  unfold erase_in_instance, find_change_nts, changesEnd, modify, ret, gets. simpl.
  destruct (find_index (ptr_eqb c) (m_changes h)) as [i | ] eqn:Ei.
  - pose proof (find_index_lt _ _ _ Ei) as Hlt.
    destruct (find_index_Some _ _ _ Ei) as (p & Hp & Hptr).
    assert (En : Nat.eqb i (List.length (m_changes h)) = false)
      by (apply Nat.eqb_neq; lia).
    rewrite En. simpl.
    unfold remove_change_nts, ReaderHistory_remove_change_nts, changesEnd, bind, gets,
      modify, ret. simpl. rewrite Hp, Hk.
    destruct (isDefined (instanceHandle p)) eqn:Ed; simpl.
    + destruct (map_find (instanceHandle p) _) eqn:Ef; simpl; [ | discriminate ].
      rewrite Hp. simpl. intros H. injection H as _ <- _. simpl.
      exists i, p. rewrite Ed.
      repeat (split; [ reflexivity || assumption | ]). reflexivity.
    + rewrite Hp. simpl. intros H. injection H as _ <- _. simpl.
      exists i, p. rewrite Ed.
      repeat (split; [ reflexivity || assumption | ]). reflexivity.
  - rewrite Nat.eqb_refl. simpl. discriminate.
Qed.

Lemma filter_without p (v : list CacheChange_t) :
  (forall q, In q v -> ptr_eqb q p = false) ->
  filter (fun q => negb (ptr_eqb q p)) v = v.
Proof.
  induction v as [ | x r IH]; simpl; intros H; [ reflexivity | ].
  rewrite (H x (or_introl eq_refl)). simpl. rewrite IH; auto.
Qed.

(** On a keyed history the iterator is one into the instance's
    [cache_changes]: removing [a1] from the store [a1; b1; a2] leaves it at
    position 0 of the list of [A], which designates [a2], while the position
    of the change store that follows the removed element is the one of [b1].
    With an iterator into the change store the assertion [it == chit]
    fails. *)
Lemma keyed_iterator_refuted :
  let it_A := {| it_vector := instance_vector Scenario.A; it_pos := 0 |} in
  let it_store := {| it_vector := changes_vector; it_pos := 0 |} in
  let r := remove_change_sub_it KeyedRemoval.a1 it_A KeyedRemoval.held in
  returned r = Some (true, it_A) /\
  option_map m_changes (final_state r) = Some [KeyedRemoval.b1; KeyedRemoval.a2] /\
  option_map (fun h => map_find Scenario.A (keyed_changes_ h)) (final_state r)
  = Some (Some {| cache_changes := [KeyedRemoval.a2]; next_deadline_us := 0 |}) /\
  it_A <> it_store /\
  remove_change_sub_it KeyedRemoval.a1 it_store KeyedRemoval.held = Fault AssertionFailed.
Proof.
  repeat split; try reflexivity. discriminate.
Qed.

(** C9 (amended).  On an unkeyed history, [remove_change_sub(change, it)]
    returns true exactly when the change is in the store; it then removes
    the change and leaves [it] at the position of the change store where the
    change was, which now holds the element that followed it (or is the end),
    the elements before it being untouched.  On a keyed history the iterator
    is not one into the change store: when the call returns true the change
    is removed from the store and [it] is where it was, and when the change
    is listed in its instance, [it] is asserted to be the position of the
    change in that instance's [cache_changes].  In that case the store loses
    the element at the position of the pointer, the instance list loses the
    element at the asserted position (the first with the sequence number and
    writer of the change), so that the position designates the element that
    followed, the elements before it being untouched; [remove_change_nts]
    then takes every remaining pointer to the stored element out of the entry
    of its handle, and when the list holds no other pointer to the change the
    entry is the old one with that one position erased. *)
Theorem remove_change_sub_it_iterator :
  (forall h c it,
      not_created h = false ->
      has_keys_ h = false ->
      (forall i,
          find_index (ptr_eqb c) (m_changes h) = Some i ->
          remove_change_sub_it c it h
          = Ret (true, {| it_vector := changes_vector; it_pos := i |})
              (set_m_isHistoryFull false (set_m_changes (erase_at i (m_changes h)) h)) [] /\
          (exists x, nth_error (m_changes h) i = Some x /\ ptr_eqb c x = true) /\
          nth_error (erase_at i (m_changes h)) i = nth_error (m_changes h) (S i) /\
          (forall j, (j < i)%nat ->
                     nth_error (erase_at i (m_changes h)) j = nth_error (m_changes h) j)) /\
      (find_index (ptr_eqb c) (m_changes h) = None ->
       exists out, remove_change_sub_it c it h = Ret (false, it) h out)) /\
  (forall h c it it' h' out,
      has_keys_ h = true ->
      remove_change_sub_it c it h = Ret (true, it') h' out ->
      it' = it /\
      store_removed h h' /\
      (forall e j,
          map_find (instanceHandle c) (keyed_changes_ h) = Some e ->
          scan_instance c e = Some j ->
          it = {| it_vector := instance_vector (instanceHandle c); it_pos := j |})) /\
  (forall h c it it' h' out e j,
      has_keys_ h = true ->
      remove_change_sub_it c it h = Ret (true, it') h' out ->
      map_find (instanceHandle c) (keyed_changes_ h) = Some e ->
      scan_instance c e = Some j ->
      it' = {| it_vector := instance_vector (instanceHandle c); it_pos := j |} /\
      (exists q, nth_error (cache_changes e) j = Some q /\ same_identity q c = true) /\
      (exists i p,
          find_index (ptr_eqb c) (m_changes h) = Some i /\
          nth_error (m_changes h) i = Some p /\
          ptr_eqb c p = true /\
          m_changes h' = erase_at i (m_changes h) /\
          m_isHistoryFull h' = false /\
          keyed_changes_ h' =
          (if isDefined (instanceHandle p)
           then map_adjust (scrub_change p) (instanceHandle p)
           else fun t => t)
            (map_adjust (erase_change j) (instanceHandle c) (keyed_changes_ h))) /\
      nth_error (erase_at j (cache_changes e)) j = nth_error (cache_changes e) (S j) /\
      (forall j', (j' < j)%nat ->
                  nth_error (erase_at j (cache_changes e)) j' = nth_error (cache_changes e) j') /\
      ((forall q, In q (erase_at j (cache_changes e)) -> ptr_eqb q c = false) ->
       map_find (instanceHandle c) (keyed_changes_ h')
       = Some {| cache_changes := erase_at j (cache_changes e);
                 next_deadline_us := next_deadline_us e |})).
Proof.
  split; [ | split ].
  - intros h c it Hnc Hk. rewrite (remove_change_sub_it_no_key _ _ _ Hnc Hk). split.
    + intros i E. rewrite E. split; [ reflexivity | ].
      split; [ apply find_index_Some in E; exact E | ].
      split; [ apply nth_error_erase_at | ].
      intros j Hj. apply nth_error_erase_at_before. exact Hj.
    + intros E. rewrite E. eexists. reflexivity.
  - intros h c it it' h' out Hk H.
    pose proof (remove_change_sub_it_summary _ _ _ _ _ _ _ H) as (_ & _ & Hrem & Hit).
    split; [ auto | ]. split; [ auto | ].
    intros e j He Hj.
    destruct (not_created h) eqn:Hnc.
    + unfold remove_change_sub_it in H. revert H. run_monad. rewrite Hnc. discriminate.
    + eapply remove_change_sub_it_keyed_position; eauto.
  - intros h c it it' h' out e j Hk H He Hj.
    assert (Hnc : not_created h = false).
    { destruct (not_created h) eqn:Hnc; [ | reflexivity ].
      unfold remove_change_sub_it in H. revert H. run_monad. rewrite Hnc. discriminate. }
    pose proof (remove_change_sub_it_summary _ _ _ _ _ _ _ H) as (_ & _ & _ & Hit).
    pose proof (remove_change_sub_it_keyed_position _ _ _ _ _ _ _ _ _ Hk H Hnc He Hj) as Eit.
    destruct (remove_change_sub_it_keyed_run _ _ _ _ _ _ _ _ Hk Hnc He Hj H)
      as (i & p & Ei & Hp & Hptr & Em & Ef & Et).
    split; [ rewrite (Hit Hk); exact Eit | ].
    split; [ apply find_index_Some in Hj; exact Hj | ].
    split; [ exists i, p; split; [ exact Ei | split; [ exact Hp | split; [ exact Hptr |
             split; [ exact Em | split; [ exact Ef | exact Et ] ] ] ] ] | ].
    split; [ apply nth_error_erase_at | ].
    split; [ intros j' Hj'; apply nth_error_erase_at_before; exact Hj' | ].
    intros Hnone. rewrite Et.
    assert (E1 : map_find (instanceHandle c)
                   (map_adjust (erase_change j) (instanceHandle c) (keyed_changes_ h))
                 = Some {| cache_changes := erase_at j (cache_changes e);
                           next_deadline_us := next_deadline_us e |}).
    { rewrite map_find_adjust, He. reflexivity. }
    destruct (isDefined (instanceHandle p)); [ | exact E1 ].
    destruct (N.eq_dec (instanceHandle c) (instanceHandle p)) as [Ek | Hne].
    + rewrite <- Ek, map_find_adjust, E1. unfold scrub_change, set_cache_changes. simpl.
      rewrite filter_without; [ reflexivity | ].
      intros q Hq. rewrite <- (Hnone q Hq). unfold ptr_eqb in *.
      apply Nat.eqb_eq in Hptr. rewrite Hptr. reflexivity.
    + rewrite map_find_adjust_other by exact Hne. exact E1.
Qed.

Lemma remove_change_sub_it_iterator_witness :
  remove_change_sub_it Scenario.s2 {| it_vector := changes_vector; it_pos := 1 |}
    Capacity.three_held
  = Ret (true, {| it_vector := changes_vector; it_pos := 1 |})
      (set_m_isHistoryFull false (set_m_changes [Scenario.s1; Scenario.s3] Capacity.three_held))
      [] /\
  map_find Scenario.A
    (keyed_changes_
       (set_m_isHistoryFull false
          (set_keyed_changes_
             [ (Scenario.A,
                {| cache_changes := [KeyedRemoval.a2]; next_deadline_us := 0 |});
               (Scenario.B,
                {| cache_changes := [KeyedRemoval.b1]; next_deadline_us := 0 |}) ]
             (set_m_changes [KeyedRemoval.b1; KeyedRemoval.a2] KeyedRemoval.held))))
  = Some {| cache_changes := erase_at 0 [KeyedRemoval.a1; KeyedRemoval.a2];
            next_deadline_us := 0 |}.
Proof.
  split.
  - assert (Hnc : not_created Capacity.three_held = false) by reflexivity.
    assert (Hk : has_keys_ Capacity.three_held = false) by reflexivity.
    assert (Hi : find_index (ptr_eqb Scenario.s2) (m_changes Capacity.three_held)
                 = Some 1%nat) by reflexivity.
    pose proof (proj1 remove_change_sub_it_iterator Capacity.three_held Scenario.s2
                  {| it_vector := changes_vector; it_pos := 1 |} Hnc Hk) as (H & _).
    destruct (H 1%nat Hi) as (E & _). exact E.
  - assert (Hk : has_keys_ KeyedRemoval.held = true) by reflexivity.
    assert (Hr : remove_change_sub_it KeyedRemoval.a1
                   {| it_vector := instance_vector Scenario.A; it_pos := 0 |} KeyedRemoval.held
                 = Ret (true, {| it_vector := instance_vector Scenario.A; it_pos := 0 |})
                     (set_m_isHistoryFull false
                        (set_keyed_changes_
                           [ (Scenario.A,
                              {| cache_changes := [KeyedRemoval.a2]; next_deadline_us := 0 |});
                             (Scenario.B,
                              {| cache_changes := [KeyedRemoval.b1]; next_deadline_us := 0 |}) ]
                           (set_m_changes [KeyedRemoval.b1; KeyedRemoval.a2] KeyedRemoval.held)))
                     []) by reflexivity.
    assert (He : map_find (instanceHandle KeyedRemoval.a1) (keyed_changes_ KeyedRemoval.held)
                 = Some {| cache_changes := [KeyedRemoval.a1; KeyedRemoval.a2];
                           next_deadline_us := 0 |}) by reflexivity.
    assert (Hj : scan_instance KeyedRemoval.a1
                   {| cache_changes := [KeyedRemoval.a1; KeyedRemoval.a2];
                      next_deadline_us := 0 |} = Some 0%nat) by reflexivity.
    assert (Hq : forall q,
               In q (erase_at 0 (cache_changes
                                   {| cache_changes := [KeyedRemoval.a1; KeyedRemoval.a2];
                                      next_deadline_us := 0 |})) ->
               ptr_eqb q KeyedRemoval.a1 = false).
    { simpl. intros q [<- | []]. reflexivity. }
    pose proof (proj2 (proj2 remove_change_sub_it_iterator) _ _ _ _ _ _ _ _ Hk Hr He Hj)
      as (_ & _ & _ & _ & _ & E).
    exact (E Hq).
Defined.

(** ** C2: rejected samples *)





Lemma map_find_In k t e : map_find k t = Some e -> In (k, e) t.
Proof.
  induction t as [ | [k' e'] r IH]; simpl; intros E; [ discriminate | ].
  destruct (N.eqb k k') eqn:Ek.
  - apply N.eqb_eq in Ek. injection E as <-. subst. auto.
  - auto.
Qed.








(** * Further properties of the member functions *)

(** ** How calls rewrite the instance table *)

Lemma table_shrinks_trans t1 t2 t3 :
  table_shrinks t1 t2 -> table_shrinks t2 t3 -> table_shrinks t1 t3.
Proof.
  induction 1 as [ | ? ? ? Hm _ IH]; intros H; [ exact H | ].
  eapply shrinks_step; [ exact Hm | auto ].
Qed.

Lemma table_shrinks_move t1 t2 : table_move t1 t2 -> table_shrinks t1 t2.
Proof. intros Hm. eapply shrinks_step; [ exact Hm | apply shrinks_refl ]. Qed.

Lemma In_map_insert p k e t : In p (map_insert k e t) -> p = (k, e) \/ In p t.
Proof.
  induction t as [ | [k' e'] r IH]; simpl.
  - intros [<- | []]. auto.
  - destruct (N.ltb k k'); simpl.
    + intros [<- | H]; auto.
    + destruct (N.eqb k k'); simpl; [ auto | ].
      intros [<- | H]; [ auto | ]. destruct (IH H); auto.
Qed.

Lemma In_erase_at {A} (x : A) i v : In x (erase_at i v) -> In x v.
Proof.
  revert i. induction v as [ | y r IH]; intros i; [ destruct i; auto | ].
  destruct i; simpl; [ auto | ]. intros [<- | H]; eauto.
Qed.

Lemma In_map_adjust p f k t :
  In p (map_adjust f k t) ->
  In p t \/ exists e, In (k, e) t /\ p = (k, f e).
Proof.
  induction t as [ | [k' e'] r IH]; simpl; [ auto | ].
  destruct (N.eqb k k') eqn:Ek; simpl.
  - apply N.eqb_eq in Ek. subst k'. intros [<- | H]; [ right; exists e'; auto | auto ].
  - intros [<- | H]; [ auto | ].
    destruct (IH H) as [ | (e & He & ->) ]; [ auto | right; exists e; auto ].
Qed.

Lemma table_all_In Q t : table_all Q t <-> forall k e, In (k, e) t -> Q k e.
Proof.
  unfold table_all. rewrite Forall_forall. split.
  - intros H k e Hin. apply (H (k, e) Hin).
  - intros H [k e] Hin. apply H. exact Hin.
Qed.

(** A property of entries that no rewrite of an entry breaks is kept by
    every move of the table. *)
Lemma table_all_shrinks (Q : InstanceHandle_t -> KeyedChanges -> Prop) :
  (forall k, Q k KeyedChanges_default) ->
  (forall k e i, Q k e -> Q k (erase_change i e)) ->
  (forall k e p, Q k e -> Q k (scrub_change p e)) ->
  (forall k e d, Q k e -> Q k (set_entry_deadline d e)) ->
  forall t t', table_shrinks t t' -> table_all Q t -> table_all Q t'.
Proof.
  intros Hd He Hs Ht t t' H. induction H as [ | t1 t2 t3 Hm _ IH]; [ auto | ].
  intros Hall. apply IH. clear IH. rewrite table_all_In in *.
  destruct Hm; intros k' e' Hin.
  - apply In_map_insert in Hin. destruct Hin as [E | Hin]; [ | auto ].
    injection E as -> ->. apply Hd.
  - apply In_erase_at in Hin. auto.
  - apply In_map_adjust in Hin. destruct Hin as [ | (e & Hin & E) ]; [ auto | ].
    injection E as -> ->. auto.
  - apply In_map_adjust in Hin. destruct Hin as [ | (e & Hin & E) ]; [ auto | ].
    injection E as -> ->. auto.
  - apply In_map_adjust in Hin. destruct Hin as [ | (e & Hin & E) ]; [ auto | ].
    injection E as -> ->. auto.
Qed.

Lemma length_filter_le {A} (p : A -> bool) v : (List.length (filter p v) <= List.length v)%nat.
Proof. induction v as [ | x r IH]; simpl; [ lia | ]. destruct (p x); simpl; lia. Qed.

Lemma length_erase_at_le {A} i (v : list A) : (List.length (erase_at i v) <= List.length v)%nat.
Proof.
  revert i. induction v as [ | x r IH]; intros i; [ destruct i; simpl; lia | ].
  destruct i; simpl; [ lia | ]. specialize (IH i). lia.
Qed.

Lemma sizes_within_shrinks n t t' :
  0 <= n -> table_shrinks t t' -> sizes_within n t -> sizes_within n t'.
Proof.
  intros Hn. unfold sizes_within. apply table_all_shrinks.
  - intros _. exact Hn.
  - intros _ e i H. unfold erase_change, vsize in *. simpl.
    pose proof (length_erase_at_le i (cache_changes e)). lia.
  - intros _ e p H. unfold scrub_change, vsize in *. simpl.
    pose proof (length_filter_le (fun q => negb (ptr_eqb q p)) (cache_changes e)). lia.
  - intros _ e d H. exact H.
Qed.

Lemma keys_consistent_shrinks t t' :
  table_shrinks t t' -> keys_consistent t -> keys_consistent t'.
Proof.
  unfold keys_consistent. apply table_all_shrinks.
  - intros k. constructor.
  - intros k e i H. unfold erase_change. simpl. rewrite Forall_forall in *.
    intros c Hc. apply H. eapply In_erase_at. exact Hc.
  - intros k e p H. unfold scrub_change. simpl. rewrite Forall_forall in *.
    intros c Hc. apply filter_In in Hc. apply H. apply Hc.
  - intros k e d H. exact H.
Qed.

Lemma find_key_shrinks c h r h' o :
  find_key c h = Ret r h' o -> table_shrinks (keyed_changes_ h) (keyed_changes_ h').
Proof.
  unfold find_key. intros H. inv_run; simpl.
  - apply shrinks_refl.
  - apply table_shrinks_move. apply move_insert.
  - eapply shrinks_step; [ apply move_reclaim; eassumption | ].
    apply table_shrinks_move. apply move_insert.
  - apply shrinks_refl.
Qed.

Lemma find_key_for_change_shrinks c h r c' h' o :
  find_key_for_change c h = Ret (r, c') h' o ->
  table_shrinks (keyed_changes_ h) (keyed_changes_ h').
Proof.
  unfold find_key_for_change. intros H. inv_run; try apply shrinks_refl.
  all: eapply find_key_shrinks; eassumption.
Qed.

Lemma erase_in_instance_table k i a h h' o :
  erase_in_instance k i h = Ret a h' o ->
  keyed_changes_ h' = map_adjust (erase_change i) k (keyed_changes_ h).
Proof. unfold erase_in_instance. intros H. inv_run. reflexivity. Qed.

Lemma remove_change_nts_shrinks i rel h j h' o :
  remove_change_nts i rel h = Ret j h' o ->
  table_shrinks (keyed_changes_ h) (keyed_changes_ h').
Proof.
  unfold remove_change_nts. intros H. inv_run.
  all: match goal with
       | E : ReaderHistory_remove_change_nts _ _ _ = Ret _ _ _ |- _ =>
           apply ReaderHistory_remove_change_nts_summary in E;
           destruct E as (_ & Ek & _)
       end.
  all: rewrite Ek; simpl.
  - apply table_shrinks_move. apply (move_scrub (instanceHandle c) c).
  - apply shrinks_refl.
  - apply shrinks_refl.
Qed.

Ltac use_table_lemmas :=
  repeat match goal with
    | H : find_key _ _ = Ret _ _ _ |- _ => apply find_key_shrinks in H
    | H : find_key_for_change _ _ = Ret _ _ _ |- _ => apply find_key_for_change_shrinks in H
    | H : deref _ _ = Ret _ _ _ |- _ => apply deref_Ret in H; destruct H as (? & _)
    | H : at_ _ _ _ = Ret _ _ _ |- _ => apply at_Ret in H; destruct H as (? & _)
    | H : erase_in_instance _ _ _ = Ret _ _ _ |- _ => apply erase_in_instance_table in H
    | H : remove_change _ _ = Ret _ _ _ |- _ =>
        apply remove_change_summary in H; destruct H as (_ & ? & _)
    | H : find_change_nts _ _ = Ret _ _ _ |- _ =>
        apply find_change_nts_Ret in H; destruct H as (? & _)
    | H : remove_change_nts _ _ _ = Ret _ _ _ |- _ => apply remove_change_nts_shrinks in H
    | H : add_received_change _ _ = Ret _ _ _ |- _ =>
        rewrite add_received_change_eq in H;
        match type of H with
        | (if ?b then _ else _) = _ => destruct b; injection H as <- <- <-
        end
    | _ => progress subst
    end.

(** Close a goal [table_shrinks t t'] from the rewrites collected in the
    hypotheses. *)
Ltac chain_shrinks :=
  simpl in *;
  repeat match goal with
    | H : keyed_changes_ ?h' = keyed_changes_ ?h |- _ => rewrite H in *; clear H
    | H : keyed_changes_ ?h' = map_adjust (erase_change ?i) ?k ?t |- _ =>
        let M := fresh "M" in
        assert (M : table_shrinks t (keyed_changes_ h'))
          by (rewrite H; apply table_shrinks_move; apply move_erase);
        clear H
    end;
  rewrite ?keyed_changes_appended;
  repeat first
    [ apply shrinks_refl
    | eassumption
    | eapply table_shrinks_trans; [ eassumption | ] ].

Lemma remove_change_sub_shrinks c h b h' o :
  remove_change_sub c h = Ret b h' o ->
  table_shrinks (keyed_changes_ h) (keyed_changes_ h').
Proof.
  unfold remove_change_sub. intros H. inv_run; use_table_lemmas; chain_shrinks.
Qed.

Lemma remove_change_sub_it_shrinks c it h r h' o :
  remove_change_sub_it c it h = Ret r h' o ->
  table_shrinks (keyed_changes_ h) (keyed_changes_ h').
Proof.
  unfold remove_change_sub_it, changesEnd. intros H.
  inv_run; use_table_lemmas; chain_shrinks.
Qed.

Lemma set_next_deadline_shrinks k t h b h' o :
  set_next_deadline k t h = Ret b h' o ->
  table_shrinks (keyed_changes_ h) (keyed_changes_ h').
Proof.
  unfold set_next_deadline. intros H. inv_run; simpl; try apply shrinks_refl.
  apply table_shrinks_move. apply move_deadline.
Qed.

Lemma received_change_keep_all_no_key_shrinks c u h r h' o :
  received_change_keep_all_no_key c u h = Ret r h' o ->
  table_shrinks (keyed_changes_ h) (keyed_changes_ h').
Proof.
  unfold received_change_keep_all_no_key. intros H.
  inv_run; use_table_lemmas; chain_shrinks.
Qed.

Lemma received_change_keep_last_no_key_shrinks c u h r h' o :
  received_change_keep_last_no_key c u h = Ret r h' o ->
  table_shrinks (keyed_changes_ h) (keyed_changes_ h').
Proof.
  unfold received_change_keep_last_no_key. intros H. inv_run.
  all: repeat match goal with
         | H : remove_change_sub _ _ = Ret _ _ _ |- _ => apply remove_change_sub_shrinks in H
         end.
  all: use_table_lemmas; chain_shrinks.
Qed.

Lemma keyed_changes_appended_with_key c k h :
  keyed_changes_ (appended_with_key c k h)
  = map_adjust (push_back_change c) k (keyed_changes_ h).
Proof. unfold appended_with_key. simpl. rewrite keyed_changes_appended. reflexivity. Qed.

Lemma find_key_for_change_key c h k c' h' o :
  find_key_for_change c h = Ret (Some k, c') h' o ->
  k = instanceHandle c' /\ map_find k (keyed_changes_ h') <> None.
Proof.
  unfold find_key_for_change. intros H. inv_run; try discriminate.
  all: match goal with
       | H : find_key _ _ = Ret _ _ _ |- _ =>
           apply find_key_summary in H; destruct H as (_ & _ & _ & _ & _ & Hk);
           destruct (Hk _ eq_refl); auto
       end.
Qed.

Lemma table_all_adjust_found (Q : InstanceHandle_t -> KeyedChanges -> Prop) f k t e :
  table_all Q t -> map_find k t = Some e -> Q k (f e) -> table_all Q (map_adjust f k t).
Proof.
  unfold table_all. induction t as [ | [k1 e1] r IH]; simpl; intros Hall Hf Hq;
    [ discriminate | ].
  inversion Hall as [ | ? ? H1 Hr]; subst.
  destruct (N.eqb k k1) eqn:Ek.
  - apply N.eqb_eq in Ek. subst k1. injection Hf as ->. constructor; auto.
  - constructor; auto.
Qed.

(** What a keyed admission does to the table: rewrites that add no sample,
    and then at most one [push_back] on the entry of the sample's handle. *)
Lemma received_change_keep_all_with_key_table c u h b c' h' o :
  received_change_keep_all_with_key c u h = Ret (b, c') h' o ->
  (b = false /\ table_shrinks (keyed_changes_ h) (keyed_changes_ h')) \/
  (b = true /\
   exists t1 e1,
     table_shrinks (keyed_changes_ h) t1 /\
     map_find (instanceHandle c') t1 = Some e1 /\
     vsize (cache_changes e1)
     < Int.to_size_t (max_samples_per_instance (resource_limited_qos_ h)) /\
     keyed_changes_ h' = map_adjust (push_back_change c') (instanceHandle c') t1).
Proof.
  unfold received_change_keep_all_with_key. intros H.
  apply bind_Ret in H. destruct H as ([vit c1] & h1 & o1 & o2 & Hf & H & _).
  pose proof (find_key_for_change_shrinks _ _ _ _ _ _ Hf) as Hs.
  pose proof (find_key_for_change_summary _ _ _ _ _ _ Hf) as ([F _ _] & _).
  destruct vit as [k | ].
  - destruct (find_key_for_change_key _ _ _ _ _ _ Hf) as (-> & _).
    apply bind_Ret in H. destruct H as (e & h2 & o3 & o4 & Hd & H & _).
    apply deref_Ret in Hd. destruct Hd as (-> & He).
    apply bind_Ret in H. destruct H as (limit & h2 & o5 & o6 & Hl & H & _).
    apply gets_Ret in Hl. destruct Hl as (-> & -> & _).
    apply frame_fields in F. destruct F as (_ & _ & Er & _). rewrite Er in H.
    destruct (vsize (cache_changes e) <?
              Int.to_size_t (max_samples_per_instance (resource_limited_qos_ h))) eqn:Elt.
    + apply bind_Ret in H. destruct H as (added & h3 & o7 & o8 & Ha & H & _).
      apply ret_Ret in H. destruct H as (E & -> & _). injection E as -> ->.
      rewrite add_received_change_with_key_eq in Ha.
      destruct (m_isHistoryFull h1);
        [ | destruct (mp_reader h1); [ | discriminate ] ]; injection Ha as <- <- _.
      * left. auto.
      * right. split; [ reflexivity | ]. exists (keyed_changes_ h1), e.
        apply Z.ltb_lt in Elt.
        rewrite keyed_changes_appended_with_key. auto.
    + inv_run. left. auto.
  - inv_run. left. auto.
Qed.

Lemma same_identity_refl c : same_identity c c = true.
Proof. unfold same_identity. rewrite Z.eqb_refl, N.eqb_refl. reflexivity. Qed.

Lemma scan_instance_oldest c e rest :
  cache_changes e = c :: rest -> scan_instance c e = Some 0%nat.
Proof.
  intros E. unfold scan_instance. rewrite E. simpl. rewrite same_identity_refl. reflexivity.
Qed.

(** On a keyed history, [remove_change_sub] erases the change from the entry
    of its handle whether or not the store then holds the change. *)
Lemma remove_change_sub_keyed_table x h e i b h' o :
  has_keys_ h = true ->
  not_created h = false ->
  map_find (instanceHandle x) (keyed_changes_ h) = Some e ->
  scan_instance x e = Some i ->
  remove_change_sub x h = Ret b h' o ->
  keyed_changes_ h' = map_adjust (erase_change i) (instanceHandle x) (keyed_changes_ h).
Proof.
  intros Hk Hnc He Hi H. unfold remove_change_sub in H.
  apply bind_Ret in H. destruct H as (nc & h1 & o1 & o2 & H1 & H & _).
  apply gets_Ret in H1. destruct H1 as (-> & -> & _). rewrite Hnc in H.
  apply bind_Ret in H. destruct H as (keys & h1 & o3 & o4 & H1 & H & _).
  apply gets_Ret in H1. destruct H1 as (-> & -> & _). rewrite Hk in H.
  apply bind_Ret in H. destruct H as (u1 & h1 & o5 & o6 & H1 & H & _).
  apply bind_Ret in H1. destruct H1 as (vit & h2 & o7 & o8 & H1 & H2 & _).
  rewrite (find_key_present _ _ _ He) in H1. injection H1 as <- <- <-.
  apply bind_Ret in H2. destruct H2 as (found & h3 & o9 & o10 & H2 & H3 & _).
  apply bind_Ret in H2. destruct H2 as (e' & h4 & o11 & o12 & H2 & H4 & _).
  apply deref_Ret in H2. destruct H2 as (-> & He'). rewrite He in He'.
  injection He' as <-. rewrite Hi in H4.
  apply bind_Ret in H4. destruct H4 as (u2 & h5 & o13 & o14 & H4 & H5 & _).
  apply erase_in_instance_table in H4.
  inv_run.
  all: match goal with
       | Hr : remove_change _ _ = Ret _ _ _ |- _ =>
           apply remove_change_summary in Hr; destruct Hr as (_ & Ek & _)
       end.
  all: simpl in *; congruence.
Qed.

Lemma received_change_keep_last_with_key_table c u h b c' h' o :
  received_change_keep_last_with_key c u h = Ret (b, c') h' o ->
  has_keys_ h = true ->
  not_created h = false ->
  0 < depth (history_qos_ h) < 18446744073709551616 ->
  keys_consistent (keyed_changes_ h) ->
  sizes_within (depth (history_qos_ h)) (keyed_changes_ h) ->
  (b = false /\ table_shrinks (keyed_changes_ h) (keyed_changes_ h')) \/
  (b = true /\
   exists t1 e1,
     table_shrinks (keyed_changes_ h) t1 /\
     map_find (instanceHandle c') t1 = Some e1 /\
     vsize (cache_changes e1) < depth (history_qos_ h) /\
     keyed_changes_ h' = map_adjust (push_back_change c') (instanceHandle c') t1).
Proof.
  unfold received_change_keep_last_with_key. intros H Hkeys Hnc Hd Hcons Hsz.
  apply bind_Ret in H. destruct H as ([vit c1] & h1 & o1 & o2 & Hf & H & _).
  pose proof (find_key_for_change_shrinks _ _ _ _ _ _ Hf) as Hs.
  pose proof (find_key_for_change_summary _ _ _ _ _ _ Hf) as ([F _ _] & _).
  pose proof (frame_fields _ _ F) as (_ & Eq & _ & Ekeys & _ & _ & Enc).
  destruct vit as [k | ]; [ | inv_run; left; auto ].
  destruct (find_key_for_change_key _ _ _ _ _ _ Hf) as (-> & _).
  apply bind_Ret in H. destruct H as (e & h2 & o3 & o4 & Hde & H & _).
  apply deref_Ret in Hde. destruct Hde as (-> & He).
  apply bind_Ret in H. destruct H as (d & h2 & o5 & o6 & Hl & H & _).
  apply gets_Ret in Hl. destruct Hl as (-> & -> & _). rewrite Eq in H.
  rewrite (to_size_t_small _ (conj (Z.lt_le_incl _ _ (proj1 Hd)) (proj2 Hd))) in H.
  apply bind_Ret in H. destruct H as (add & h2 & o7 & o8 & Hadd & H & _).
  assert (Hcons1 : keys_consistent (keyed_changes_ h1))
    by (eapply keys_consistent_shrinks; eauto).
  assert (Hsz1 : sizes_within (depth (history_qos_ h)) (keyed_changes_ h1))
    by (eapply sizes_within_shrinks; eauto; lia).
  pose proof (map_find_In _ _ _ He) as Hin.
  (* the entry the sample goes to, after a possible eviction *)
  assert (Hentry :
            table_shrinks (keyed_changes_ h1) (keyed_changes_ h2) /\
            (add = true ->
             exists e2, map_find (instanceHandle c1) (keyed_changes_ h2) = Some e2 /\
                        vsize (cache_changes e2) < depth (history_qos_ h))).
  { destruct (vsize (cache_changes e) <? depth (history_qos_ h)) eqn:Elt.
    - apply ret_Ret in Hadd. destruct Hadd as (-> & -> & _).
      split; [ apply shrinks_refl | ]. intros _. exists e. apply Z.ltb_lt in Elt. auto.
    - apply bind_Ret in Hadd. destruct Hadd as (oldest & h3 & o9 & o10 & Hat & Hrm & _).
      apply at_Ret in Hat. destruct Hat as (-> & Hold).
      destruct (cache_changes e) as [ | x rest] eqn:Ec; [ discriminate | ].
      injection Hold as ->.
      assert (Hx : instanceHandle oldest = instanceHandle c1).
      { unfold keys_consistent in Hcons1. rewrite table_all_In in Hcons1.
        specialize (Hcons1 _ _ Hin). rewrite Ec in Hcons1.
        inversion Hcons1; assumption. }
      rewrite <- Hx in He.
      pose proof (remove_change_sub_keyed_table _ _ _ _ _ _ _
                    (eq_trans Ekeys Hkeys) (eq_trans Enc Hnc) He
                    (scan_instance_oldest _ _ _ Ec) Hrm) as Et.
      rewrite Hx in *. split.
      + rewrite Et. apply table_shrinks_move. apply move_erase.
      + intros _. exists (erase_change 0 e). split.
        * rewrite Et, map_find_adjust, He. reflexivity.
        * unfold sizes_within in Hsz1. rewrite table_all_In in Hsz1.
          specialize (Hsz1 _ _ Hin). unfold erase_change, vsize in *. simpl.
          rewrite Ec in *. simpl in *. lia. }
  destruct Hentry as (Hs2 & He2).
  destruct add.
  - destruct (He2 eq_refl) as (e2 & Hf2 & Hlt).
    apply bind_Ret in H. destruct H as (added & h3 & o9 & o10 & Ha & H & _).
    apply ret_Ret in H. destruct H as (E & -> & _). injection E as -> ->.
    rewrite add_received_change_with_key_eq in Ha.
    destruct (m_isHistoryFull h2);
      [ | destruct (mp_reader h2); [ | discriminate ] ]; injection Ha as <- <- _.
    + left. split; [ reflexivity | ]. eapply table_shrinks_trans; eauto.
    + right. split; [ reflexivity | ]. exists (keyed_changes_ h2), e2.
      rewrite keyed_changes_appended_with_key.
      split; [ eapply table_shrinks_trans; eauto | auto ].
  - inv_run; left; (split; [ reflexivity | eapply table_shrinks_trans; eauto ]).
Qed.

(** Without any assumption on the state: a keyed KEEP_LAST admission moves
    the table and then pushes at most once. *)
Lemma received_change_keep_last_with_key_push c u h r h' o :
  received_change_keep_last_with_key c u h = Ret r h' o ->
  exists t1,
    table_shrinks (keyed_changes_ h) t1 /\
    (keyed_changes_ h' = t1 \/
     exists k, keyed_changes_ h' = map_adjust (push_back_change (snd r)) k t1).
Proof.
  unfold received_change_keep_last_with_key. intros H. inv_run.
  all: repeat match goal with
         | H : remove_change_sub _ _ = Ret _ _ _ |- _ => apply remove_change_sub_shrinks in H
         | H : add_received_change_with_key _ _ _ = Ret _ _ _ |- _ =>
             rewrite add_received_change_with_key_eq in H;
             match type of H with
             | (if ?b then _ else match ?r with Some _ => _ | None => _ end) = _ =>
                 destruct b; [ | destruct r; [ | discriminate ] ]; injection H as <- <- <-
             end
         end.
  all: use_table_lemmas.
  all: first
         [ solve [ eexists; split; [ | left; reflexivity ]; chain_shrinks ]
         | solve [ eexists; split;
                   [ | right; eexists; rewrite keyed_changes_appended_with_key; reflexivity ];
                   chain_shrinks ] ].
Qed.

Lemma sorted_keys_insert k e t : sorted_keys t -> sorted_keys (map_insert k e t).
Proof.
  induction t as [ | [k1 e1] r IH]; simpl; intros Hs; [ auto | ].
  destruct Hs as (Hall & Hr).
  destruct (N.ltb k k1) eqn:El.
  - apply N.ltb_lt in El. simpl. split; [ | auto ].
    constructor; [ exact El | ].
    rewrite Forall_forall in *. intros p Hp. specialize (Hall p Hp). simpl in *. lia.
  - destruct (N.eqb k k1) eqn:Ee; [ simpl; auto | ].
    apply N.ltb_ge in El. apply N.eqb_neq in Ee. simpl. split; [ | auto ].
    rewrite Forall_forall in *. intros p Hp. apply In_map_insert in Hp.
    destruct Hp as [-> | Hp]; [ simpl; lia | auto ].
Qed.

Lemma sorted_keys_erase_at i t : sorted_keys t -> sorted_keys (erase_at i t).
Proof.
  revert i. induction t as [ | [k1 e1] r IH]; intros i Hs; [ destruct i; exact I | ].
  destruct Hs as (Hall & Hr). destruct i; simpl; [ exact Hr | ].
  split; [ | auto ]. rewrite Forall_forall in *. intros p Hp.
  apply Hall. eapply In_erase_at. exact Hp.
Qed.

Lemma sorted_keys_adjust f k t : sorted_keys t -> sorted_keys (map_adjust f k t).
Proof.
  induction t as [ | [k1 e1] r IH]; simpl; intros Hs; [ exact I | ].
  destruct Hs as (Hall & Hr). destruct (N.eqb k k1); simpl; [ auto | ].
  split; [ | auto ]. rewrite Forall_forall in *. intros p Hp.
  apply In_map_adjust in Hp. destruct Hp as [Hp | (e & Hin & ->)]; [ auto | ].
  apply (Hall (k, e) Hin).
Qed.

Lemma sorted_keys_shrinks t t' : table_shrinks t t' -> sorted_keys t -> sorted_keys t'.
Proof.
  induction 1 as [ | t1 t2 t3 Hm _ IH]; [ auto | ]. intros Hs. apply IH.
  destruct Hm; auto using sorted_keys_insert, sorted_keys_erase_at, sorted_keys_adjust.
Qed.

(** The rewrite of the table by any public call: moves, then at most one
    rewrite of a single entry. *)
Lemma public_call_table op h h' :
  after op h = Some h' ->
  exists t1,
    table_shrinks (keyed_changes_ h) t1 /\
    (keyed_changes_ h' = t1 \/ exists f k, keyed_changes_ h' = map_adjust f k t1).
Proof.
  destruct op; simpl; intros E; apply final_state_Some in E; destruct E as (a & o & E).
  - unfold received_change in E. inv_run.
    + eexists. split; [ apply shrinks_refl | auto ].
    + unfold call_receive_fn in *. destruct (receive_fn_ h).
      * eexists. split; [ eapply received_change_keep_all_no_key_shrinks; eauto | auto ].
      * eexists. split; [ eapply received_change_keep_last_no_key_shrinks; eauto | auto ].
      * match goal with H : _ = Ret ?r _ _ |- _ => destruct r as [b c'];
          apply received_change_keep_all_with_key_table in H;
          destruct H as [(_ & Hs) | (_ & t1 & e1 & Hs & _ & _ & Et)] end.
        -- eexists. split; [ exact Hs | auto ].
        -- exists t1. split; [ exact Hs | right; eauto ].
      * match goal with H : _ = Ret _ _ _ |- _ =>
          apply received_change_keep_last_with_key_push in H;
          destruct H as (t1 & Hs & [Et | (k & Et)]) end.
        -- exists t1. auto.
        -- exists t1. split; [ exact Hs | right; eauto ].
  - eexists. split; [ eapply remove_change_sub_shrinks; eauto | auto ].
  - eexists. split; [ eapply remove_change_sub_it_shrinks; eauto | auto ].
  - eexists. split; [ eapply remove_change_nts_shrinks; eauto | auto ].
  - eexists. split; [ eapply set_next_deadline_shrinks; eauto | auto ].
  - apply get_next_deadline_unchanged in E. subst.
    eexists. split; [ apply shrinks_refl | auto ].
  - apply lookup_instance_unchanged in E. subst.
    eexists. split; [ apply shrinks_refl | auto ].
  - apply get_first_untaken_info_unchanged in E. subst.
    eexists. split; [ apply shrinks_refl | auto ].
Qed.

Lemma sorted_keys_public_call op h h' :
  after op h = Some h' -> sorted_keys (keyed_changes_ h) -> sorted_keys (keyed_changes_ h').
Proof.
  intros E Hs. apply public_call_table in E.
  destruct E as (t1 & Hsh & [-> | (f & k & ->)]).
  - eapply sorted_keys_shrinks; eauto.
  - apply sorted_keys_adjust. eapply sorted_keys_shrinks; eauto.
Qed.

Lemma sorted_keys_reached ops : forall h h',
  after_all ops h = Some h' -> sorted_keys (keyed_changes_ h) -> sorted_keys (keyed_changes_ h').
Proof.
  induction ops as [ | op rest IH]; simpl; intros h h' E Hs.
  - injection E as <-. exact Hs.
  - destruct (after op h) as [h1 | ] eqn:E1; [ | discriminate ].
    eapply IH; [ exact E | ]. eapply sorted_keys_public_call; eauto.
Qed.

(** ** Bounds on the instances of a keyed history *)

Lemma received_change_inner c u h r h' o :
  received_change c u h = Ret r h' o ->
  (not_created h = true /\ h' = h /\ r = (false, c)) \/
  (not_created h = false /\ call_receive_fn (receive_fn_ h) c u h = Ret r h' o).
Proof.
  unfold received_change. intros H.
  apply bind_Ret in H. destruct H as (nc & h1 & o1 & o2 & H1 & H & E).
  apply gets_Ret in H1. destruct H1 as (-> & -> & ->).
  destruct (not_created h).
  - left. inv_run. subst. auto.
  - right. split; [ reflexivity | ].
    apply bind_Ret in H. destruct H as (f & h1 & o3 & o4 & H1 & H & E').
    apply gets_Ret in H1. destruct H1 as (-> & -> & ->). subst. exact H.
Qed.

(** Calls other than [received_change] add no sample to any instance. *)
Lemma other_call_shrinks op h h' :
  (forall c u, op <> call_received_change c u) ->
  after op h = Some h' ->
  table_shrinks (keyed_changes_ h) (keyed_changes_ h').
Proof.
  intros Hop. destruct op; simpl; intros E; apply final_state_Some in E;
    destruct E as (a & o & E).
  - exfalso. eapply Hop. reflexivity.
  - eapply remove_change_sub_shrinks; eauto.
  - eapply remove_change_sub_it_shrinks; eauto.
  - eapply remove_change_nts_shrinks; eauto.
  - eapply set_next_deadline_shrinks; eauto.
  - apply get_next_deadline_unchanged in E. subst. apply shrinks_refl.
  - apply lookup_instance_unchanged in E. subst. apply shrinks_refl.
  - apply get_first_untaken_info_unchanged in E. subst. apply shrinks_refl.
Qed.

Lemma keep_last_with_key_call op h h' :
  receive_fn_ h = keep_last_with_key ->
  has_keys_ h = true ->
  0 < depth (history_qos_ h) < 18446744073709551616 ->
  keys_consistent (keyed_changes_ h) ->
  sizes_within (depth (history_qos_ h)) (keyed_changes_ h) ->
  after op h = Some h' ->
  keys_consistent (keyed_changes_ h') /\
  sizes_within (depth (history_qos_ h)) (keyed_changes_ h').
Proof.
  intros Hfn Hk Hd Hcons Hsz E.
  assert (Hsh : forall t', table_shrinks (keyed_changes_ h) t' ->
                           keys_consistent t' /\ sizes_within (depth (history_qos_ h)) t').
  { intros t' Hs. split;
      [ eapply keys_consistent_shrinks | eapply sizes_within_shrinks ]; eauto; lia. }
  destruct op; try (apply Hsh; eapply other_call_shrinks; eauto; discriminate).
  simpl in E. apply final_state_Some in E. destruct E as ([b c'] & o & E).
  apply received_change_inner in E. destruct E as [(_ & -> & _) | (Hnc & E)]; [ auto | ].
  rewrite Hfn in E. simpl in E.
  apply received_change_keep_last_with_key_table in E; auto.
  destruct E as [(_ & Hs) | (_ & t1 & e1 & Hs & He1 & Hlt & ->)]; [ auto | ].
  destruct (Hsh _ Hs) as (Hc1 & Hz1). split.
  - eapply table_all_adjust_found; [ exact Hc1 | exact He1 | ].
    unfold push_back_change. simpl.
    apply Forall_app. split; [ | constructor; auto ].
    unfold keys_consistent in Hc1. rewrite table_all_In in Hc1.
    apply (Hc1 _ _ (map_find_In _ _ _ He1)).
  - eapply table_all_adjust_found; [ exact Hz1 | exact He1 | ].
    unfold push_back_change. simpl. rewrite vsize_app1. lia.
Qed.

Lemma keep_all_with_key_call op h h' :
  receive_fn_ h = keep_all_with_key ->
  0 < max_samples_per_instance (resource_limited_qos_ h) < 18446744073709551616 ->
  keys_consistent (keyed_changes_ h) ->
  sizes_within (max_samples_per_instance (resource_limited_qos_ h)) (keyed_changes_ h) ->
  after op h = Some h' ->
  keys_consistent (keyed_changes_ h') /\
  sizes_within (max_samples_per_instance (resource_limited_qos_ h)) (keyed_changes_ h').
Proof.
  intros Hfn Hd Hcons Hsz E.
  assert (Hsh : forall t', table_shrinks (keyed_changes_ h) t' ->
                  keys_consistent t' /\
                  sizes_within (max_samples_per_instance (resource_limited_qos_ h)) t').
  { intros t' Hs. split;
      [ eapply keys_consistent_shrinks | eapply sizes_within_shrinks ]; eauto; lia. }
  destruct op; try (apply Hsh; eapply other_call_shrinks; eauto; discriminate).
  simpl in E. apply final_state_Some in E. destruct E as ([b c'] & o & E).
  apply received_change_inner in E. destruct E as [(_ & -> & _) | (Hnc & E)]; [ auto | ].
  rewrite Hfn in E. simpl in E.
  apply received_change_keep_all_with_key_table in E.
  destruct E as [(_ & Hs) | (_ & t1 & e1 & Hs & He1 & Hlt & ->)]; [ auto | ].
  rewrite to_size_t_small in Hlt by lia.
  destruct (Hsh _ Hs) as (Hc1 & Hz1). split.
  - eapply table_all_adjust_found; [ exact Hc1 | exact He1 | ].
    unfold push_back_change. simpl.
    apply Forall_app. split; [ | constructor; auto ].
    unfold keys_consistent in Hc1. rewrite table_all_In in Hc1.
    apply (Hc1 _ _ (map_find_In _ _ _ He1)).
  - eapply table_all_adjust_found; [ exact Hz1 | exact He1 | ].
    unfold push_back_change. simpl. rewrite vsize_app1. lia.
Qed.

Lemma after_frame op h h' : after op h = Some h' -> frame h h'.
Proof. intros E. apply public_step in E. apply E. Qed.

(** X1.  In a keyed KEEP_LAST history with a positive depth, whatever public
    calls are made after construction, no instance ever lists more than
    [depth] changes, and every change is listed under its own handle. *)
Theorem keyed_keep_last_depth_bound :
  forall type topic qos r ops h,
    m_isGetKeyDefined type = true ->
    history_kind (history qos) = KEEP_LAST_HISTORY_QOS ->
    0 < depth (history qos) <= Int.int32_max ->
    after_all ops (attach r (DataReaderHistory type topic qos)) = Some h ->
    forall k e,
      In (k, e) (keyed_changes_ h) ->
      vsize (cache_changes e) <= depth (history qos) /\
      Forall (fun c => instanceHandle c = k) (cache_changes e).
Proof.
  intros type topic qos r ops h Hkey Hkind Hd E.
  assert (Hgen : forall ops h0 h1,
             receive_fn_ h0 = keep_last_with_key -> has_keys_ h0 = true ->
             history_qos_ h0 = history qos ->
             keys_consistent (keyed_changes_ h0) ->
             sizes_within (depth (history qos)) (keyed_changes_ h0) ->
             after_all ops h0 = Some h1 ->
             keys_consistent (keyed_changes_ h1) /\
             sizes_within (depth (history qos)) (keyed_changes_ h1)).
  { clear - Hd. intros ops. induction ops as [ | op rest IH]; simpl;
      intros h0 h1 Hfn Hk Hq Hc Hs E.
    - injection E as <-. auto.
    - destruct (after op h0) as [h2 | ] eqn:E2; [ | discriminate ].
      pose proof (frame_fields _ _ (after_frame _ _ _ E2)) as (_ & Eq & _ & Ek & _ & Ef & _).
      assert (Hd' : 0 < depth (history qos) < 18446744073709551616 \/
                    ~ (0 < depth (history qos) < 18446744073709551616)) by lia.
      destruct Hd' as [Hd' | Hd'].
      + rewrite <- Hq in Hd', Hs.
        destruct (keep_last_with_key_call _ _ _ Hfn Hk Hd' Hc Hs E2) as (Hc2 & Hs2).
        rewrite Hq in Hs2.
        apply (IH h2 h1); [ congruence | congruence | congruence | exact Hc2 | exact Hs2 | exact E ].
      + unfold Int.int32_max in *. lia. }
  intros k e Hin.
  destruct (Hgen ops (attach r (DataReaderHistory type topic qos)) h) as (Hc & Hs); auto.
  - simpl. unfold DataReaderHistory. simpl. rewrite Hkey, Hkind. reflexivity.
  - constructor.
  - constructor.
  - unfold keys_consistent in Hc. unfold sizes_within in Hs.
    rewrite table_all_In in Hc, Hs. split; [ apply (Hs _ _ Hin) | apply (Hc _ _ Hin) ].
Qed.

Lemma keyed_keep_last_depth_bound_witness :
  after_all [call_received_change KeyedRemoval.a1 0;
             call_received_change KeyedRemoval.b1 0;
             call_received_change KeyedRemoval.a2 0] KeyedRemoval.two_instances
  = Some KeyedRemoval.held /\
  vsize [KeyedRemoval.a1; KeyedRemoval.a2] <= 2 /\
  Forall (fun c => instanceHandle c = Scenario.A) [KeyedRemoval.a1; KeyedRemoval.a2].
Proof.
  assert (H0 : m_isGetKeyDefined Scenario.keyed_type = true) by reflexivity.
  assert (H1 : history_kind (history (Scenario.qos KEEP_LAST_HISTORY_QOS 2 5000 10 400))
               = KEEP_LAST_HISTORY_QOS) by reflexivity.
  assert (H2 : 0 < depth (history (Scenario.qos KEEP_LAST_HISTORY_QOS 2 5000 10 400))
               <= Int.int32_max) by (vm_compute; split; [ reflexivity | discriminate ]).
  assert (H3 : after_all [call_received_change KeyedRemoval.a1 0;
                          call_received_change KeyedRemoval.b1 0;
                          call_received_change KeyedRemoval.a2 0]
                 (attach Scenario.reader
                    (DataReaderHistory Scenario.keyed_type Scenario.topic
                       (Scenario.qos KEEP_LAST_HISTORY_QOS 2 5000 10 400)))
               = Some KeyedRemoval.held) by reflexivity.
  assert (H4 : In (Scenario.A,
                   {| cache_changes := [KeyedRemoval.a1; KeyedRemoval.a2];
                      next_deadline_us := 0 |}) (keyed_changes_ KeyedRemoval.held))
    by (left; reflexivity).
  split; [ exact H3 | ].
  exact (keyed_keep_last_depth_bound _ _ _ _ _ _ H0 H1 H2 H3 _ _ H4).
Defined.

(** X2.  In a keyed KEEP_ALL history, whatever public calls are made after
    construction, no instance ever lists more changes than the
    [max_samples_per_instance] limit the history holds (the QoS value, or the
    integer maximum when the QoS value is 0), and every change is listed
    under its own handle. *)
Theorem keyed_keep_all_instance_bound :
  forall type topic qos r ops h,
    m_isGetKeyDefined type = true ->
    history_kind (history qos) = KEEP_ALL_HISTORY_QOS ->
    0 <= max_samples_per_instance (resource_limits qos) <= Int.int32_max ->
    after_all ops (attach r (DataReaderHistory type topic qos)) = Some h ->
    forall k e,
      In (k, e) (keyed_changes_ h) ->
      vsize (cache_changes e)
      <= unlimited_if_zero (max_samples_per_instance (resource_limits qos)) /\
      Forall (fun c => instanceHandle c = k) (cache_changes e).
Proof.
  intros type topic qos r ops h Hkey Hkind Hd E.
  set (n := unlimited_if_zero (max_samples_per_instance (resource_limits qos))).
  assert (Hn : 0 < n < 18446744073709551616).
  { unfold n, unlimited_if_zero, Int.int32_max in *.
    destruct (Z.eqb_spec (max_samples_per_instance (resource_limits qos)) 0); lia. }
  assert (Hgen : forall ops h0 h1,
             receive_fn_ h0 = keep_all_with_key ->
             max_samples_per_instance (resource_limited_qos_ h0) = n ->
             keys_consistent (keyed_changes_ h0) ->
             sizes_within n (keyed_changes_ h0) ->
             after_all ops h0 = Some h1 ->
             keys_consistent (keyed_changes_ h1) /\ sizes_within n (keyed_changes_ h1)).
  { clear - Hn. intros ops. induction ops as [ | op rest IH]; simpl;
      intros h0 h1 Hfn Hq Hc Hs E.
    - injection E as <-. auto.
    - destruct (after op h0) as [h2 | ] eqn:E2; [ | discriminate ].
      pose proof (frame_fields _ _ (after_frame _ _ _ E2)) as (_ & _ & Eq & _ & _ & Ef & _).
      rewrite <- Hq in Hn, Hs.
      destruct (keep_all_with_key_call _ _ _ Hfn Hn Hc Hs E2) as (Hc2 & Hs2).
      rewrite Hq in Hs2.
      apply (IH h2 h1); [ congruence | congruence | exact Hc2 | exact Hs2 | exact E ]. }
  intros k e Hin.
  destruct (Hgen ops (attach r (DataReaderHistory type topic qos)) h) as (Hc & Hs); auto.
  - simpl. unfold DataReaderHistory. simpl. rewrite Hkey, Hkind. reflexivity.
  - constructor.
  - constructor.
  - unfold keys_consistent in Hc. unfold sizes_within in Hs.
    rewrite table_all_In in Hc, Hs. split; [ apply (Hs _ _ Hin) | apply (Hc _ _ Hin) ].
Qed.

Lemma keyed_keep_all_instance_bound_witness :
  after_all [call_received_change KeyedKeepAll.a1 0;
             call_received_change KeyedKeepAll.a2 0;
             call_received_change KeyedKeepAll.a3 0] KeyedKeepAll.two_per_instance
  = Some KeyedKeepAll.held /\
  vsize [KeyedKeepAll.a1; KeyedKeepAll.a2] <= 2 /\
  Forall (fun c => instanceHandle c = Scenario.A) [KeyedKeepAll.a1; KeyedKeepAll.a2].
Proof.
  assert (H0 : m_isGetKeyDefined Scenario.keyed_type = true) by reflexivity.
  assert (H1 : history_kind (history (Scenario.qos KEEP_ALL_HISTORY_QOS 1 10 10 2))
               = KEEP_ALL_HISTORY_QOS) by reflexivity.
  assert (H2 : 0 <= max_samples_per_instance
                      (resource_limits (Scenario.qos KEEP_ALL_HISTORY_QOS 1 10 10 2))
               <= Int.int32_max) by (vm_compute; split; discriminate).
  assert (H3 : after_all [call_received_change KeyedKeepAll.a1 0;
                          call_received_change KeyedKeepAll.a2 0;
                          call_received_change KeyedKeepAll.a3 0]
                 (attach Scenario.reader
                    (DataReaderHistory Scenario.keyed_type Scenario.topic
                       (Scenario.qos KEEP_ALL_HISTORY_QOS 1 10 10 2)))
               = Some KeyedKeepAll.held) by reflexivity.
  assert (H4 : In (Scenario.A,
                   {| cache_changes := [KeyedKeepAll.a1; KeyedKeepAll.a2];
                      next_deadline_us := 0 |}) (keyed_changes_ KeyedKeepAll.held))
    by (left; reflexivity).
  split; [ exact H3 | ].
  exact (keyed_keep_all_instance_bound _ _ _ _ _ _ H0 H1 H2 H3 _ _ H4).
Defined.

(** ** Looking up instances *)

Lemma upper_bound_filter k t :
  upper_bound k t = hd_error (filter (fun entry => N.ltb k (fst entry)) t).
Proof.
  induction t as [ | [k1 e1] r IH]; simpl; [ reflexivity | ].
  destruct (N.ltb k k1); [ reflexivity | exact IH ].
Qed.

Lemma upper_bound_Some k t k' e :
  sorted_keys t ->
  upper_bound k t = Some (k', e) ->
  map_find k' t = Some e /\ (k < k')%N /\
  forall k2 e2, In (k2, e2) t -> (k < k2)%N -> (k' <= k2)%N.
Proof.
  induction t as [ | [k1 e1] r IH]; simpl; [ discriminate | ].
  intros (Hlt & Hs) E. rewrite Forall_forall in Hlt.
  destruct (N.ltb k k1) eqn:Ek.
  - injection E as <- <-. rewrite N.eqb_refl. apply N.ltb_lt in Ek.
    split; [ reflexivity | ]. split; [ exact Ek | ].
    intros k2 e2 [Hin | Hin] _.
    + injection Hin as <- _. lia.
    + apply Hlt in Hin. simpl in Hin. lia.
  - apply N.ltb_ge in Ek. destruct (IH Hs E) as (Hf & Hk & Hmin).
    assert (Hne : N.eqb k' k1 = false) by (apply N.eqb_neq; lia).
    rewrite Hne. split; [ exact Hf | ]. split; [ exact Hk | ].
    intros k2 e2 [Hin | Hin] Hk2.
    + injection Hin as <- _. lia.
    + eapply Hmin; eauto.
Qed.

Lemma upper_bound_None k t :
  upper_bound k t = None -> forall k2 e2, In (k2, e2) t -> (k2 <= k)%N.
Proof.
  induction t as [ | [k1 e1] r IH]; simpl; intros E k2 e2 Hin; [ contradiction | ].
  destruct (N.ltb k k1) eqn:Ek; [ discriminate | ]. apply N.ltb_ge in Ek.
  destruct Hin as [Hin | Hin]; [ injection Hin as <- _; exact Ek | eapply IH; eauto ].
Qed.

Lemma reached_sorted type topic qos r ops h :
  after_all ops (attach r (DataReaderHistory type topic qos)) = Some h ->
  sorted_keys (keyed_changes_ h) /\ has_keys_ h = m_isGetKeyDefined type.
Proof.
  intros E. split.
  - eapply sorted_keys_reached; [ exact E | exact I ].
  - apply after_all_step in E. destruct E as [F _ _]. apply frame_fields in F.
    destruct F as (_ & _ & _ & -> & _). reflexivity.
Qed.

Lemma lookup_instance_keyed k exact h :
  has_keys_ h = true ->
  lookup_instance k exact h =
  match (if exact then option_map (fun e => (k, e)) (map_find k (keyed_changes_ h))
         else upper_bound k (keyed_changes_ h)) with
  | Some (k', _) => Ret (true, (k', Some (instance_vector k'))) h []
  | None => Ret (false, (c_InstanceHandle_Unknown, None)) h []
  end.
Proof.
  intros Hk. unfold lookup_instance, bind, gets. rewrite Hk. simpl.
  destruct (if exact then _ else _) as [[k' e'] | ]; reflexivity.
Qed.

(** X3.  On a keyed history reached by public calls from construction,
    [lookup_instance(handle, exact = false)] answers with the least handle of
    the instance table that is greater than [handle], and with "not found"
    exactly when the table has no greater handle;
    [lookup_instance(handle, exact = true)] finds [handle] itself exactly
    when the table has an entry for it.  Either way the history is left as it
    was and nothing is logged. *)
Theorem lookup_instance_keyed_answer :
  forall type topic qos r ops h k,
    m_isGetKeyDefined type = true ->
    after_all ops (attach r (DataReaderHistory type topic qos)) = Some h ->
    ((exists k' e,
         lookup_instance k false h = Ret (true, (k', Some (instance_vector k'))) h [] /\
         map_find k' (keyed_changes_ h) = Some e /\ (k < k')%N /\
         forall k2 e2, In (k2, e2) (keyed_changes_ h) -> (k < k2)%N -> (k' <= k2)%N)
     \/
     (lookup_instance k false h = Ret (false, (c_InstanceHandle_Unknown, None)) h [] /\
      forall k2 e2, In (k2, e2) (keyed_changes_ h) -> (k2 <= k)%N))
    /\
    lookup_instance k true h =
    match map_find k (keyed_changes_ h) with
    | Some _ => Ret (true, (k, Some (instance_vector k))) h []
    | None => Ret (false, (c_InstanceHandle_Unknown, None)) h []
    end.
Proof.
  intros type topic qos r ops h k Hkey E.
  destruct (reached_sorted _ _ _ _ _ _ E) as (Hs & Hk). rewrite Hkey in Hk.
  split.
  - rewrite (lookup_instance_keyed k false h Hk).
    destruct (upper_bound k (keyed_changes_ h)) as [[k' e] | ] eqn:Eu.
    + left. exists k', e. split; [ reflexivity | ]. eapply upper_bound_Some; eauto.
    + right. split; [ reflexivity | ]. eapply upper_bound_None; eauto.
  - rewrite (lookup_instance_keyed k true h Hk).
    destruct (map_find k (keyed_changes_ h)); reflexivity.
Qed.

Lemma lookup_instance_keyed_answer_witness :
  after_all [call_received_change KeyedRemoval.a1 0;
             call_received_change KeyedRemoval.b1 0;
             call_received_change KeyedRemoval.a2 0] KeyedRemoval.two_instances
  = Some KeyedRemoval.held /\
  lookup_instance Scenario.A true KeyedRemoval.held
  = Ret (true, (Scenario.A, Some (instance_vector Scenario.A))) KeyedRemoval.held [].
Proof.
  assert (H0 : m_isGetKeyDefined Scenario.keyed_type = true) by reflexivity.
  assert (H1 : after_all [call_received_change KeyedRemoval.a1 0;
                          call_received_change KeyedRemoval.b1 0;
                          call_received_change KeyedRemoval.a2 0]
                 (attach Scenario.reader
                    (DataReaderHistory Scenario.keyed_type Scenario.topic
                       (Scenario.qos KEEP_LAST_HISTORY_QOS 2 5000 10 400)))
               = Some KeyedRemoval.held) by reflexivity.
  split; [ exact H1 | ].
  exact (proj2 (lookup_instance_keyed_answer _ _ _ _ _ _ Scenario.A H0 H1)).
Defined.

Lemma filter_above_all k keys :
  Forall (fun k2 => (k < k2)%N) keys -> filter (N.ltb k) keys = keys.
Proof.
  induction 1 as [ | k2 r Hk _ IH]; simpl; [ reflexivity | ].
  apply N.ltb_lt in Hk. rewrite Hk, IH. reflexivity.
Qed.

Lemma filter_above_next k t k' rest :
  sorted_keys t ->
  filter (N.ltb k) (map fst t) = k' :: rest ->
  rest = filter (N.ltb k') (map fst t).
Proof.
  induction t as [ | [k1 e1] r IH]; simpl; [ discriminate | ].
  intros (Hlt & Hs) E.
  assert (Hall : Forall (fun k2 => (k1 < k2)%N) (map fst r)).
  { rewrite Forall_forall in *. intros k2 Hin. apply in_map_iff in Hin.
    destruct Hin as (entry & <- & Hin). apply (Hlt _ Hin). }
  destruct (N.ltb k k1) eqn:Ek.
  - injection E as <- <-. rewrite N.ltb_irrefl.
    apply N.ltb_lt in Ek. rewrite (filter_above_all k1 _ Hall).
    apply filter_above_all. eapply Forall_impl; [ | exact Hall ]. simpl. intros; lia.
  - assert (Hin : In k' (filter (N.ltb k) (map fst r))) by (rewrite E; left; reflexivity).
    apply filter_In in Hin. destruct Hin as (Hin & _).
    rewrite Forall_forall in Hall. apply Hall in Hin.
    assert (Hn : N.ltb k' k1 = false) by (apply N.ltb_ge; lia).
    rewrite Hn. apply IH; assumption.
Qed.

Lemma map_fst_filter k (t : t_m_Inst_Caches) :
  map fst (filter (fun entry => N.ltb k (fst entry)) t) = filter (N.ltb k) (map fst t).
Proof.
  induction t as [ | [k1 e1] r IH]; simpl; [ reflexivity | ].
  destruct (N.ltb k k1); simpl; rewrite IH; reflexivity.
Qed.

Lemma walk_instances_keyed fuel : forall k h,
  has_keys_ h = true ->
  sorted_keys (keyed_changes_ h) ->
  (List.length (filter (N.ltb k) (map fst (keyed_changes_ h))) <= fuel)%nat ->
  walk_instances fuel k h = filter (N.ltb k) (map fst (keyed_changes_ h)).
Proof.
  induction fuel as [ | n IH]; intros k h Hk Hs Hlen.
  - simpl. destruct (filter (N.ltb k) (map fst (keyed_changes_ h))); [ reflexivity | ].
    simpl in Hlen. lia.
  - simpl. rewrite (lookup_instance_keyed k false h Hk), upper_bound_filter.
    pose proof (map_fst_filter k (keyed_changes_ h)) as Hmap.
    rewrite <- Hmap in Hlen.
    match goal with
    | |- context [hd_error ?f] => change f with (filter (fun entry => N.ltb k (fst entry))
                                                   (keyed_changes_ h))
    end.
    destruct (filter (fun entry => N.ltb k (fst entry)) (keyed_changes_ h))
      as [ | [k' e'] rest]; simpl; [ exact Hmap | ].
    simpl in Hmap, Hlen.
    pose proof (filter_above_next _ _ _ _ Hs (eq_sym Hmap)) as Er.
    rewrite <- Hmap. f_equal. rewrite IH; auto. rewrite <- Er. lia.
Qed.

(** X4.  Iterating over the instances: starting from [handle] and calling
    [lookup_instance(previous, exact = false)] until it answers "not found"
    visits, on a keyed history, exactly the handles of the instance table
    that are greater than [handle], each once and in increasing order (from
    [HANDLE_NIL], every handle but [HANDLE_NIL] itself); on an unkeyed
    history it visits the fictitious instance alone when started from
    [HANDLE_NIL], and nothing otherwise. *)
Theorem walk_instances_enumerates :
  forall type topic qos r ops h k fuel,
    after_all ops (attach r (DataReaderHistory type topic qos)) = Some h ->
    (List.length (keyed_changes_ h) < fuel)%nat ->
    walk_instances fuel k h =
    if m_isGetKeyDefined type
    then filter (N.ltb k) (map fst (keyed_changes_ h))
    else if isDefined k then [] else [fictitious_handle].
Proof.
  intros type topic qos r ops h k fuel E Hfuel.
  destruct (reached_sorted _ _ _ _ _ _ E) as (Hs & Hk).
  destruct (m_isGetKeyDefined type).
  - apply walk_instances_keyed; auto.
    pose proof (length_filter_le (N.ltb k) (map fst (keyed_changes_ h))) as Hle.
    rewrite length_map in Hle. lia.
  - destruct fuel as [ | n]; [ lia | ]. simpl.
    unfold lookup_instance, bind, gets. rewrite Hk. simpl.
    destruct (isDefined k) eqn:Ed; simpl; [ reflexivity | ].
    f_equal. destruct n as [ | m]; [ reflexivity | ]. simpl.
    unfold lookup_instance, bind, gets. rewrite Hk. reflexivity.
Qed.

Lemma walk_instances_enumerates_witness :
  after_all [call_received_change KeyedRemoval.a1 0;
             call_received_change KeyedRemoval.b1 0;
             call_received_change KeyedRemoval.a2 0] KeyedRemoval.two_instances
  = Some KeyedRemoval.held /\
  walk_instances 3 c_InstanceHandle_Unknown KeyedRemoval.held = [Scenario.A; Scenario.B].
Proof.
  assert (H1 : after_all [call_received_change KeyedRemoval.a1 0;
                          call_received_change KeyedRemoval.b1 0;
                          call_received_change KeyedRemoval.a2 0]
                 (attach Scenario.reader
                    (DataReaderHistory Scenario.keyed_type Scenario.topic
                       (Scenario.qos KEEP_LAST_HISTORY_QOS 2 5000 10 400)))
               = Some KeyedRemoval.held) by reflexivity.
  assert (H2 : (List.length (keyed_changes_ KeyedRemoval.held) < 3)%nat) by (simpl; lia).
  split; [ exact H1 | ].
  exact (walk_instances_enumerates _ _ _ _ _ _ c_InstanceHandle_Unknown 3 H1 H2).
Defined.

(** ** Deadlines *)

Lemma sorted_keys_find k e t : sorted_keys t -> In (k, e) t -> map_find k t = Some e.
Proof.
  induction t as [ | [k1 e1] r IH]; simpl; [ contradiction | ].
  intros (Hlt & Hs) [Hin | Hin].
  - injection Hin as -> ->. rewrite N.eqb_refl. reflexivity.
  - rewrite Forall_forall in Hlt. pose proof (Hlt _ Hin) as Hk. simpl in Hk.
    assert (Hne : N.eqb k k1 = false) by (apply N.eqb_neq; lia).
    rewrite Hne. auto.
Qed.

Lemma map_fst_adjust f k t : map fst (map_adjust f k t) = map fst t.
Proof.
  induction t as [ | [k1 e1] r IH]; simpl; [ reflexivity | ].
  destruct (N.eqb k k1); simpl; [ reflexivity | rewrite IH; reflexivity ].
Qed.

(** X5.  [set_next_deadline] on an attached keyed history: for a handle
    without entry in the instance table it returns false and leaves the
    history as it was (no entry is created); for a handle with an entry it
    returns true and rewrites the deadline of that entry alone: the changes
    of the entry, every other entry, the handles of the table, the change
    store, the full flag and the history-wide deadline stay as they were. *)
Theorem set_next_deadline_keyed :
  forall h k d,
    not_created h = false ->
    has_keys_ h = true ->
    match map_find k (keyed_changes_ h) with
    | None => set_next_deadline k d h = Ret false h []
    | Some e =>
        exists h',
          set_next_deadline k d h = Ret true h' [] /\
          map_find k (keyed_changes_ h')
          = Some {| cache_changes := cache_changes e; next_deadline_us := d |} /\
          (forall k2, k2 <> k ->
                      map_find k2 (keyed_changes_ h') = map_find k2 (keyed_changes_ h)) /\
          map fst (keyed_changes_ h') = map fst (keyed_changes_ h) /\
          m_changes h' = m_changes h /\
          m_isHistoryFull h' = m_isHistoryFull h /\
          next_deadline_us_ h' = next_deadline_us_ h
    end.
Proof.
  intros h k d Hnc Hk.
  unfold set_next_deadline, bind, gets. rewrite Hnc, Hk. simpl.
  destruct (map_find k (keyed_changes_ h)) as [e | ] eqn:Ef; [ | reflexivity ].
  eexists. split; [ reflexivity | ]. simpl.
  split; [ rewrite map_find_adjust, Ef; reflexivity | ].
  split; [ intros k2 Hne; apply map_find_adjust_other; exact Hne | ].
  split; [ apply map_fst_adjust | ]. auto.
Qed.

Lemma set_next_deadline_keyed_witness :
  exists h',
    set_next_deadline Scenario.B 50 KeyedRemoval.held = Ret true h' [] /\
    map_find Scenario.B (keyed_changes_ h')
    = Some {| cache_changes := [KeyedRemoval.b1]; next_deadline_us := 50 |} /\
    (forall k2, k2 <> Scenario.B ->
                map_find k2 (keyed_changes_ h') = map_find k2 (keyed_changes_ KeyedRemoval.held)) /\
    map fst (keyed_changes_ h') = map fst (keyed_changes_ KeyedRemoval.held) /\
    m_changes h' = m_changes KeyedRemoval.held /\
    m_isHistoryFull h' = m_isHistoryFull KeyedRemoval.held /\
    next_deadline_us_ h' = next_deadline_us_ KeyedRemoval.held.
Proof.
  assert (H0 : not_created KeyedRemoval.held = false) by reflexivity.
  assert (H1 : has_keys_ KeyedRemoval.held = true) by reflexivity.
  exact (set_next_deadline_keyed KeyedRemoval.held Scenario.B 50 H0 H1).
Defined.

(** X6.  Setting a deadline and asking for the next one.  On a keyed history
    reached by public calls from construction, after
    [set_next_deadline(handle, d)] for a handle of the instance table,
    [get_next_deadline] returns true with a deadline that is at most [d] and
    at most the deadline of every other instance; when [d] is earlier than
    the deadlines of all other instances it returns [handle] and [d].  On an
    unkeyed history it returns [d] and leaves the handle argument as it
    was. *)
Theorem set_then_get_next_deadline :
  forall type topic qos r ops h k d arg_handle arg_deadline,
    after_all ops (attach r (DataReaderHistory type topic qos)) = Some h ->
    (m_isGetKeyDefined type = false ->
     (set_next_deadline k d ;; get_next_deadline arg_handle arg_deadline) h
     = Ret (true, arg_handle, d) (set_next_deadline_us_ d h) []) /\
    (m_isGetKeyDefined type = true ->
     map_find k (keyed_changes_ h) <> None ->
     exists k' d' h',
       (set_next_deadline k d ;; get_next_deadline arg_handle arg_deadline) h
       = Ret (true, k', d') h' [] /\
       d' <= d /\
       (forall k2 e2, In (k2, e2) (keyed_changes_ h) -> k2 <> k ->
                      d' <= next_deadline_us e2) /\
       ((forall k2 e2, In (k2, e2) (keyed_changes_ h) -> k2 <> k ->
                       d < next_deadline_us e2) ->
        k' = k /\ d' = d)).
Proof.
  intros type topic qos r ops h k d ah ad E.
  destruct (reached_sorted _ _ _ _ _ _ E) as (Hs & Hk).
  destruct (reached_states _ _ _ _ _ _ E) as (_ & Hnc & _).
  split; intros Hkey; rewrite Hkey in Hk.
  - unfold set_next_deadline, get_next_deadline, bind, gets, modify, ret.
    rewrite Hnc, Hk. simpl. unfold not_created in *. simpl.
    destruct (mp_reader h); [ destruct (mp_mutex h); [ | discriminate ] | discriminate ].
    simpl. rewrite ?Hk. reflexivity.
  - intros Hfound.
    pose proof (set_next_deadline_keyed h k d Hnc Hk) as Hset.
    destruct (map_find k (keyed_changes_ h)) as [e | ] eqn:Ef; [ | congruence ].
    destruct Hset as (h1 & Eset & Hfk & Hother & Hkeys & _).
    assert (F : frame h h1).
    { apply set_next_deadline_step in Eset. destruct Eset as ([F _ _] & _). exact F. }
    pose proof (frame_fields _ _ F) as (_ & _ & _ & Ek1 & _ & _ & Enc1).
    assert (Hs1 : sorted_keys (keyed_changes_ h1)).
    { eapply (sorted_keys_public_call (call_set_next_deadline k d)); [ | exact Hs ].
      simpl. rewrite Eset. reflexivity. }
    assert (Hne : keyed_changes_ h1 <> []).
    { intros E0. rewrite E0 in Hfk. discriminate. }
    destruct (get_next_deadline_keyed_Ret h1 ah ad) as (k' & e' & Eget & Hin & Hmin);
      [ congruence | congruence | exact Hne | ].
    exists k', (next_deadline_us e'), h1.
    assert (Hold : forall k2 e2, In (k2, e2) (keyed_changes_ h) -> k2 <> k ->
                                 In (k2, e2) (keyed_changes_ h1)).
    { intros k2 e2 Hin2 Hne2. apply map_find_In. rewrite (Hother _ Hne2).
      apply sorted_keys_find; assumption. }
    split; [ | split; [ | split ] ].
    + unfold bind. rewrite Eset, Eget. reflexivity.
    + apply (Hmin _ _ (map_find_In _ _ _ Hfk)).
    + intros k2 e2 Hin2 Hne2. apply (Hmin _ _ (Hold _ _ Hin2 Hne2)).
    + intros Hstrict.
      destruct (N.eq_dec k' k) as [-> | Hne'].
      * split; [ reflexivity | ].
        pose proof (sorted_keys_find _ _ _ Hs1 Hin) as Ef'. rewrite Hfk in Ef'.
        injection Ef' as <-. reflexivity.
      * exfalso.
        pose proof (sorted_keys_find _ _ _ Hs1 Hin) as Ef'.
        rewrite (Hother _ Hne') in Ef'. apply map_find_In in Ef'.
        pose proof (Hstrict _ _ Ef' Hne') as Hlt.
        pose proof (Hmin _ _ (map_find_In _ _ _ Hfk)) as Hle. simpl in Hle. lia.
Qed.

Lemma set_then_get_next_deadline_witness :
  after_all [call_received_change KeyedRemoval.a1 0;
             call_received_change KeyedRemoval.b1 0;
             call_received_change KeyedRemoval.a2 0] KeyedRemoval.two_instances
  = Some KeyedRemoval.held /\
  exists k' d' h',
    (set_next_deadline Scenario.B (-5) ;; get_next_deadline c_InstanceHandle_Unknown 0)
      KeyedRemoval.held
    = Ret (true, k', d') h' [] /\ d' <= -5.
Proof.
  assert (H0 : m_isGetKeyDefined Scenario.keyed_type = true) by reflexivity.
  assert (H1 : after_all [call_received_change KeyedRemoval.a1 0;
                          call_received_change KeyedRemoval.b1 0;
                          call_received_change KeyedRemoval.a2 0]
                 (attach Scenario.reader
                    (DataReaderHistory Scenario.keyed_type Scenario.topic
                       (Scenario.qos KEEP_LAST_HISTORY_QOS 2 5000 10 400)))
               = Some KeyedRemoval.held) by reflexivity.
  assert (H2 : map_find Scenario.B (keyed_changes_ KeyedRemoval.held) <> None)
    by discriminate.
  split; [ exact H1 | ].
  destruct (proj2 (set_then_get_next_deadline _ _ _ _ _ _ Scenario.B (-5)
                     c_InstanceHandle_Unknown 0 H1) H0 H2)
    as (k' & d' & h' & Erun & Hle & _).
  exists k', d', h'. split; [ exact Erun | exact Hle ].
Defined.

(** ** Removal from a keyed history *)

Lemma find_index_before {A} (p : A -> bool) v : forall i j q,
  find_index p v = Some i -> (j < i)%nat -> nth_error v j = Some q -> p q = false.
Proof.
  induction v as [ | x v IH]; intros i j q Hf Hj Hq; simpl in Hf; [ discriminate | ].
  destruct (p x) eqn:Ex.
  - inversion Hf; subst. lia.
  - destruct (find_index p v) as [i0 | ] eqn:E0; [ | discriminate ].
    inversion Hf; subst.
    destruct j as [ | j]; simpl in Hq.
    + inversion Hq; subst. exact Ex.
    + apply (IH i0 j q); [ reflexivity | lia | exact Hq ].
Qed.

Lemma find_index_absent {A} (p : A -> bool) v q :
  find_index p v = None -> In q v -> p q = false.
Proof.
  induction v as [ | x v IH]; intros Hf Hq; simpl in *; [ contradiction | ].
  destruct (p x) eqn:Ex; [ discriminate | ].
  destruct (find_index p v); [ discriminate | ].
  destruct Hq as [<- | Hq]; auto.
Qed.

(** The two ways [remove_change_sub(change)] reaches its call of
    [remove_change]: after the erase of position [i] from the instance, or
    after the error message. *)
Lemma remove_change_sub_erased_run c h e i :
  not_created h = false ->
  has_keys_ h = true ->
  map_find (instanceHandle c) (keyed_changes_ h) = Some e ->
  scan_instance c e = Some i ->
  remove_change_sub c h =
  (removed <- remove_change c ;;
   if removed then modify (set_m_isHistoryFull false) ;; ret true else ret false)
    (set_keyed_changes_
       (map_adjust (erase_change i) (instanceHandle c) (keyed_changes_ h)) h).
Proof.
  intros Hnc Hk He Es.
  unfold remove_change_sub, bind, gets. rewrite Hnc, Hk.
  rewrite (find_key_present c h e He).
  unfold deref. rewrite He. rewrite Es.
  unfold erase_in_instance, erase_change, modify, ret. simpl.
  match goal with |- context [remove_change c ?s] =>
    destruct (remove_change c s) as [[ | ] h2 o2 | f]; simpl;
    rewrite ?app_nil_r; reflexivity end.
Qed.

Lemma remove_change_sub_missing_run c h e :
  not_created h = false ->
  has_keys_ h = true ->
  map_find (instanceHandle c) (keyed_changes_ h) = Some e ->
  scan_instance c e = None ->
  remove_change_sub c h =
  (logError SUBSCRIBER "Change not found on this key, something is wrong" ;;
   removed <- remove_change c ;;
   if removed then modify (set_m_isHistoryFull false) ;; ret true else ret false) h.
Proof.
  intros Hnc Hk He Es.
  unfold remove_change_sub, bind, gets. rewrite Hnc, Hk.
  rewrite (find_key_present c h e He).
  unfold deref. rewrite He. rewrite Es.
  unfold ret, logError, log. simpl.
  destruct (remove_change c h) as [[ | ] h2 o2 | f]; simpl;
  rewrite ?app_nil_r; reflexivity.
Qed.

(** X7.  [remove_change_sub(change)] on an attached keyed history whose
    instance table has an entry for the change's handle.  The instance is
    searched by sequence number and writer before the change store is asked:
    when a change of the instance has the sequence number and writer of
    [change], the first such one is erased from the instance, the other
    instances are untouched, and [remove_change(change)] then runs on the
    state so obtained, whatever it answers; when there is none, the error
    'Change not found on this key, something is wrong' is logged and
    [remove_change(change)] runs on the unchanged state.  In both cases the
    call ends as its last lines say: a true answer clears [m_isHistoryFull]
    and is returned, a false answer is returned.  So the erase from the
    instance is not conditional on the store holding [change]. *)
Theorem remove_change_sub_keyed :
  forall c h e,
    not_created h = false ->
    has_keys_ h = true ->
    map_find (instanceHandle c) (keyed_changes_ h) = Some e ->
    match scan_instance c e with
    | Some i =>
        (exists q, nth_error (cache_changes e) i = Some q /\
                   sequenceNumber q = sequenceNumber c /\ writerGUID q = writerGUID c) /\
        (forall j q, (j < i)%nat -> nth_error (cache_changes e) j = Some q ->
                     same_identity q c = false) /\
        exists h1,
          h1 = set_keyed_changes_
                 (map_adjust (erase_change i) (instanceHandle c) (keyed_changes_ h)) h /\
          map_find (instanceHandle c) (keyed_changes_ h1) =
          Some {| cache_changes := erase_at i (cache_changes e);
                  next_deadline_us := next_deadline_us e |} /\
          (forall k, k <> instanceHandle c ->
                     map_find k (keyed_changes_ h1) = map_find k (keyed_changes_ h)) /\
          remove_change_sub c h =
          (removed <- remove_change c ;;
           if removed then modify (set_m_isHistoryFull false) ;; ret true else ret false) h1
    | None =>
        (forall q, In q (cache_changes e) -> same_identity q c = false) /\
        remove_change_sub c h =
        (logError SUBSCRIBER "Change not found on this key, something is wrong" ;;
         removed <- remove_change c ;;
         if removed then modify (set_m_isHistoryFull false) ;; ret true else ret false) h
    end.
Proof.
  intros c h e Hnc Hk He.
  destruct (scan_instance c e) as [i | ] eqn:Es.
  - split; [ | split ].
    + unfold scan_instance in Es.
      destruct (find_index_Some _ _ _ Es) as [q [Hq Hp]].
      exists q. split; [ exact Hq | ].
      unfold same_identity in Hp. apply andb_prop in Hp. destruct Hp as [H1 H2].
      split; [ apply Z.eqb_eq; exact H1 | apply N.eqb_eq; exact H2 ].
    + intros j q Hj Hq. unfold scan_instance in Es.
      exact (find_index_before _ _ _ _ _ Es Hj Hq).
    + eexists. split; [ reflexivity | ]. split; [ | split ].
      * simpl. rewrite map_find_adjust, He. reflexivity.
      * intros k Hk'. simpl. apply map_find_adjust_other. exact Hk'.
      * exact (remove_change_sub_erased_run c h e i Hnc Hk He Es).
  - split.
    + intros q Hq. unfold scan_instance in Es.
      exact (find_index_absent _ _ _ Es Hq).
    + exact (remove_change_sub_missing_run c h e Hnc Hk He Es).
Qed.

Lemma remove_change_sub_keyed_witness :
  remove_change_sub Replica.a1_again KeyedRemoval.held =
  (removed <- remove_change Replica.a1_again ;;
   if removed then modify (set_m_isHistoryFull false) ;; ret true else ret false)
    (set_keyed_changes_
       [ (Scenario.A, {| cache_changes := [KeyedRemoval.a2]; next_deadline_us := 0 |});
         (Scenario.B, {| cache_changes := [KeyedRemoval.b1]; next_deadline_us := 0 |}) ]
       KeyedRemoval.held).
Proof.
  assert (H0 : not_created KeyedRemoval.held = false) by reflexivity.
  assert (H1 : has_keys_ KeyedRemoval.held = true) by reflexivity.
  assert (H2 : map_find (instanceHandle Replica.a1_again) (keyed_changes_ KeyedRemoval.held)
               = Some {| cache_changes := [KeyedRemoval.a1; KeyedRemoval.a2];
                         next_deadline_us := 0 |}) by reflexivity.
  destruct (remove_change_sub_keyed Replica.a1_again KeyedRemoval.held _ H0 H1 H2)
    as [_ [_ [h1 [Eh [_ [_ Hrun]]]]]].
  rewrite Hrun, Eh. reflexivity.
Defined.



(** ** Where an accepted sample goes *)

Lemma map_find_insert_other k k2 e2 t :
  k <> k2 -> map_find k (map_insert k2 e2 t) = map_find k t.
Proof.
  intros Hne. induction t as [ | [k1 e1] r IH]; simpl.
  - destruct (N.eqb_spec k k2); [ contradiction | reflexivity ].
  - destruct (N.ltb k2 k1); simpl.
    + destruct (N.eqb_spec k k2); [ contradiction | reflexivity ].
    + destruct (N.eqb k2 k1); simpl; [ reflexivity | ].
      destruct (N.eqb k k1); [ reflexivity | exact IH ].
Qed.

Lemma map_find_erase_empty k e i entry : forall t,
  nth_error t i = Some entry ->
  cache_changes (snd entry) = [] ->
  map_find k t = Some e ->
  cache_changes e <> [] ->
  map_find k (erase_at i t) = Some e.
Proof.
  induction i as [ | j IH]; intros [ | [k1 e1] r]; simpl; try discriminate.
  - intros Hn He Hf Hne. injection Hn as <-. simpl in He.
    destruct (N.eqb k k1); [ injection Hf as <-; contradiction | exact Hf ].
  - intros Hn He Hf Hne.
    destruct (N.eqb k k1); [ exact Hf | eapply IH; eauto ].
Qed.

Lemma map_find_erase_none k i : forall t,
  map_find k t = None -> map_find k (erase_at i t) = None.
Proof.
  induction i as [ | j IH]; intros [ | [k1 e1] r]; simpl; auto.
  - destruct (N.eqb k k1); [ discriminate | auto ].
  - destruct (N.eqb k k1); [ discriminate | auto ].
Qed.

(** Resolving a handle never takes away an entry that holds a change. *)
Lemma find_key_keeps_held c h r h' o k e :
  find_key c h = Ret r h' o ->
  map_find k (keyed_changes_ h) = Some e ->
  cache_changes e <> [] ->
  map_find k (keyed_changes_ h') = Some e.
Proof.
  unfold find_key. intros H Hf Hne. inv_run; subst; simpl; auto.
  - rewrite map_find_insert_other; [ exact Hf | congruence ].
  - match goal with
    | E : first_empty _ = Some _ |- _ =>
        apply first_empty_Some in E; destruct E as (entry & Hn & He)
    end.
    rewrite map_find_insert_other; [ | congruence ].
    eapply map_find_erase_empty; eauto.
Qed.

Lemma remove_change_sub_keeps_held x h b h' o k e :
  remove_change_sub x h = Ret b h' o ->
  map_find k (keyed_changes_ h) = Some e ->
  cache_changes e <> [] ->
  map_find k (keyed_changes_ h') <> None.
Proof.
  unfold remove_change_sub. intros H Hf Hne.
  apply bind_Ret in H. destruct H as (nc & h1 & o1 & o2 & H1 & H & _).
  apply gets_Ret in H1. destruct H1 as (-> & -> & _).
  destruct (not_created h); [ inv_run; subst; congruence | ].
  apply bind_Ret in H. destruct H as (keys & h1 & o3 & o4 & H1 & H & _).
  apply gets_Ret in H1. destruct H1 as (-> & -> & _).
  apply bind_Ret in H. destruct H as (u1 & h1 & o5 & o6 & H1 & H & _).
  assert (Hmid : map_find k (keyed_changes_ h1) <> None).
  { clear H. destruct (has_keys_ h).
    - apply bind_Ret in H1. destruct H1 as (vit & h2 & o7 & o8 & Hk & H1 & _).
      pose proof (find_key_keeps_held _ _ _ _ _ _ _ Hk Hf Hne) as Hf2. clear Hk.
      apply bind_Ret in H1. destruct H1 as (found & h3 & o9 & o10 & Hfd & H1 & _).
      assert (Hf3 : map_find k (keyed_changes_ h3) <> None).
      { clear H1. destruct vit as [kv | ].
        - apply bind_Ret in Hfd. destruct Hfd as (e0 & h4 & o11 & o12 & Hd & Hfd & _).
          apply deref_Ret in Hd. destruct Hd as (-> & He0).
          destruct (scan_instance x e0) as [i | ].
          + apply bind_Ret in Hfd. destruct Hfd as (u2 & h5 & o13 & o14 & He & Hr & _).
            apply ret_Ret in Hr. destruct Hr as (_ & -> & _).
            apply erase_in_instance_table in He. rewrite He.
            destruct (N.eq_dec k kv) as [-> | Hd].
            * rewrite map_find_adjust, Hf2. discriminate.
            * rewrite map_find_adjust_other by exact Hd. congruence.
          + apply ret_Ret in Hfd. destruct Hfd as (_ & -> & _). congruence.
        - apply ret_Ret in Hfd. destruct Hfd as (_ & -> & _). congruence. }
      clear Hfd. inv_run; subst; simpl; exact Hf3.
    - inv_run; subst; congruence. }
  clear H1. inv_run.
  all: match goal with
       | Hr : remove_change _ _ = Ret _ _ _ |- _ =>
           apply remove_change_summary in Hr; destruct Hr as (_ & Ek & _)
       end.
  all: subst; simpl in *; congruence.
Qed.

(** The entry [find_key] answers with is the one the table had for the
    handle, or a new empty one. *)
Lemma find_key_entry c h k h' o :
  find_key c h = Ret (Some k) h' o ->
  k = instanceHandle c /\
  map_find k (keyed_changes_ h') =
  Some match map_find k (keyed_changes_ h) with
       | Some e => e
       | None => KeyedChanges_default
       end.
Proof.
  unfold find_key. intros H. inv_run.
  all: try match goal with E : Some _ = Some _ |- _ => injection E as -> end.
  all: try discriminate.
  all: split; [ reflexivity | ].
  all: match goal with E : map_find _ _ = _ |- _ => simpl; rewrite ?E end.
  - reflexivity.
  - apply map_find_insert_new. assumption.
  - apply map_find_insert_new. apply map_find_erase_none. assumption.
Qed.

Lemma find_key_for_change_entry c h k c' h' o :
  find_key_for_change c h = Ret (Some k, c') h' o ->
  k = instanceHandle c' /\
  map_find k (keyed_changes_ h') =
  Some match map_find k (keyed_changes_ h) with
       | Some e => e
       | None => KeyedChanges_default
       end.
Proof.
  unfold find_key_for_change. intros H. inv_run; try discriminate.
  all: repeat match goal with
         | E : (_, _) = (_, _) |- _ => injection E as ? ?
         end; subst.
  all: match goal with
       | H : find_key _ _ = Ret _ _ _ |- _ => apply find_key_entry in H; exact H
       end.
Qed.

(** A sample accepted on a keyed history: the state [h1] it was pushed
    onto. *)
Lemma keyed_accept f c u h c' h' o :
  f = keep_all_with_key \/ f = keep_last_with_key ->
  call_receive_fn f c u h = Ret (true, c') h' o ->
  exists h1 e,
    map_find (instanceHandle c') (keyed_changes_ h1) = Some e /\
    h' = appended_with_key c' (instanceHandle c') h1 /\
    (f = keep_all_with_key ->
     e = match map_find (instanceHandle c') (keyed_changes_ h) with
         | Some e0 => e0
         | None => KeyedChanges_default
         end).
Proof.
  intros [-> | ->]; simpl; intros H.
  - unfold received_change_keep_all_with_key in H.
    apply bind_Ret in H. destruct H as ([vit c1] & h1 & o1 & o2 & Hf & H & _).
    destruct vit as [k | ]; [ | inv_run; discriminate ].
    destruct (find_key_for_change_entry _ _ _ _ _ _ Hf) as (-> & Hentry).
    clear Hf.
    apply bind_Ret in H. destruct H as (e & h2 & o3 & o4 & Hd & H & _).
    apply deref_Ret in Hd. destruct Hd as (-> & He).
    apply bind_Ret in H. destruct H as (d & h2 & o5 & o6 & Hl & H & _).
    apply gets_Ret in Hl. destruct Hl as (-> & -> & _).
    destruct (vsize (cache_changes e) <? Int.to_size_t _); [ | inv_run; discriminate ].
    apply bind_Ret in H. destruct H as (added & h3 & o9 & o10 & Ha & H & _).
    apply ret_Ret in H. destruct H as (E & E3 & _). injection E as E1 E2. subst.
    apply add_received_change_with_key_summary in Ha. destruct Ha as (_ & _ & Ha).
    destruct (Ha eq_refl) as (_ & ->).
    do 2 eexists. split; [ exact Hentry | ].
    split; [ reflexivity | intros _; reflexivity ].
  - unfold received_change_keep_last_with_key in H.
    apply bind_Ret in H. destruct H as ([vit c1] & h1 & o1 & o2 & Hf & H & _).
    destruct vit as [k | ]; [ | inv_run; discriminate ].
    destruct (find_key_for_change_entry _ _ _ _ _ _ Hf) as (-> & Hentry).
    clear Hf.
    apply bind_Ret in H. destruct H as (e & h2 & o3 & o4 & Hd & H & _).
    apply deref_Ret in Hd. destruct Hd as (-> & He).
    apply bind_Ret in H. destruct H as (d & h2 & o5 & o6 & Hl & H & _).
    apply gets_Ret in Hl. destruct Hl as (-> & -> & _).
    apply bind_Ret in H. destruct H as (add & h2 & o7 & o8 & Hadd & H & _).
    destruct add; [ | inv_run; discriminate ].
    apply bind_Ret in H. destruct H as (added & h3 & o9 & o10 & Ha & H & _).
    apply ret_Ret in H. destruct H as (E & E3 & _). injection E as E1 E2. subst.
    apply add_received_change_with_key_summary in Ha. destruct Ha as (_ & _ & Ha).
    destruct (Ha eq_refl) as (_ & ->).
    exists h2.
    destruct (vsize (cache_changes e) <? Int.to_size_t (depth (history_qos_ h1))).
    + apply ret_Ret in Hadd. destruct Hadd as (_ & -> & _).
      exists e. split; [ exact He | ]. split; [ reflexivity | discriminate ].
    + apply bind_Ret in Hadd. destruct Hadd as (oldest & h4 & o11 & o12 & Hat & Hrm & _).
      apply at_Ret in Hat. destruct Hat as (-> & Hold).
      destruct (cache_changes e) eqn:Ec; [ discriminate | ].
      assert (Hne : cache_changes e <> []) by congruence.
      pose proof (remove_change_sub_keeps_held _ _ _ _ _ _ _ Hrm He Hne) as Hheld.
      destruct (map_find _ (keyed_changes_ h2)) as [e2 | ]; [ | congruence ].
      exists e2. split; [ reflexivity | ]. split; [ reflexivity | discriminate ].
Qed.

(** X9.  A sample accepted on a keyed history is the newest change of its
    instance.  When [received_change] returns true through
    [received_change_keep_all_with_key] or
    [received_change_keep_last_with_key], the sample (as the call leaves it,
    with its handle resolved) is the last change of the instance entry of
    its handle.  Under KEEP_ALL the entry is the one the table had for the
    handle before the call, or a new empty one when it had none, with the
    sample pushed at the back and nothing else changed. *)
Theorem accepted_sample_ends_its_instance :
  forall c u h c' h' o,
    receive_fn_ h = keep_all_with_key \/ receive_fn_ h = keep_last_with_key ->
    received_change c u h = Ret (true, c') h' o ->
    (exists w d,
        map_find (instanceHandle c') (keyed_changes_ h')
        = Some {| cache_changes := w ++ [c']; next_deadline_us := d |}) /\
    (receive_fn_ h = keep_all_with_key ->
     map_find (instanceHandle c') (keyed_changes_ h')
     = Some (push_back_change c'
               match map_find (instanceHandle c') (keyed_changes_ h) with
               | Some e => e
               | None => KeyedChanges_default
               end)).
Proof.
  intros c u h c' h' o Hfn H.
  apply received_change_inner in H. destruct H as [(_ & _ & E) | (_ & H)];
    [ discriminate E | ].
  destruct (keyed_accept _ _ _ _ _ _ _ Hfn H) as (h1 & e & He & -> & Hall).
  rewrite keyed_changes_appended_with_key, map_find_adjust, He. simpl.
  split.
  - exists (cache_changes e), (next_deadline_us e). reflexivity.
  - intros Efn. rewrite (Hall Efn). reflexivity.
Qed.

Lemma accepted_sample_ends_its_instance_witness :
  (exists w d,
      map_find (instanceHandle KeyedEviction.a3) (keyed_changes_ KeyedEviction.after_a3)
      = Some {| cache_changes := w ++ [KeyedEviction.a3]; next_deadline_us := d |}) /\
  (receive_fn_ KeyedRemoval.held = keep_all_with_key ->
   map_find (instanceHandle KeyedEviction.a3) (keyed_changes_ KeyedEviction.after_a3)
   = Some (push_back_change KeyedEviction.a3
             match map_find (instanceHandle KeyedEviction.a3)
                     (keyed_changes_ KeyedRemoval.held) with
             | Some e => e
             | None => KeyedChanges_default
             end)).
Proof.
  assert (H0 : receive_fn_ KeyedRemoval.held = keep_all_with_key \/
               receive_fn_ KeyedRemoval.held = keep_last_with_key)
    by (right; reflexivity).
  assert (H : received_change KeyedEviction.a3 0 KeyedRemoval.held
              = Ret (true, KeyedEviction.a3) KeyedEviction.after_a3
                  (logged (received_change KeyedEviction.a3 0 KeyedRemoval.held)))
    by reflexivity.
  exact (accepted_sample_ends_its_instance _ _ _ _ _ _ H0 H).
Defined.

(** ** Taking back what was received *)

Lemma find_index_app_one {A} (p : A -> bool) v x :
  p x = true ->
  find_index p (v ++ [x]) =
  Some match find_index p v with
       | Some i => i
       | None => List.length v
       end.
Proof.
  intros Hx. induction v as [ | y r IH]; simpl.
  - rewrite Hx. reflexivity.
  - destruct (p y); [ reflexivity | ].
    rewrite IH. destruct (find_index p r); reflexivity.
Qed.

Lemma erase_at_last {A} (v : list A) x : erase_at (List.length v) (v ++ [x]) = v.
Proof. induction v as [ | y r IH]; simpl; [ reflexivity | rewrite IH; reflexivity ]. Qed.

Lemma erase_at_app {A} (v l : list A) : forall i,
  (i < List.length v)%nat -> erase_at i (v ++ l) = erase_at i v ++ l.
Proof.
  induction v as [ | y r IH]; intros i Hi; simpl in *; [ lia | ].
  destruct i as [ | j]; simpl; [ reflexivity | ].
  rewrite IH by lia. reflexivity.
Qed.

Lemma find_index_none_all {A} (p : A -> bool) v :
  (forall x, In x v -> p x = false) -> find_index p v = None.
Proof.
  induction v as [ | y r IH]; simpl; intros Hv; [ reflexivity | ].
  rewrite (Hv y (or_introl eq_refl)). rewrite IH; auto.
Qed.

(** X10.  Receiving and taking back, on a keyed history.  After
    [received_change] has accepted a sample, its instance entry lists some
    changes [w] and then the sample.  [remove_change_sub] of the sample
    searches that entry by sequence number and writer, erases the first
    match and then calls [remove_change] on the state so obtained.  When no
    change of [w] has the sequence number and writer of the sample, the
    erased one is the sample, and the entry lists [w] again: under KEEP_ALL
    the entry is then what the table had for the handle before the sample
    arrived (a new empty entry if it had none).  When a change of [w] has
    them, the first such change is erased instead and the sample stays in
    the entry. *)
Theorem received_then_removed :
  forall c u h c' h1 o1,
    has_keys_ h = true ->
    receive_fn_ h = keep_all_with_key \/ receive_fn_ h = keep_last_with_key ->
    received_change c u h = Ret (true, c') h1 o1 ->
    exists w d,
      map_find (instanceHandle c') (keyed_changes_ h1)
      = Some {| cache_changes := w ++ [c']; next_deadline_us := d |} /\
      (receive_fn_ h = keep_all_with_key ->
       {| cache_changes := w; next_deadline_us := d |}
       = match map_find (instanceHandle c') (keyed_changes_ h) with
         | Some e => e
         | None => KeyedChanges_default
         end) /\
      let n := match find_index (fun x => same_identity x c') w with
               | Some i => i
               | None => List.length w
               end in
      let h2 := set_keyed_changes_
                  (map_adjust (erase_change n) (instanceHandle c') (keyed_changes_ h1)) h1 in
      remove_change_sub c' h1 =
      (removed <- remove_change c' ;;
       if removed then modify (set_m_isHistoryFull false) ;; ret true else ret false) h2 /\
      (forall k, k <> instanceHandle c' ->
                 map_find k (keyed_changes_ h2) = map_find k (keyed_changes_ h1)) /\
      ((forall x, In x w -> same_identity x c' = false) ->
       map_find (instanceHandle c') (keyed_changes_ h2)
       = Some {| cache_changes := w; next_deadline_us := d |}) /\
      (forall i, find_index (fun x => same_identity x c') w = Some i ->
                 map_find (instanceHandle c') (keyed_changes_ h2)
                 = Some {| cache_changes := erase_at i w ++ [c']; next_deadline_us := d |}).
Proof.
  intros c u h c' h1 o1 Hk Hfn H.
  pose proof (received_change_summary _ _ _ _ _ _ _ H) as ([F _ _] & _).
  apply frame_fields in F. destruct F as (_ & _ & _ & Ek & _ & _ & Enc).
  apply received_change_inner in H. destruct H as [(_ & _ & E) | (Hnc & H)];
    [ discriminate E | ].
  destruct (keyed_accept _ _ _ _ _ _ _ Hfn H) as (hm & e & He & Eh1 & Hall).
  assert (Hentry : map_find (instanceHandle c') (keyed_changes_ h1)
                   = Some {| cache_changes := cache_changes e ++ [c'];
                             next_deadline_us := next_deadline_us e |}).
  { rewrite Eh1, keyed_changes_appended_with_key, map_find_adjust, He. reflexivity. }
  clear Eh1 He H.
  exists (cache_changes e), (next_deadline_us e).
  split; [ exact Hentry | ].
  split; [ intros Efn; rewrite <- (Hall Efn); destruct e; reflexivity | ].
  assert (Hscan : scan_instance c'
                    {| cache_changes := cache_changes e ++ [c'];
                       next_deadline_us := next_deadline_us e |}
                  = Some match find_index (fun x => same_identity x c') (cache_changes e) with
                         | Some i => i
                         | None => List.length (cache_changes e)
                         end).
  { unfold scan_instance. simpl. apply find_index_app_one. apply same_identity_refl. }
  cbv zeta.
  split; [ | split; [ | split ] ].
  - apply (remove_change_sub_erased_run c' h1 _ _ ltac:(congruence) ltac:(congruence)
             Hentry Hscan).
  - intros k Hne. simpl. apply map_find_adjust_other. exact Hne.
  - intros Hw. simpl. rewrite map_find_adjust, Hentry.
    rewrite (find_index_none_all _ _ Hw). unfold erase_change. simpl.
    rewrite erase_at_last. reflexivity.
  - intros i Hi. simpl. rewrite map_find_adjust, Hentry, Hi.
    unfold erase_change. simpl.
    rewrite erase_at_app by (eapply find_index_lt; exact Hi). reflexivity.
Qed.

Lemma received_then_removed_witness :
  exists w d,
    map_find (instanceHandle KeyedEviction.a3) (keyed_changes_ KeyedEviction.after_a3)
    = Some {| cache_changes := w ++ [KeyedEviction.a3]; next_deadline_us := d |} /\
    (receive_fn_ KeyedRemoval.held = keep_all_with_key ->
     {| cache_changes := w; next_deadline_us := d |}
     = match map_find (instanceHandle KeyedEviction.a3) (keyed_changes_ KeyedRemoval.held) with
       | Some e => e
       | None => KeyedChanges_default
       end) /\
    let n := match find_index (fun x => same_identity x KeyedEviction.a3) w with
             | Some i => i
             | None => List.length w
             end in
    let h2 := set_keyed_changes_
                (map_adjust (erase_change n) (instanceHandle KeyedEviction.a3)
                   (keyed_changes_ KeyedEviction.after_a3)) KeyedEviction.after_a3 in
    remove_change_sub KeyedEviction.a3 KeyedEviction.after_a3 =
    (removed <- remove_change KeyedEviction.a3 ;;
     if removed then modify (set_m_isHistoryFull false) ;; ret true else ret false) h2 /\
    (forall k, k <> instanceHandle KeyedEviction.a3 ->
               map_find k (keyed_changes_ h2) = map_find k (keyed_changes_ KeyedEviction.after_a3)) /\
    ((forall x, In x w -> same_identity x KeyedEviction.a3 = false) ->
     map_find (instanceHandle KeyedEviction.a3) (keyed_changes_ h2)
     = Some {| cache_changes := w; next_deadline_us := d |}) /\
    (forall i, find_index (fun x => same_identity x KeyedEviction.a3) w = Some i ->
               map_find (instanceHandle KeyedEviction.a3) (keyed_changes_ h2)
               = Some {| cache_changes := erase_at i w ++ [KeyedEviction.a3];
                         next_deadline_us := d |}).
Proof.
  assert (H0 : has_keys_ KeyedRemoval.held = true) by reflexivity.
  assert (H1 : receive_fn_ KeyedRemoval.held = keep_all_with_key \/
               receive_fn_ KeyedRemoval.held = keep_last_with_key)
    by (right; reflexivity).
  assert (H : received_change KeyedEviction.a3 0 KeyedRemoval.held
              = Ret (true, KeyedEviction.a3) KeyedEviction.after_a3
                  (logged (received_change KeyedEviction.a3 0 KeyedRemoval.held)))
    by reflexivity.
  exact (received_then_removed _ _ _ _ _ _ H0 H1 H).
Defined.

(** ** Samples that arrive without a handle *)

Lemma find_key_for_change_extracts c h t r c' h' o :
  find_key_for_change c h = Ret (r, c') h' o ->
  isDefined (instanceHandle c) = false ->
  type_ h = Some t ->
  c' = set_instanceHandle (snd (getKey t (serializedPayload c) (instanceHandle c))) c /\
  (fst (getKey t (serializedPayload c) (instanceHandle c)) = false ->
   r = None /\ h' = h /\
   o = [ {| log_level := Info; log_category := SUBSCRIBER;
            log_text := "Getting Key of change with no Key transmitted" |} ]).
Proof.
  unfold find_key_for_change, bind, gets. intros H Hd Ht. rewrite Hd, Ht in H.
  unfold logInfo, log in H. simpl in H.
  destruct (getKey t (serializedPayload c) (instanceHandle c)) as [ok k]. simpl.
  destruct ok; simpl in H.
  - destruct (find_key (set_instanceHandle k c) h) as [vit h1 o1 | f]; [ | discriminate ].
    unfold ret in H. injection H as <- <- <- <-. split; [ reflexivity | discriminate ].
  - unfold ret in H. injection H as <- <- <- <-. auto.
Qed.

(** X11.  A sample that reaches a keyed history without instance handle gets
    its handle from the payload through the type's [getKey]: whatever the
    outcome of [received_change], the handle of the sample is afterwards the
    one [getKey] computed.  When [getKey] fails the sample is refused with
    the history unchanged; when the history has no type to extract the key
    with, the sample is refused with the warning made of 'NO KEY in topic: ',
    the topic's name and ' and no method to obtain it', its handle stays
    undefined and the history is unchanged. *)
Theorem received_change_without_handle :
  forall c u h,
    not_created h = false ->
    receive_fn_ h = keep_all_with_key \/ receive_fn_ h = keep_last_with_key ->
    isDefined (instanceHandle c) = false ->
    match type_ h with
    | Some t =>
        let key := getKey t (serializedPayload c) (instanceHandle c) in
        (forall b c' h' o,
            received_change c u h = Ret (b, c') h' o ->
            c' = set_instanceHandle (snd key) c) /\
        (fst key = false ->
         received_change c u h
         = Ret (false, set_instanceHandle (snd key) c) h
             [ {| log_level := Info; log_category := SUBSCRIBER;
                  log_text := "Getting Key of change with no Key transmitted" |} ])
    | None =>
        received_change c u h
        = Ret (false, c) h
            [ {| log_level := Warning; log_category := SUBSCRIBER;
                 log_text := [Text "NO KEY in topic: "; Text (topic_name_ h);
                              Text " and no method to obtain it"] |} ]
    end.
Proof.
  intros c u h Hnc Hfn Hd.
  assert (Hrun : received_change c u h = call_receive_fn (receive_fn_ h) c u h).
  { unfold received_change, bind, gets. rewrite Hnc.
    destruct (call_receive_fn (receive_fn_ h) c u h); [ rewrite app_nil_l | ]; reflexivity. }
  rewrite Hrun. clear Hrun.
  destruct (type_ h) as [t | ] eqn:Ht.
  - split.
    + intros b c' h' o H.
      destruct Hfn as [Efn | Efn]; rewrite Efn in H; simpl in H;
        [ unfold received_change_keep_all_with_key in H
        | unfold received_change_keep_last_with_key in H ].
      all: apply bind_Ret in H; destruct H as ([vit c1] & h1 & o1 & o2 & Hf & H & _).
      all: destruct (find_key_for_change_extracts _ _ _ _ _ _ _ Hf Hd Ht) as (<- & _).
      all: clear Hf; inv_run.
      all: repeat match goal with
             | E : (_, _) = (_, _) |- _ => injection E as ? ?
             end; subst; reflexivity.
    + intros Hfail.
      assert (Hf : find_key_for_change c h
                   = Ret (None, set_instanceHandle
                                  (snd (getKey t (serializedPayload c) (instanceHandle c))) c)
                       h [ {| log_level := Info; log_category := SUBSCRIBER;
                              log_text := "Getting Key of change with no Key transmitted" |} ]).
      { unfold find_key_for_change, bind, gets. rewrite Hd, Ht.
        unfold logInfo, log. simpl.
        destruct (getKey t (serializedPayload c) (instanceHandle c)) as [ok k].
        simpl in *. subst ok. reflexivity. }
      destruct Hfn as [Efn | Efn]; rewrite Efn; simpl;
        [ unfold received_change_keep_all_with_key
        | unfold received_change_keep_last_with_key ];
        unfold bind at 1; rewrite Hf; reflexivity.
  - assert (Hf : find_key_for_change c h
                 = Ret (None, c) h
                     [ {| log_level := Warning; log_category := SUBSCRIBER;
                          log_text := [Text "NO KEY in topic: "; Text (topic_name_ h);
                                       Text " and no method to obtain it"] |} ]).
    { unfold find_key_for_change, bind, gets. rewrite Hd, Ht. reflexivity. }
    destruct Hfn as [Efn | Efn]; rewrite Efn; simpl;
      [ unfold received_change_keep_all_with_key
      | unfold received_change_keep_last_with_key ];
      unfold bind at 1; rewrite Hf; reflexivity.
Qed.

Lemma received_change_without_handle_witness :
  received_change Scenario.s5 0 KeyedRemoval.held
  = Ret (false, Scenario.s5) KeyedRemoval.held
      [ {| log_level := Info; log_category := SUBSCRIBER;
           log_text := "Getting Key of change with no Key transmitted" |} ].
Proof.
  assert (H0 : not_created KeyedRemoval.held = false) by reflexivity.
  assert (H1 : receive_fn_ KeyedRemoval.held = keep_all_with_key \/
               receive_fn_ KeyedRemoval.held = keep_last_with_key)
    by (right; reflexivity).
  assert (H2 : isDefined (instanceHandle Scenario.s5) = false) by reflexivity.
  exact (proj2 (received_change_without_handle Scenario.s5 0 KeyedRemoval.held H0 H1 H2)
           eq_refl).
Defined.

(** ** Removal by position *)

(** X12.  The override [remove_change_nts(removal, release)], which tests
    neither the reader nor the mutex, cleans the instance table and then
    hands [removal] and [release] to [ReaderHistory::remove_change_nts].  At
    the position of a sample with a defined handle in a keyed history, every
    pointer to the sample is first taken out of the instance entry of that
    handle, all other changes of the entry, its deadline and all other
    entries staying as they were, and the base class is called on the state
    so obtained; if the table has no entry for the handle the assertion
    fails and the base class is not called.  At [changesEnd()], on a
    history without keys, or at a sample with an undefined handle, the call
    is the call of the base class on the unchanged state. *)
Theorem remove_change_nts_behaviour :
  forall i rel h,
    match nth_error (m_changes h) i with
    | None => remove_change_nts i rel h = ReaderHistory_remove_change_nts i rel h
    | Some p =>
        if isDefined (instanceHandle p) && has_keys_ h
        then
          match map_find (instanceHandle p) (keyed_changes_ h) with
          | None => remove_change_nts i rel h = Fault AssertionFailed
          | Some e =>
              exists h1,
                h1 = set_keyed_changes_
                       (map_adjust (scrub_change p) (instanceHandle p) (keyed_changes_ h)) h /\
                remove_change_nts i rel h = ReaderHistory_remove_change_nts i rel h1 /\
                (exists e',
                    map_find (instanceHandle p) (keyed_changes_ h1) = Some e' /\
                    next_deadline_us e' = next_deadline_us e /\
                    cache_changes e'
                    = filter (fun q => negb (ptr_eqb q p)) (cache_changes e) /\
                    forall q, In q (cache_changes e') <->
                              In q (cache_changes e) /\ addr q <> addr p) /\
                (forall k2, k2 <> instanceHandle p ->
                            map_find k2 (keyed_changes_ h1) = map_find k2 (keyed_changes_ h))
          end
        else
          remove_change_nts i rel h = ReaderHistory_remove_change_nts i rel h
    end.
Proof.
  intros i rel h.
  unfold remove_change_nts, bind, gets.
  destruct (nth_error (m_changes h) i) as [p | ] eqn:En.
  - destruct (isDefined (instanceHandle p) && has_keys_ h).
    + destruct (map_find (instanceHandle p) (keyed_changes_ h)) as [e | ] eqn:Ef;
        [ | reflexivity ].
      unfold modify, ret. simpl.
      eexists. split; [ reflexivity | ]. split; [ | split ].
      * unfold scrub_change.
        match goal with |- context [ReaderHistory_remove_change_nts i rel ?s] =>
          destruct (ReaderHistory_remove_change_nts i rel s); reflexivity end.
      * eexists. simpl. split; [ rewrite map_find_adjust, Ef; reflexivity | ]. simpl.
        split; [ reflexivity | ]. split; [ reflexivity | ].
        intros q. rewrite filter_In. unfold ptr_eqb.
        rewrite Bool.negb_true_iff, Nat.eqb_neq. reflexivity.
      * intros k2 Hne. simpl. apply map_find_adjust_other. exact Hne.
    + unfold ret. simpl.
      destruct (ReaderHistory_remove_change_nts i rel h); reflexivity.
  - unfold ret. simpl.
    destruct (ReaderHistory_remove_change_nts i rel h); reflexivity.
Qed.

(** ** Histories without keys *)

Lemma add_received_change_table c h b h' o :
  add_received_change c h = Ret b h' o -> keyed_changes_ h' = keyed_changes_ h.
Proof.
  rewrite add_received_change_eq. destruct (m_isHistoryFull h); intros E;
    injection E as _ <- _; [ reflexivity | apply keyed_changes_appended ].
Qed.

Lemma received_change_keep_last_no_key_table c u h r h' o :
  has_keys_ h = false ->
  not_created h = false ->
  received_change_keep_last_no_key c u h = Ret r h' o ->
  keyed_changes_ h' = keyed_changes_ h.
Proof.
  intros Hk Hnc H. unfold received_change_keep_last_no_key in H.
  apply bind_Ret in H. destruct H as (changes & h1 & o1 & o2 & H1 & H & _).
  apply gets_Ret in H1. destruct H1 as (-> & -> & _).
  apply bind_Ret in H. destruct H as (d & h1 & o3 & o4 & H1 & H & _).
  apply gets_Ret in H1. destruct H1 as (-> & -> & _).
  apply bind_Ret in H. destruct H as (add & h1 & o5 & o6 & Hadd & H & _).
  assert (Ht : keyed_changes_ h1 = keyed_changes_ h).
  { destruct (vsize (m_changes h) <? Int.to_size_t (depth (history_qos_ h))).
    - apply ret_Ret in Hadd. destruct Hadd as (_ & -> & _). reflexivity.
    - apply bind_Ret in Hadd. destruct Hadd as (oldest & h2 & o7 & o8 & Hat & Hrm & _).
      apply at_Ret in Hat. destruct Hat as (-> & _).
      rewrite (remove_change_sub_no_key _ _ Hnc Hk) in Hrm.
      destruct (find_index (ptr_eqb oldest) (m_changes h)); injection Hrm as _ <- _;
        reflexivity. }
  destruct add.
  - apply bind_Ret in H. destruct H as (added & h2 & o7 & o8 & Ha & H & _).
    apply ret_Ret in H. destruct H as (_ & -> & _).
    apply add_received_change_table in Ha. congruence.
  - apply ret_Ret in H. destruct H as (_ & -> & _). exact Ht.
Qed.

Lemma unkeyed_call_keeps_table op h h' :
  has_keys_ h = false ->
  receive_fn_ h = keep_all_no_key \/ receive_fn_ h = keep_last_no_key ->
  after op h = Some h' ->
  keyed_changes_ h' = keyed_changes_ h.
Proof.
  intros Hk Hfn E.
  destruct op; simpl in E; apply final_state_Some in E; destruct E as (a & o & E).
  - destruct a as [b c']. apply received_change_inner in E.
    destruct E as [(_ & -> & _) | (Hnc & E)]; [ reflexivity | ].
    destruct Hfn as [Efn | Efn]; rewrite Efn in E; simpl in E.
    + unfold received_change_keep_all_no_key in E.
      apply bind_Ret in E. destruct E as (changes & h1 & o1 & o2 & H1 & E & _).
      apply gets_Ret in H1. destruct H1 as (_ & -> & _).
      apply bind_Ret in E. destruct E as (limit & h1 & o3 & o4 & H1 & E & _).
      apply gets_Ret in H1. destruct H1 as (_ & -> & _).
      destruct (_ <? _).
      * apply bind_Ret in E. destruct E as (added & h2 & o7 & o8 & Ha & E & _).
        apply ret_Ret in E. destruct E as (_ & -> & _).
        apply add_received_change_table in Ha. exact Ha.
      * apply ret_Ret in E. destruct E as (_ & -> & _). reflexivity.
    + eapply received_change_keep_last_no_key_table; eauto.
  - destruct (not_created h) eqn:Hnc.
    + unfold remove_change_sub in E. revert E. run_monad. rewrite Hnc. simpl.
      intros E. injection E as _ <- _. reflexivity.
    + rewrite (remove_change_sub_no_key _ _ Hnc Hk) in E.
      destruct (find_index (ptr_eqb change) (m_changes h)); injection E as _ <- _; reflexivity.
  - destruct (not_created h) eqn:Hnc.
    + unfold remove_change_sub_it in E. revert E. run_monad. rewrite Hnc. simpl.
      intros E. injection E as _ <- _. reflexivity.
    + rewrite (remove_change_sub_it_no_key _ _ _ Hnc Hk) in E.
      destruct (find_index (ptr_eqb change) (m_changes h)); injection E as _ <- _; reflexivity.
  - revert E.
    unfold remove_change_nts, ReaderHistory_remove_change_nts, changesEnd. run_monad.
    rewrite Hk. destruct (nth_error (m_changes h) removal) as [p | ] eqn:En.
    + rewrite andb_false_r. simpl. rewrite En. intros E. injection E as _ <- _. reflexivity.
    + simpl. rewrite En. intros E. injection E as _ <- _. reflexivity.
  - revert E. unfold set_next_deadline. run_monad.
    destruct (not_created h); simpl; rewrite ?Hk; simpl;
      intros E; injection E as _ <- _; reflexivity.
  - apply get_next_deadline_unchanged in E. subst. reflexivity.
  - apply lookup_instance_unchanged in E. subst. reflexivity.
  - apply get_first_untaken_info_unchanged in E. subst. reflexivity.
Qed.

(** X13.  A history of a type without key never creates an instance: the
    instance table is empty after construction and stays empty whatever
    public calls are made. *)
Theorem unkeyed_history_has_no_instances :
  forall type topic qos r ops h,
    m_isGetKeyDefined type = false ->
    after_all ops (attach r (DataReaderHistory type topic qos)) = Some h ->
    keyed_changes_ h = [].
Proof.
  intros type topic qos r ops h Hkey E.
  assert (Hgen : forall ops h0 h1,
             has_keys_ h0 = false ->
             receive_fn_ h0 = keep_all_no_key \/ receive_fn_ h0 = keep_last_no_key ->
             after_all ops h0 = Some h1 ->
             keyed_changes_ h1 = keyed_changes_ h0).
  { clear. intros ops. induction ops as [ | op rest IH]; simpl; intros h0 h1 Hk Hfn E.
    - injection E as <-. reflexivity.
    - destruct (after op h0) as [h2 | ] eqn:E2; [ | discriminate ].
      pose proof (frame_fields _ _ (after_frame _ _ _ E2)) as (_ & _ & _ & Ek & _ & Ef & _).
      rewrite (IH h2 h1); [ | congruence | rewrite Ef; exact Hfn | exact E ].
      eapply unkeyed_call_keeps_table; eauto. }
  rewrite (Hgen ops (attach r (DataReaderHistory type topic qos)) h); simpl.
  - reflexivity.
  - exact Hkey.
  - rewrite Hkey. simpl. destruct (history_kind (history qos)); auto.
  - exact E.
Qed.

Lemma unkeyed_history_has_no_instances_witness :
  after_all [call_received_change Scenario.s1 0;
             call_received_change Scenario.s2 0;
             call_received_change Scenario.s3 0] Scenario.keep_last_3
  = Some Capacity.three_held /\
  keyed_changes_ Capacity.three_held = [].
Proof.
  assert (H0 : m_isGetKeyDefined Scenario.plain_type = false) by reflexivity.
  assert (H1 : after_all [call_received_change Scenario.s1 0;
                          call_received_change Scenario.s2 0;
                          call_received_change Scenario.s3 0]
                 (attach Scenario.reader
                    (DataReaderHistory Scenario.plain_type Scenario.topic
                       (Scenario.qos KEEP_LAST_HISTORY_QOS 3 5000 10 400)))
               = Some Capacity.three_held) by reflexivity.
  split; [ exact H1 | ].
  exact (unkeyed_history_has_no_instances _ _ _ _ _ _ H0 H1).
Defined.

(** ** The order of the changes of an instance *)

Lemma find_key_for_change_addr c h r c' h' o :
  find_key_for_change c h = Ret (r, c') h' o -> addr c' = addr c.
Proof.
  unfold find_key_for_change. intros H. inv_run.
  all: repeat match goal with
         | E : (_, _) = (_, _) |- _ => injection E as ? ?
         end; subst; reflexivity.
Qed.

Lemma call_receive_fn_addr f c u h b c' h' o :
  call_receive_fn f c u h = Ret (b, c') h' o -> addr c' = addr c.
Proof.
  destruct f; simpl; intros H.
  - unfold received_change_keep_all_no_key in H. inv_run.
    all: repeat match goal with
           | E : (_, _) = (_, _) |- _ => injection E as ? ?
           end; subst; reflexivity.
  - unfold received_change_keep_last_no_key in H. inv_run.
    all: repeat match goal with
           | E : (_, _) = (_, _) |- _ => injection E as ? ?
           end; subst; reflexivity.
  - unfold received_change_keep_all_with_key in H.
    apply bind_Ret in H. destruct H as ([vit c1] & h1 & o1 & o2 & Hf & H & _).
    apply find_key_for_change_addr in Hf. rewrite <- Hf. clear Hf.
    inv_run.
    all: repeat match goal with
           | E : (_, _) = (_, _) |- _ => injection E as ? ?
           end; subst; reflexivity.
  - unfold received_change_keep_last_with_key in H.
    apply bind_Ret in H. destruct H as ([vit c1] & h1 & o1 & o2 & Hf & H & _).
    apply find_key_for_change_addr in Hf. rewrite <- Hf. clear Hf.
    inv_run.
    all: repeat match goal with
           | E : (_, _) = (_, _) |- _ => injection E as ? ?
           end; subst; reflexivity.
Qed.

Lemma subsequence_refl {A} (v : list A) : subsequence v v.
Proof. induction v; constructor; assumption. Qed.

Lemma subsequence_nil_l {A} (w : list A) : subsequence [] w.
Proof. induction w; constructor; assumption. Qed.

Lemma subsequence_trans {A} (u v w : list A) :
  subsequence u v -> subsequence v w -> subsequence u w.
Proof.
  intros Huv Hvw. revert u Huv.
  induction Hvw as [ | x v w _ IH | x v w _ IH]; intros u Huv.
  - exact Huv.
  - apply subsequence_skip. apply IH. exact Huv.
  - inversion Huv; subst.
    + apply subsequence_skip. apply IH. assumption.
    + apply subsequence_keep. apply IH. assumption.
Qed.

Lemma subsequence_erase_at {A} i : forall v : list A, subsequence (erase_at i v) v.
Proof.
  induction i as [ | j IH]; intros [ | x v]; simpl.
  - constructor.
  - apply subsequence_skip. apply subsequence_refl.
  - constructor.
  - apply subsequence_keep. apply IH.
Qed.

Lemma subsequence_filter {A} (p : A -> bool) (v : list A) : subsequence (filter p v) v.
Proof.
  induction v as [ | x v IH]; simpl; [ constructor | ].
  destruct (p x); [ apply subsequence_keep | apply subsequence_skip ]; exact IH.
Qed.

Lemma sorted_keys_move t t' : table_move t t' -> sorted_keys t -> sorted_keys t'.
Proof.
  intros Hm. apply sorted_keys_shrinks.
  eapply shrinks_step; [ exact Hm | apply shrinks_refl ].
Qed.

Lemma map_find_sorted_sub k e t t' :
  sorted_keys t -> (forall p, In p t' -> In p t) ->
  map_find k t' = Some e -> map_find k t = Some e.
Proof.
  intros Hs Hin Hf. apply sorted_keys_find; [ exact Hs | ].
  apply Hin. apply map_find_In. exact Hf.
Qed.

Lemma instance_changes_adjust f k k0 t :
  instance_changes k (map_adjust f k0 t) =
  if N.eqb k k0
  then match map_find k t with
       | Some e => cache_changes (f e)
       | None => []
       end
  else instance_changes k t.
Proof.
  unfold instance_changes. destruct (N.eqb_spec k k0) as [-> | Hne].
  - rewrite map_find_adjust. destruct (map_find k0 t); reflexivity.
  - rewrite map_find_adjust_other by exact Hne. reflexivity.
Qed.

(** A rewrite that adds no sample leaves, under every handle, some of the
    changes that were there, in their order. *)
Lemma table_move_order t t' k :
  table_move t t' -> sorted_keys t ->
  subsequence (instance_changes k t') (instance_changes k t).
Proof.
  intros Hm Hs. destruct Hm as [k0 t | i t Hi | k0 i t | k0 p t | k0 d t].
  - unfold instance_changes at 1.
    destruct (map_find k (map_insert k0 KeyedChanges_default t)) as [e | ] eqn:Ef;
      [ | apply subsequence_nil_l ].
    destruct (N.eq_dec k k0) as [-> | Hne].
    + destruct (map_find k0 t) as [e0 | ] eqn:E0.
      * apply map_find_In in Ef. apply In_map_insert in Ef.
        destruct Ef as [Ef | Ef].
        -- injection Ef as ->. apply subsequence_nil_l.
        -- apply (sorted_keys_find _ _ _ Hs) in Ef.
           unfold instance_changes. rewrite Ef. apply subsequence_refl.
      * rewrite (map_find_insert_new _ _ _ E0) in Ef. injection Ef as <-.
        apply subsequence_nil_l.
    + rewrite map_find_insert_other in Ef by exact Hne.
      unfold instance_changes. rewrite Ef. apply subsequence_refl.
  - unfold instance_changes at 1.
    destruct (map_find k (erase_at i t)) as [e | ] eqn:Ef; [ | apply subsequence_nil_l ].
    apply (map_find_sorted_sub _ _ t) in Ef;
      [ | exact Hs | intros q; apply In_erase_at ].
    unfold instance_changes. rewrite Ef. apply subsequence_refl.
  - rewrite instance_changes_adjust. unfold instance_changes.
    destruct (N.eqb k k0); [ | apply subsequence_refl ].
    destruct (map_find k t); [ apply subsequence_erase_at | constructor ].
  - rewrite instance_changes_adjust. unfold instance_changes.
    destruct (N.eqb k k0); [ | apply subsequence_refl ].
    destruct (map_find k t); [ apply subsequence_filter | constructor ].
  - rewrite instance_changes_adjust. unfold instance_changes.
    destruct (N.eqb k k0); [ | apply subsequence_refl ].
    destruct (map_find k t); [ apply subsequence_refl | constructor ].
Qed.

Lemma table_shrinks_order t t' k :
  table_shrinks t t' -> sorted_keys t ->
  subsequence (instance_changes k t') (instance_changes k t).
Proof.
  induction 1 as [ | t1 t2 t3 Hm _ IH]; intros Hs; [ apply subsequence_refl | ].
  eapply subsequence_trans.
  - apply IH. eapply sorted_keys_move; eauto.
  - apply table_move_order; assumption.
Qed.

(** The rewrite of the table by any public call: moves, then at most the
    push of the change [received_change] was given. *)
Lemma public_call_push op h h' :
  after op h = Some h' ->
  exists t1,
    table_shrinks (keyed_changes_ h) t1 /\
    (keyed_changes_ h' = t1 \/
     exists c u c' k,
       op = call_received_change c u /\ addr c' = addr c /\
       keyed_changes_ h' = map_adjust (push_back_change c') k t1).
Proof.
  destruct op; simpl; intros E; apply final_state_Some in E; destruct E as (a & o & E).
  - destruct a as [b c'].
    apply received_change_inner in E. destruct E as [(_ & -> & _) | (_ & E)].
    + eexists. split; [ apply shrinks_refl | auto ].
    + pose proof (call_receive_fn_addr _ _ _ _ _ _ _ _ E) as Ea.
      unfold call_receive_fn in E. destruct (receive_fn_ h).
      * eexists. split; [ eapply received_change_keep_all_no_key_shrinks; eauto | auto ].
      * eexists. split; [ eapply received_change_keep_last_no_key_shrinks; eauto | auto ].
      * apply received_change_keep_all_with_key_table in E.
        destruct E as [(_ & Hs) | (_ & t1 & e1 & Hs & _ & _ & Et)].
        -- eexists. split; [ exact Hs | auto ].
        -- exists t1. split; [ exact Hs | ]. right.
           exists a_change, unknown_missing_changes_up_to, c', (instanceHandle c'). auto.
      * apply received_change_keep_last_with_key_push in E.
        destruct E as (t1 & Hs & [Et | (k & Et)]).
        -- exists t1. auto.
        -- exists t1. split; [ exact Hs | ]. right.
           exists a_change, unknown_missing_changes_up_to, c', k. auto.
  - eexists. split; [ eapply remove_change_sub_shrinks; eauto | auto ].
  - eexists. split; [ eapply remove_change_sub_it_shrinks; eauto | auto ].
  - eexists. split; [ eapply remove_change_nts_shrinks; eauto | auto ].
  - eexists. split; [ eapply set_next_deadline_shrinks; eauto | auto ].
  - apply get_next_deadline_unchanged in E. subst.
    eexists. split; [ apply shrinks_refl | auto ].
  - apply lookup_instance_unchanged in E. subst.
    eexists. split; [ apply shrinks_refl | auto ].
  - apply get_first_untaken_info_unchanged in E. subst.
    eexists. split; [ apply shrinks_refl | auto ].
Qed.

(** X14.  The changes of an instance stay in the order in which they were
    accepted.  On a history whose instance table is ordered by handle (as
    that of every history reached from the constructor is), every public
    call that returns leaves under each handle some of the changes that were
    listed there, in the order they had, followed by at most one new change;
    only [received_change] adds one, at the back, and it is the change it
    was given.  A handle without entry counts as listing no change. *)
Theorem instance_keeps_arrival_order :
  forall op h h',
    sorted_keys (keyed_changes_ h) ->
    after op h = Some h' ->
    forall k,
      exists v,
        subsequence v (instance_changes k (keyed_changes_ h)) /\
        (instance_changes k (keyed_changes_ h') = v \/
         exists c u c',
           op = call_received_change c u /\ addr c' = addr c /\
           instance_changes k (keyed_changes_ h') = v ++ [c']).
Proof.
  intros op h h' Hs E k.
  destruct (public_call_push _ _ _ E) as (t1 & Hsh & Ht).
  exists (instance_changes k t1).
  split; [ apply table_shrinks_order; assumption | ].
  destruct Ht as [-> | (c & u & c' & k0 & Eop & Ea & ->)]; [ left; reflexivity | ].
  rewrite instance_changes_adjust. unfold instance_changes.
  destruct (N.eqb k k0); [ | left; reflexivity ].
  destruct (map_find k t1) as [e | ]; [ | left; reflexivity ].
  right. exists c, u, c'. auto.
Qed.

Lemma instance_keeps_arrival_order_witness :
  exists v,
    subsequence v (instance_changes Scenario.A (keyed_changes_ KeyedRemoval.held)) /\
    (instance_changes Scenario.A (keyed_changes_ KeyedEviction.after_a3) = v \/
     exists c u c',
       call_received_change KeyedEviction.a3 0 = call_received_change c u /\
       addr c' = addr c /\
       instance_changes Scenario.A (keyed_changes_ KeyedEviction.after_a3) = v ++ [c']).
Proof.
  assert (H0 : sorted_keys (keyed_changes_ KeyedRemoval.held))
    by (simpl; repeat constructor).
  assert (H : after (call_received_change KeyedEviction.a3 0) KeyedRemoval.held
              = Some KeyedEviction.after_a3) by reflexivity.
  exact (instance_keeps_arrival_order _ _ _ H0 H Scenario.A).
Defined.

(** ** Instances that hold changes are not reclaimed *)

Lemma map_find_adjust_kept f k k2 t :
  map_find k t <> None -> map_find k (map_adjust f k2 t) <> None.
Proof.
  intros H. destruct (N.eq_dec k k2) as [-> | Hne].
  - rewrite map_find_adjust. destruct (map_find k2 t); [ discriminate | congruence ].
  - rewrite map_find_adjust_other by exact Hne. exact H.
Qed.

Lemma find_key_for_change_keeps_held c h r h' o k e :
  find_key_for_change c h = Ret r h' o ->
  map_find k (keyed_changes_ h) = Some e ->
  cache_changes e <> [] ->
  map_find k (keyed_changes_ h') = Some e.
Proof.
  unfold find_key_for_change. intros H Hf Hne. inv_run; subst; auto.
  all: match goal with
       | Hk : find_key _ _ = Ret _ _ _ |- _ =>
           eapply find_key_keeps_held in Hk; eauto
       end.
Qed.

Lemma add_received_change_with_key_kept c k2 h b h' o k :
  add_received_change_with_key c k2 h = Ret b h' o ->
  map_find k (keyed_changes_ h) <> None ->
  map_find k (keyed_changes_ h') <> None.
Proof.
  rewrite add_received_change_with_key_eq.
  destruct (m_isHistoryFull h); [ | destruct (mp_reader h); [ | discriminate ] ];
    intros E Hf; injection E as _ <- _; [ exact Hf | ].
  rewrite keyed_changes_appended_with_key. apply map_find_adjust_kept. exact Hf.
Qed.

Lemma remove_change_nts_kept i rel h j h' o k :
  remove_change_nts i rel h = Ret j h' o ->
  map_find k (keyed_changes_ h) <> None ->
  map_find k (keyed_changes_ h') <> None.
Proof.
  unfold remove_change_nts. intros H Hf. inv_run.
  all: match goal with
       | E : ReaderHistory_remove_change_nts _ _ _ = Ret _ _ _ |- _ =>
           apply ReaderHistory_remove_change_nts_summary in E;
           destruct E as (_ & Ek & _); rewrite Ek
       end.
  all: subst; simpl; auto using map_find_adjust_kept.
Qed.

Lemma call_receive_fn_keeps_held f c u h r h' o k e :
  not_created h = false ->
  call_receive_fn f c u h = Ret r h' o ->
  map_find k (keyed_changes_ h) = Some e ->
  cache_changes e <> [] ->
  map_find k (keyed_changes_ h') <> None.
Proof.
  intros Hnc H Hf Hne. destruct f; simpl in H.
  - unfold received_change_keep_all_no_key in H. inv_run; subst; try congruence.
    match goal with
    | Ha : add_received_change _ _ = Ret _ _ _ |- _ =>
        apply add_received_change_table in Ha; rewrite Ha; congruence
    end.
  - unfold received_change_keep_last_no_key in H.
    apply bind_Ret in H. destruct H as (changes & h1 & o1 & o2 & H1 & H & _).
    apply gets_Ret in H1. destruct H1 as (-> & -> & _).
    apply bind_Ret in H. destruct H as (d & h1 & o3 & o4 & H1 & H & _).
    apply gets_Ret in H1. destruct H1 as (-> & -> & _).
    apply bind_Ret in H. destruct H as (add & h1 & o5 & o6 & Hadd & H & _).
    assert (Ht : map_find k (keyed_changes_ h1) <> None).
    { destruct (vsize (m_changes h) <? Int.to_size_t (depth (history_qos_ h))).
      - apply ret_Ret in Hadd. destruct Hadd as (_ & -> & _). congruence.
      - apply bind_Ret in Hadd. destruct Hadd as (oldest & h2 & o7 & o8 & Hat & Hrm & _).
        apply at_Ret in Hat. destruct Hat as (-> & _).
        eapply remove_change_sub_keeps_held; eauto. }
    destruct add.
    + apply bind_Ret in H. destruct H as (added & h2 & o7 & o8 & Ha & H & _).
      apply ret_Ret in H. destruct H as (_ & -> & _).
      apply add_received_change_table in Ha. rewrite Ha. exact Ht.
    + apply ret_Ret in H. destruct H as (_ & -> & _). exact Ht.
  - unfold received_change_keep_all_with_key in H.
    apply bind_Ret in H. destruct H as ([vit c1] & h1 & o1 & o2 & Hk & H & _).
    pose proof (find_key_for_change_keeps_held _ _ _ _ _ _ _ Hk Hf Hne) as Hf1. clear Hk.
    destruct vit as [kv | ]; [ | inv_run; subst; congruence ].
    apply bind_Ret in H. destruct H as (e0 & h2 & o3 & o4 & Hd & H & _).
    apply deref_Ret in Hd. destruct Hd as (-> & _).
    apply bind_Ret in H. destruct H as (limit & h2 & o5 & o6 & Hl & H & _).
    apply gets_Ret in Hl. destruct Hl as (_ & -> & _).
    destruct (_ <? _).
    + apply bind_Ret in H. destruct H as (added & h3 & o7 & o8 & Ha & H & _).
      apply ret_Ret in H. destruct H as (_ & -> & _).
      eapply add_received_change_with_key_kept; [ exact Ha | congruence ].
    + inv_run; subst; congruence.
  - unfold received_change_keep_last_with_key in H.
    apply bind_Ret in H. destruct H as ([vit c1] & h1 & o1 & o2 & Hk & H & _).
    pose proof (find_key_for_change_keeps_held _ _ _ _ _ _ _ Hk Hf Hne) as Hf1. clear Hk.
    destruct vit as [kv | ]; [ | inv_run; subst; congruence ].
    apply bind_Ret in H. destruct H as (e0 & h2 & o3 & o4 & Hd & H & _).
    apply deref_Ret in Hd. destruct Hd as (-> & _).
    apply bind_Ret in H. destruct H as (d & h2 & o5 & o6 & Hl & H & _).
    apply gets_Ret in Hl. destruct Hl as (_ & -> & _).
    apply bind_Ret in H. destruct H as (add & h2 & o7 & o8 & Hadd & H & _).
    assert (Ht : map_find k (keyed_changes_ h2) <> None).
    { destruct (_ <? _).
      - apply ret_Ret in Hadd. destruct Hadd as (_ & -> & _). congruence.
      - apply bind_Ret in Hadd. destruct Hadd as (oldest & h3 & o9 & o10 & Hat & Hrm & _).
        apply at_Ret in Hat. destruct Hat as (-> & _).
        eapply remove_change_sub_keeps_held; eauto. }
    destruct add.
    + apply bind_Ret in H. destruct H as (added & h3 & o9 & o10 & Ha & H & _).
      apply ret_Ret in H. destruct H as (_ & -> & _).
      eapply add_received_change_with_key_kept; eauto.
    + apply ret_Ret in H. destruct H as (_ & -> & _). exact Ht.
Qed.

Lemma remove_change_sub_it_keeps_held x it h r h' o k e :
  remove_change_sub_it x it h = Ret r h' o ->
  map_find k (keyed_changes_ h) = Some e ->
  cache_changes e <> [] ->
  map_find k (keyed_changes_ h') <> None.
Proof.
  unfold remove_change_sub_it. intros H Hf Hne.
  apply bind_Ret in H. destruct H as (nc & h1 & o1 & o2 & H1 & H & _).
  apply gets_Ret in H1. destruct H1 as (-> & -> & _).
  destruct (not_created h); [ inv_run; subst; congruence | ].
  apply bind_Ret in H. destruct H as (keys & h1 & o3 & o4 & H1 & H & _).
  apply gets_Ret in H1. destruct H1 as (-> & -> & _).
  apply bind_Ret in H. destruct H as (it1 & h1 & o5 & o6 & H1 & H & _).
  assert (Hmid : map_find k (keyed_changes_ h1) <> None).
  { clear H. destruct (has_keys_ h).
    - apply bind_Ret in H1. destruct H1 as (vit & h2 & o7 & o8 & Hk & H1 & _).
      pose proof (find_key_keeps_held _ _ _ _ _ _ _ Hk Hf Hne) as Hf2. clear Hk.
      apply bind_Ret in H1. destruct H1 as ([found it2] & h3 & o9 & o10 & Hfd & H1 & _).
      assert (Hf3 : map_find k (keyed_changes_ h3) <> None).
      { clear H1. destruct vit as [kv | ].
        - apply bind_Ret in Hfd. destruct Hfd as (e0 & h4 & o11 & o12 & Hd & Hfd & _).
          apply deref_Ret in Hd. destruct Hd as (-> & He0).
          destruct (scan_instance x e0) as [i | ].
          + destruct (iterator_eqb it _); [ | apply raise_Ret in Hfd; contradiction ].
            apply bind_Ret in Hfd. destruct Hfd as (u2 & h5 & o13 & o14 & He & Hr & _).
            apply ret_Ret in Hr. destruct Hr as (_ & -> & _).
            apply erase_in_instance_table in He. rewrite He.
            apply map_find_adjust_kept. congruence.
          + apply ret_Ret in Hfd. destruct Hfd as (_ & -> & _). congruence.
        - apply ret_Ret in Hfd. destruct Hfd as (_ & -> & _). congruence. }
      clear Hfd. inv_run; subst; simpl; exact Hf3.
    - inv_run; subst; congruence. }
  clear H1.
  apply bind_Ret in H. destruct H as (chit & h2 & o7 & o8 & H1 & H & _).
  apply find_change_nts_Ret in H1. destruct H1 as (-> & _).
  apply bind_Ret in H. destruct H as (en & h2 & o9 & o10 & H1 & H & _).
  unfold changesEnd in H1. apply gets_Ret in H1. destruct H1 as (_ & -> & _).
  destruct (Nat.eqb chit en); [ inv_run; subst; exact Hmid | ].
  apply bind_Ret in H. destruct H as (u3 & h2 & o11 & o12 & H1 & H & _).
  apply modify_Ret in H1. destruct H1 as (-> & _).
  apply bind_Ret in H. destruct H as (ret_it & h3 & o13 & o14 & H1 & H & _).
  eapply remove_change_nts_kept in H1; [ | simpl; exact Hmid ].
  destruct (negb (has_keys_ h)); apply ret_Ret in H; destruct H as (_ & -> & _); exact H1.
Qed.

(** X15.  An instance is reclaimed only when it holds nothing: no public
    call takes away the entry of an instance that holds a change when the
    call starts (the call may empty the entry, but the entry is still there
    when it returns). *)
Theorem held_instance_survives :
  forall op h h' k e,
    after op h = Some h' ->
    map_find k (keyed_changes_ h) = Some e ->
    cache_changes e <> [] ->
    map_find k (keyed_changes_ h') <> None.
Proof.
  intros op h h' k e E Hf Hne.
  assert (Hin : map_find k (keyed_changes_ h) <> None) by congruence.
  destruct op; simpl in E; apply final_state_Some in E; destruct E as (a & o & E).
  - apply received_change_inner in E.
    destruct E as [(_ & -> & _) | (Hnc & E)]; [ exact Hin | ].
    eapply call_receive_fn_keeps_held; eauto.
  - eapply remove_change_sub_keeps_held; eauto.
  - eapply remove_change_sub_it_keeps_held; eauto.
  - eapply remove_change_nts_kept; eauto.
  - revert E. unfold set_next_deadline. run_monad.
    destruct (not_created h); [ intros E; injection E as _ <- _; exact Hin | ].
    destruct (negb (has_keys_ h)); [ intros E; injection E as _ <- _; exact Hin | ].
    simpl. destruct (map_find handle (keyed_changes_ h));
      intros E; injection E as _ <- _; simpl; [ | exact Hin ].
    apply map_find_adjust_kept. exact Hin.
  - apply get_next_deadline_unchanged in E. subst. exact Hin.
  - apply lookup_instance_unchanged in E. subst. exact Hin.
  - apply get_first_untaken_info_unchanged in E. subst. exact Hin.
Qed.

Lemma held_instance_survives_witness :
  after (call_received_change KeyedFull.c1 0) KeyedFull.full_two_instances
  = Some (set_keyed_changes_
            [ (Scenario.A, {| cache_changes := [KeyedFull.a1]; next_deadline_us := 0 |});
              (Scenario.C, KeyedChanges_default) ] KeyedFull.full_two_instances) /\
  map_find Scenario.A
    (keyed_changes_
       (set_keyed_changes_
          [ (Scenario.A, {| cache_changes := [KeyedFull.a1]; next_deadline_us := 0 |});
            (Scenario.C, KeyedChanges_default) ] KeyedFull.full_two_instances)) <> None.
Proof.
  assert (H0 : after (call_received_change KeyedFull.c1 0) KeyedFull.full_two_instances
               = Some (set_keyed_changes_
                         [ (Scenario.A, {| cache_changes := [KeyedFull.a1];
                                           next_deadline_us := 0 |});
                           (Scenario.C, KeyedChanges_default) ]
                         KeyedFull.full_two_instances)) by reflexivity.
  assert (H1 : map_find Scenario.A (keyed_changes_ KeyedFull.full_two_instances)
               = Some {| cache_changes := [KeyedFull.a1]; next_deadline_us := 0 |})
    by reflexivity.
  assert (H2 : cache_changes {| cache_changes := [KeyedFull.a1]; next_deadline_us := 0 |}
               <> []) by discriminate.
  split; [ exact H0 | ].
  exact (held_instance_survives _ _ _ _ _ H0 H1 H2).
Defined.

(** * The reader locator *)

Section LocatorFacts.
Import Locator.
Context {C : Collaborators}.

Lemma guid_eqb_eq a b : guid_eqb a b = true <-> a = b.
Proof.
  unfold guid_eqb. rewrite andb_true_iff, !N.eqb_eq.
  destruct a, b; simpl. split; [ intros (-> & ->); reflexivity | intros E; inversion E; auto ].
Qed.

Lemma guid_eqb_refl a : guid_eqb a a = true.
Proof. apply guid_eqb_eq. reflexivity. Qed.

Lemma guid_eqb_neq a b : a <> b -> guid_eqb a b = false.
Proof.
  intros Hne. destruct (guid_eqb a b) eqn:E; [ | reflexivity ].
  apply guid_eqb_eq in E. contradiction.
Qed.

Ltac compute_locator :=
  cbv [start update stop stop_guid send local_reader datasharing_notify
       is_datasharing_reader
       bind gets modify ret raise emit on_locator_info_ on_datasharing_notifier_
       assign_at_0 refreshed option_map tl hd_error
       set_locator_info_ set_local_reader_ set_is_local_reader_
       set_guid_prefix_as_vector_ set_guid_as_vector_ set_expects_inline_qos_
       set_datasharing_notifier_ set_remote_guid set_unicast set_multicast
       owner_ locator_info_ expects_inline_qos_ is_local_reader_ local_reader_
       guid_prefix_as_vector_ guid_as_vector_ datasharing_notifier_
       remote_guid unicast multicast selection
       guid_eqb c_Guid_Unknown c_GuidPrefix_Unknown guidPrefix entityId
       N.eqb andb orb negb Bool.eqb app].

(** X16.  [start] takes a locator that is not in use and refuses one that
    is.  On a locator with a remote GUID it returns false and changes
    nothing.  On a locator without one it returns true, having recorded the
    remote GUID (in the selector entry and at position 0 of both GUID
    vectors) and the inline-QoS flag, decided whether the reader is local,
    forgotten any cached local reader, taken the given locators unless the
    reader is local or data-sharing, and reset and enabled the selector
    entry; for a data-sharing reader the notifier is enabled for the remote
    GUID, and is dereferenced without a test: without notifier the call does
    not return. *)
Theorem start_only_when_idle :
  forall (l : ReaderLocator) remote unicast_locators multicast_locators
         expects_inline_qos is_datasharing,
    (remote_guid (locator_info_ l) <> c_Guid_Unknown ->
     start remote unicast_locators multicast_locators expects_inline_qos is_datasharing l
     = Done false l []) /\
    (remote_guid (locator_info_ l) = c_Guid_Unknown ->
     guid_as_vector_ l <> [] ->
     guid_prefix_as_vector_ l <> [] ->
     let local := should_intraprocess_between (getGuid (owner_ l)) remote in
     match is_datasharing, datasharing_notifier_ l with
     | true, None =>
         start remote unicast_locators multicast_locators expects_inline_qos is_datasharing l
         = Crash NullDereference
     | _, notifier =>
         start remote unicast_locators multicast_locators expects_inline_qos is_datasharing l
         = Done true
             {| owner_ := owner_ l;
                locator_info_ :=
                  refreshed (negb local && negb is_datasharing)
                    unicast_locators multicast_locators
                    (set_remote_guid remote (locator_info_ l));
                expects_inline_qos_ := expects_inline_qos;
                is_local_reader_ := local;
                local_reader_ := None;
                guid_prefix_as_vector_ := guidPrefix remote :: tl (guid_prefix_as_vector_ l);
                guid_as_vector_ := remote :: tl (guid_as_vector_ l);
                datasharing_notifier_ :=
                  if is_datasharing then option_map (notifier_enable remote) notifier
                  else notifier |} []
     end).
Proof.
  intros l remote u m q d. split.
  - intros Hne. unfold start, bind, gets.
    rewrite (guid_eqb_neq _ _ Hne). reflexivity.
  - destruct l as [ow [g un mu sel] ex il lr gp ga dn]. simpl.
    intros -> Hg Hp.
    destruct ga as [ | g0 gs]; [ congruence | ].
    destruct gp as [ | p0 ps]; [ congruence | ].
    destruct d, dn as [n | ];
      destruct (should_intraprocess_between (getGuid ow) remote) eqn:El;
      compute_locator;
      rewrite ?El; cbv [negb andb app]; reflexivity.
Qed.

Lemma start_without_datasharing (l : ReaderLocator) remote u m q :
  remote_guid (locator_info_ l) = c_Guid_Unknown ->
  guid_as_vector_ l <> [] ->
  guid_prefix_as_vector_ l <> [] ->
  exists l2, start remote u m q false l = Done true l2 [].
Proof.
  destruct l as [ow [g un mu sel] ex il lr gp ga dn]. simpl.
  intros -> Hg Hp.
  destruct ga as [ | g0 gs]; [ congruence | ].
  destruct gp as [ | p0 ps]; [ congruence | ].
  destruct (should_intraprocess_between (getGuid ow) remote) eqn:El;
    compute_locator; rewrite ?El; cbv [negb andb app]; eexists; reflexivity.
Qed.

(** The state [stop()] leaves. *)
Lemma stop_Done l g0 gs p0 ps :
  guid_as_vector_ l = g0 :: gs ->
  guid_prefix_as_vector_ l = p0 :: ps ->
  stop l =
  Done tt
    {| owner_ := owner_ l;
       locator_info_ :=
         let i := entry_reset (entry_enable false (locator_info_ l)) in
         {| remote_guid := c_Guid_Unknown;
            unicast := locators_clear (unicast i);
            multicast := locators_clear (multicast i);
            selection := selection i |};
       expects_inline_qos_ := false;
       is_local_reader_ := false;
       local_reader_ := None;
       guid_prefix_as_vector_ := c_GuidPrefix_Unknown :: ps;
       guid_as_vector_ := c_Guid_Unknown :: gs;
       datasharing_notifier_ := option_map notifier_disable (datasharing_notifier_ l) |} [].
Proof.
  destruct l as [ow [g un mu sel] ex il lr gp ga dn]. simpl.
  intros -> ->. destruct dn as [n | ]; compute_locator; reflexivity.
Qed.

(** X17.  [stop()] releases the locator: afterwards it has no remote GUID
    (in the selector entry and at position 0 of both GUID vectors), its
    locator vectors have been cleared, its flags are false, no local reader
    is cached and the notifier, if any, has been disabled.  On the locator it
    leaves, [send] sends nothing and returns true, and [start] succeeds
    again for a reader that is not data-sharing.  [stop(guid)] does this and
    returns true when [guid] is the remote GUID; otherwise it returns false
    and changes nothing. *)
Theorem stop_releases :
  forall (l : ReaderLocator),
    guid_as_vector_ l <> [] ->
    guid_prefix_as_vector_ l <> [] ->
    exists l',
      stop l = Done tt l' [] /\
      remote_guid (locator_info_ l') = c_Guid_Unknown /\
      unicast (locator_info_ l')
      = locators_clear (unicast (entry_reset (entry_enable false (locator_info_ l)))) /\
      multicast (locator_info_ l')
      = locators_clear (multicast (entry_reset (entry_enable false (locator_info_ l)))) /\
      hd_error (guid_as_vector_ l') = Some c_Guid_Unknown /\
      hd_error (guid_prefix_as_vector_ l') = Some c_GuidPrefix_Unknown /\
      expects_inline_qos_ l' = false /\
      is_local_reader_ l' = false /\
      local_reader_ l' = None /\
      datasharing_notifier_ l' = option_map notifier_disable (datasharing_notifier_ l) /\
      (forall message max_blocking_time_point,
          send message max_blocking_time_point l' = Done true l' []) /\
      (forall remote unicast_locators multicast_locators expects_inline_qos,
          exists l2,
            start remote unicast_locators multicast_locators expects_inline_qos false l'
            = Done true l2 []) /\
      (forall remote,
          stop_guid remote l =
          if guid_eqb (remote_guid (locator_info_ l)) remote
          then Done true l' []
          else Done false l []).
Proof.
  intros l Hg Hp.
  destruct (guid_as_vector_ l) as [ | g0 gs] eqn:Eg; [ congruence | ].
  destruct (guid_prefix_as_vector_ l) as [ | p0 ps] eqn:Ep; [ congruence | ].
  pose proof (stop_Done l g0 gs p0 ps Eg Ep) as Es.
  eexists. split; [ exact Es | ]. simpl.
  do 9 (split; [ reflexivity | ]).
  split; [ | split ].
  - intros message t. compute_locator. reflexivity.
  - intros remote u m q. apply start_without_datasharing; simpl; congruence.
  - intros remote. unfold stop_guid.
    unfold bind at 1. unfold gets at 1. cbv beta iota.
    destruct (guid_eqb (remote_guid (locator_info_ l)) remote); [ | reflexivity ].
    unfold bind. rewrite Es. reflexivity.
Qed.

(** X18.  [update] reports whether there was something to change.  It
    returns false exactly when the inline-QoS flag is the one given and both
    locator vectors compare equal to the ones given, and then the locator is
    unchanged.  When a vector differs the selector entry is reset and
    enabled, but the given locators are taken only for a reader that is
    neither local nor data-sharing: for a local or data-sharing reader the
    entry keeps the vectors it had.  Nothing but the flag and the selector
    entry is written, and nothing is sent. *)
Theorem update_reports_change :
  forall (l : ReaderLocator) unicast_locators multicast_locators expects_inline_qos,
    let info := locator_info_ l in
    let same_locators :=
      locators_eqb (unicast info) unicast_locators
      && locators_eqb (multicast info) multicast_locators in
    let take := negb (is_local_reader_ l) && negb (is_datasharing_reader l) in
    exists b l',
      update unicast_locators multicast_locators expects_inline_qos l = Done b l' [] /\
      (b = false <-> expects_inline_qos_ l = expects_inline_qos /\ same_locators = true) /\
      (b = false -> l' = l) /\
      expects_inline_qos_ l' = expects_inline_qos /\
      locator_info_ l'
      = (if same_locators then info
         else refreshed take unicast_locators multicast_locators info) /\
      owner_ l' = owner_ l /\
      is_local_reader_ l' = is_local_reader_ l /\
      local_reader_ l' = local_reader_ l /\
      guid_as_vector_ l' = guid_as_vector_ l /\
      guid_prefix_as_vector_ l' = guid_prefix_as_vector_ l /\
      datasharing_notifier_ l' = datasharing_notifier_ l.
Proof.
  intros l u m q.
  destruct l as [ow [g un mu sel] ex il lr gp ga dn].
  cbv zeta. cbv [locator_info_ unicast multicast is_local_reader_ expects_inline_qos_].
  assert (Hd : is_datasharing_reader
                 {| owner_ := ow;
                    locator_info_ := {| remote_guid := g; unicast := un; multicast := mu;
                                        selection := sel |};
                    expects_inline_qos_ := ex; is_local_reader_ := il; local_reader_ := lr;
                    guid_prefix_as_vector_ := gp; guid_as_vector_ := ga;
                    datasharing_notifier_ := dn |}
               = match dn with Some n => notifier_is_enabled n | None => false end)
    by reflexivity.
  rewrite Hd. clear Hd.
  set (ds := match dn with Some n => notifier_is_enabled n | None => false end).
  assert (Hds : match dn with Some n => notifier_is_enabled n | None => false end = ds)
    by reflexivity.
  destruct (locators_eqb un u) eqn:Eu, (locators_eqb mu m) eqn:Em;
    destruct ex, q, il, ds;
    compute_locator; rewrite ?Eu, ?Em; cbv [andb orb negb]; rewrite ?Hds;
    cbv [andb orb negb app];
    do 2 eexists; (split; [ reflexivity | ]);
    cbv [expects_inline_qos_ locator_info_ owner_ is_local_reader_ local_reader_
         guid_as_vector_ guid_prefix_as_vector_ datasharing_notifier_];
    repeat split; try reflexivity; try discriminate; try tauto;
    try (intros (? & ?); discriminate).
Qed.

(** X19.  [datasharing_notify] notifies once or does not return.  For a
    local reader that is cached, or that the domain registry finds (it is
    then cached), the reader's listener is notified; otherwise the notifier
    is, and it is dereferenced without a test: without notifier the call
    does not return.  For a reader that is not local the registry is not
    consulted. *)
Theorem datasharing_notify_outcome :
  forall (l : ReaderLocator),
    let found :=
      if is_local_reader_ l
      then match local_reader_ l with
           | Some r => Some r
           | None => find_local_reader (remote_guid (locator_info_ l))
           end
      else None in
    let looked_up := if is_local_reader_ l then set_local_reader_ found l else l in
    datasharing_notify l =
    match found, datasharing_notifier_ l with
    | Some r, _ => Done tt looked_up [ListenerNotified r]
    | None, Some n =>
        Done tt (set_datasharing_notifier_ (Some (notifier_notify n)) looked_up)
          [NotifierNotified]
    | None, None => Crash NullDereference
    end.
Proof.
  intros l. destruct l as [ow [g un mu sel] ex il lr gp ga dn].
  destruct il, lr as [r | ], dn as [n | ]; compute_locator;
    try reflexivity;
    destruct (find_local_reader g) as [r | ]; reflexivity.
Qed.

End LocatorFacts.

Lemma start_only_when_idle_witness :
  Locator.start (C := LocatorScenario.environment)
    LocatorScenario.remote_reader [7%N] [9%N] true false LocatorScenario.idle
  = Locator.Done true LocatorScenario.started [] /\
  Locator.start (C := LocatorScenario.environment)
    LocatorScenario.remote_reader [8%N] [] false false LocatorScenario.started
  = Locator.Done false LocatorScenario.started [].
Proof.
  assert (H0 : Locator.remote_guid (Locator.locator_info_ LocatorScenario.idle)
               = Locator.c_Guid_Unknown) by reflexivity.
  assert (H1 : Locator.guid_as_vector_ LocatorScenario.idle <> []) by discriminate.
  assert (H2 : Locator.guid_prefix_as_vector_ LocatorScenario.idle <> []) by discriminate.
  assert (H3 : Locator.remote_guid (Locator.locator_info_ LocatorScenario.started)
               <> Locator.c_Guid_Unknown) by discriminate.
  split.
  - exact (proj2 (start_only_when_idle (C := LocatorScenario.environment)
                    LocatorScenario.idle LocatorScenario.remote_reader [7%N] [9%N]
                    true false) H0 H1 H2).
  - exact (proj1 (start_only_when_idle (C := LocatorScenario.environment)
                    LocatorScenario.started LocatorScenario.remote_reader [8%N] []
                    false false) H3).
Defined.

Lemma stop_releases_witness :
  exists l',
    Locator.stop (C := LocatorScenario.environment) LocatorScenario.started
    = Locator.Done tt l' [] /\
    Locator.remote_guid (Locator.locator_info_ l') = Locator.c_Guid_Unknown /\
    (forall message max_blocking_time_point,
        Locator.send message max_blocking_time_point l' = Locator.Done true l' []).
Proof.
  assert (H1 : Locator.guid_as_vector_ LocatorScenario.started <> []) by discriminate.
  assert (H2 : Locator.guid_prefix_as_vector_ LocatorScenario.started <> []) by discriminate.
  destruct (stop_releases (C := LocatorScenario.environment) LocatorScenario.started H1 H2)
    as (l' & Es & Eg & _ & _ & _ & _ & _ & _ & _ & _ & Hsend & _).
  exists l'. split; [ exact Es | ]. split; [ exact Eg | exact Hsend ].
Defined.
